(** * The bot identity service of tbot

    A shallow embedding of [lib/tbot/internal/identity/service.go]: the
    service that loads, joins, renews and persists the bot's own identity,
    together with the readiness gate it exposes to the other services.

    The Go code is effectful: it reads the clock, talks to the destination
    store and to the auth server, and mutates the service's fields.  The
    embedding threads an explicit state [St] through every function.  The
    outside world ([Env]) is abstract; each call that leaves the package is
    an oracle of the record [External], and every such call is appended to a
    chronological [trace], so that ordering properties can be stated.
    Logging and tracing spans do not touch that state and are left out. *)

From Stdlib Require Import ZArith List String Bool Lia.
Import ListNotations.
Local Open Scope Z_scope.

(** ** Plain data *)

(** [[]byte]. *)
Definition bytes := list Byte.byte.

(** [bytes.Equal]. *)
Fixpoint bytes_Equal (a b : bytes) : bool :=
  match a, b with
  | [], [] => true
  | x :: a', y :: b' => Byte.eqb x y && bytes_Equal a' b'
  | _, _ => false
  end.

(** [len(b) == 0] on a byte slice. *)
Definition bytes_empty (b : bytes) : bool :=
  match b with [] => true | _ :: _ => false end.

(** [time.Time] as an instant on the time line (nanoseconds), and
    [time.Duration]. *)
Definition Time := Z.
Definition Duration := Z.

(** [t.After(u)], [t.Before(u)] and [t.Add(d)]. *)
Definition time_After (t u : Time) : bool := u <? t.
Definition time_Before (t u : Time) : bool := t <? u.
Definition time_Add (t : Time) (d : Duration) : Time := t + d.

(** ** Errors of [github.com/gravitational/trace] *)

Inductive ErrKind := BadParameterKind | NotFoundKind | OtherKind.

Inductive error :=
| TraceError (k : ErrKind) (msg : string)
| Wrapped (e : error) (msg : string).

Definition trace_BadParameter (msg : string) : error :=
  TraceError BadParameterKind msg.

(** [trace.Wrap(err, msg)]; [trace.Wrap(err)] is [trace_Wrap err ""]. *)
Definition trace_Wrap (e : error) (msg : string) : error := Wrapped e msg.

Fixpoint trace_IsNotFound (e : error) : bool :=
  match e with
  | TraceError NotFoundKind _ => true
  | TraceError _ _ => false
  | Wrapped e' _ => trace_IsNotFound e'
  end.

Fixpoint trace_IsBadParameter (e : error) : bool :=
  match e with
  | TraceError BadParameterKind _ => true
  | TraceError _ _ => false
  | Wrapped e' _ => trace_IsBadParameter e'
  end.

(** The outcome of a Go call: a value, a returned error, or a panic. *)
Inductive result (A : Type) :=
| Ok (a : A)
| Err (e : error)
| Panic.
Arguments Ok {A} a.
Arguments Err {A} e.
Arguments Panic {A}.

(** ** Configuration ([Config], [connection.Config], [onboarding.Config]) *)

Inductive connection_AddressKind :=
| AddressKindUnspecified
| AddressKindProxy
| AddressKindAuth.

Record connection_Config := {
  Address : string;
  AddressKind : connection_AddressKind;
  Insecure : bool
}.

(** [types.JoinMethod] is a string type; the constructors are the constants
    the service switches on, [JoinMethodToken] (the renewable method) and
    a catch-all for every other name. *)
Inductive types_JoinMethod :=
| JoinMethodToken
| JoinMethodAzure
| JoinMethodTerraformCloud
| JoinMethodEnv0
| JoinMethodGitLab
| JoinMethodBoundKeypair
| JoinMethodOther (name : string).

Record onboarding_Config := {
  TokenValue : string;
  CAPath : string;
  CAPins : list string;
  JoinMethod : types_JoinMethod;
  Azure_ClientID : string;
  Terraform_AudienceTag : string;
  Gitlab_TokenEnvVarName : string;
  BoundKeypair_RegistrationSecret : string
}.

(** A destination is referred to by its printed name. *)
Definition destination_Destination := string.

Record Config := {
  Connection : connection_Config;
  Onboarding : onboarding_Config;
  Destination : destination_Destination;
  TTL : Duration;
  RenewalInterval : Duration;
  FIPS : bool
}.

(** ** Identities *)

Record x509_Certificate := {
  NotBefore : Time;
  NotAfter : Time;
  Subject_CommonName : string
}.

Record tlsca_Identity := {
  Renewable : bool
}.

(** Modelled from the spec: the type [identity.Identity] is declared in
    [lib/tbot/identity], outside the sources at hand.  It is a credential
    bundle: private key, public key, the hash of the join token that
    produced it, the parsed leaf certificate and the parsed TLS identity.
    These are the fields the service reads. *)
Record Identity := {
  PrivateKeyBytes : bytes;
  PublicKeyBytes : bytes;
  TokenHashBytes : bytes;
  X509Cert : x509_Certificate;
  TLSIdentity : tlsca_Identity
}.

(** Modelled from the spec: [identity.Facade] is declared in
    [lib/tbot/identity].  It owns exactly one current identity; [Get]
    returns the snapshot and [Set] replaces it. *)
Record Facade := {
  facade_fips : bool;
  facade_insecure : bool;
  facade_identity : Identity
}.

Definition identity_NewFacade (fips insecure : bool) (id : Identity) : Facade :=
  {| facade_fips := fips; facade_insecure := insecure; facade_identity := id |}.

Definition Facade_Get (f : Facade) : Identity := facade_identity f.

Definition Facade_Set (f : Facade) (id : Identity) : Facade :=
  {| facade_fips := facade_fips f;
     facade_insecure := facade_insecure f;
     facade_identity := id |}.

(** ** Values exchanged with the collaborators *)

(** An [*apiclient.Client] is a handle on a connection owned by the world. *)
Definition Client := nat.

Definition crypto_Signer := bytes.
Definition crypto_PublicKey := bytes.
Definition ssh_PublicKey := bytes.

Record proto_Certs := {
  Certs_SSH : bytes;
  Certs_TLS : bytes;
  Certs_TLSCACerts : list bytes;
  Certs_SSHCACerts : list bytes
}.

Record proto_UserCertsRequest := {
  SSHPublicKey : bytes;
  TLSPublicKey : bytes;
  Username : string;
  Expires : Time
}.

Record identity_LoadIdentityParams := {
  P_PrivateKeyBytes : bytes;
  P_PublicKeyBytes : bytes;
  P_TokenHashBytes : bytes
}.

Record utils_NetAddr := {
  Addr : string;
  AddrNetwork : string
}.

Inductive types_SystemRole := RoleBot.

Inductive CipherSuites := DefaultCipherSuites | FIPSCipherSuites.

Definition boundkeypair_ClientState := bytes.
Definition join_BoundKeypairParams := bytes.

(** [join.RegisterParams], with the fields [botIdentityFromToken] fills.
    [GetHostCredentials] is always [libclient.HostCredentials] and is left
    out. *)
Record join_RegisterParams := {
  Token : string;
  ID_Role : types_SystemRole;
  RP_JoinMethod : types_JoinMethod;
  RP_Expires : option Time;
  RP_Insecure : bool;
  RP_CAPins : list string;
  RP_CAPath : string;
  RP_FIPS : bool;
  RP_CipherSuites : CipherSuites;
  AuthClient : option Client;
  AuthServers : list utils_NetAddr;
  ProxyServer : option utils_NetAddr;
  AzureParams_ClientID : string;
  TerraformCloudAudienceTag : string;
  Env0AudienceTag : string;
  GitlabParams_EnvVarName : string;
  BoundKeypairParams : option join_BoundKeypairParams
}.

Record join_RegisterResult := {
  RR_PrivateKey : crypto_Signer;
  RR_Certs : proto_Certs
}.

(** Where [cryptosuites.GenerateKey] takes its suite from. *)
Inductive SuiteSource :=
| CurrentSuiteFromAuthPreference (c : Client).

Inductive KeyPurpose := HostIdentity.

Inductive readyz_Status := Healthy | Unhealthy.

(** ** Events: every call that leaves the package, in order *)

Inductive Event :=
| EvNow (t : Time)
| EvLoadIdentity (d : destination_Destination) (r : Identity + error)
| EvToken (r : string + error)
| EvSaveIdentity (id : Identity) (d : destination_Destination) (r : option error)
| EvVerifyWrite (d : destination_Destination) (r : option error)
| EvBuild (f : Facade) (r : Client + error)
| EvClose (c : Client)
| EvGenerateKey (src : SuiteSource) (p : KeyPurpose) (r : crypto_Signer + error)
| EvGenerateUserCerts (c : Client) (req : proto_UserCertsRequest)
    (r : proto_Certs + error)
| EvRegister (p : join_RegisterParams) (r : join_RegisterResult + error)
| EvLoadClientState (d : destination_Destination)
    (r : boundkeypair_ClientState + error)
| EvStoreClientState (s : boundkeypair_ClientState) (r : option error)
| EvFacadeSet (id : Identity)
| EvAssignFacade (f : Facade)
| EvMakeChan (c : nat)
| EvCloseChan (c : nat)
| EvReport (s : readyz_Status).

(** ** The collaborators

    Everything the service calls outside its own file.  Calls that touch the
    world take the world and return the new one; parsing and marshalling
    are pure. *)

Set Implicit Arguments.

Record External (Env : Type) := {
  (* time.Now *)
  time_Now : Env -> Time * Env;
  (* lib/tbot/identity *)
  identity_LoadIdentity :
    destination_Destination -> Env -> (Identity + error) * Env;
  identity_SaveIdentity :
    Identity -> destination_Destination -> Env -> option error * Env;
  identity_VerifyWrite : destination_Destination -> Env -> option error * Env;
  identity_ReadIdentityFromStore :
    identity_LoadIdentityParams -> proto_Certs -> Identity + error;
  Facade_Expiry : Facade -> option Time;
  (* lib/tbot/bot/connection and lib/tbot/bot/onboarding *)
  Connection_Validate : connection_Config -> option error;
  Onboarding_HasToken : onboarding_Config -> bool;
  Onboarding_Token : onboarding_Config -> Env -> (string + error) * Env;
  (* hex.EncodeToString of sha256.Sum256 *)
  sha256_hex : string -> bytes;
  (* lib/tbot/client and api/client *)
  Builder_Build : Facade -> Env -> (Client + error) * Env;
  Client_Close : Client -> Env -> Env;
  Client_GenerateUserCerts :
    Client -> proto_UserCertsRequest -> Env -> (proto_Certs + error) * Env;
  (* lib/cryptosuites, api/utils/keys, x/crypto/ssh *)
  cryptosuites_GenerateKey :
    SuiteSource -> KeyPurpose -> Env -> (crypto_Signer + error) * Env;
  Signer_Public : crypto_Signer -> crypto_PublicKey;
  keys_MarshalPrivateKey : crypto_Signer -> bytes + error;
  keys_MarshalPublicKey : crypto_PublicKey -> bytes + error;
  ssh_NewPublicKey : crypto_PublicKey -> ssh_PublicKey + error;
  ssh_MarshalAuthorizedKey : ssh_PublicKey -> bytes;
  (* lib/utils *)
  utils_ParseAddr : string -> utils_NetAddr + error;
  (* lib/auth/join and lib/auth/join/boundkeypair *)
  join_Register :
    join_RegisterParams -> Env -> (join_RegisterResult + error) * Env;
  boundkeypair_LoadClientState :
    destination_Destination -> Env -> (boundkeypair_ClientState + error) * Env;
  boundkeypair_NewEmptyClientState :
    destination_Destination -> boundkeypair_ClientState;
  ClientState_ToJoinParams :
    boundkeypair_ClientState -> string -> join_BoundKeypairParams;
  ClientState_UpdateFromRegisterResult :
    boundkeypair_ClientState -> join_RegisterResult ->
    boundkeypair_ClientState + error;
  ClientState_Store : boundkeypair_ClientState -> Env -> option error * Env
}.

Unset Implicit Arguments.

(** ** A small state-and-error monad *)

Section Monad.

Context {S : Type}.

Definition M (A : Type) : Type := S -> result A * S.

Definition ret {A} (a : A) : M A := fun st => (Ok a, st).

Definition fail {A} (e : error) : M A := fun st => (Err e, st).

Definition panic {A} : M A := fun st => (Panic, st).

Definition bind {A B} (m : M A) (k : A -> M B) : M B :=
  fun st =>
    match m st with
    | (Ok a, st') => k a st'
    | (Err e, st') => (Err e, st')
    | (Panic, st') => (Panic, st')
    end.

(** [if err != nil { return nil, trace.Wrap(err, msg) }]. *)
Definition wrapping {A} (msg : string) (m : M A) : M A :=
  fun st =>
    match m st with
    | (Err e, st') => (Err (trace_Wrap e msg), st')
    | r => r
    end.

(** Keep the error as a value: [x, err := f()] with no early return. *)
Definition catch {A} (m : M A) : M (A + error) :=
  fun st =>
    match m st with
    | (Ok a, st') => (Ok (inl a), st')
    | (Err e, st') => (Ok (inr e), st')
    | (Panic, st') => (Panic, st')
    end.

(** [defer d] ahead of the body [m]: [d] runs when [m] is left, however it
    is left, and what [d] returns is dropped. *)
Definition deferring {A B} (d : M B) (m : M A) : M A :=
  fun st =>
    let (r, st') := m st in
    (r, snd (d st')).

(** A pure fallible function. *)
Definition lift {A} (r : A + error) : M A :=
  match r with
  | inl a => ret a
  | inr e => fail e
  end.

End Monad.

Arguments M S A : clear implicits.

Declare Scope go_scope.
Delimit Scope go_scope with go.
Notation "x <- m ;; k" := (bind m (fun x => k))
  (at level 61, m at next level, right associativity) : go_scope.
Notation "m ;;; k" := (bind m (fun _ => k))
  (at level 61, right associativity) : go_scope.

(** ** The state threaded through the code *)

(** The world, the channels allocated by [make] (each with its closed
    flag), and the calls made so far, oldest first. *)
Record St (Env : Type) := {
  env : Env;
  chans : list bool;
  trace : list Event
}.
Arguments env {Env} s.
Arguments chans {Env} s.
Arguments trace {Env} s.

Section Calls.

Context {Env : Type}.

Definition emit (ev : Event) : M (St Env) unit :=
  fun st =>
    (Ok tt, {| env := env st; chans := chans st; trace := trace st ++ [ev] |}).

(** A call into the world that cannot fail. *)
Definition call {A} (f : Env -> A * Env) (ev : A -> Event) : M (St Env) A :=
  fun st =>
    let (a, e') := f (env st) in
    (Ok a, {| env := e'; chans := chans st; trace := trace st ++ [ev a] |}).

(** A call into the world returning [(T, error)]. *)
Definition call_err {A} (f : Env -> (A + error) * Env)
    (ev : A + error -> Event) : M (St Env) A :=
  fun st =>
    let (r, e') := f (env st) in
    let st' := {| env := e'; chans := chans st; trace := trace st ++ [ev r] |} in
    match r with
    | inl a => (Ok a, st')
    | inr e => (Err e, st')
    end.

(** A call into the world returning just [error]. *)
Definition call_unit (f : Env -> option error * Env)
    (ev : option error -> Event) : M (St Env) unit :=
  fun st =>
    let (r, e') := f (env st) in
    let st' := {| env := e'; chans := chans st; trace := trace st ++ [ev r] |} in
    match r with
    | None => (Ok tt, st')
    | Some e => (Err e, st')
    end.

(** [make(chan struct{})]: the new channel is open. *)
Definition make_chan : M (St Env) nat :=
  fun st =>
    let c := List.length (chans st) in
    (Ok c, {| env := env st;
              chans := chans st ++ [false];
              trace := trace st ++ [EvMakeChan c] |}).

Fixpoint set_closed (l : list bool) (c : nat) : list bool :=
  match l, c with
  | [], _ => []
  | _ :: l', O => true :: l'
  | b :: l', S c' => b :: set_closed l' c'
  end.

(** [close(ch)]: closing a nil channel or a closed channel panics. *)
Definition close_chan (ch : option nat) : M (St Env) unit :=
  fun st =>
    match ch with
    | None => (Panic, st)
    | Some c =>
        match nth_error (chans st) c with
        | Some false =>
            (Ok tt, {| env := env st;
                       chans := set_closed (chans st) c;
                       trace := trace st ++ [EvCloseChan c] |})
        | _ => (Panic, st)
        end
    end.

(** [select { case <-ch: return true; default: return false }] on a channel
    nobody sends on: the receive is ready exactly when [ch] is closed. *)
Definition chan_closed (c : nat) : M (St Env) bool :=
  fun st =>
    match nth_error (chans st) c with
    | Some b => (Ok b, st)
    | None => (Panic, st)
    end.

End Calls.

(** ** Field updates of [join.RegisterParams] *)

Definition set_AuthClient (p : join_RegisterParams) (c : option Client) :=
  {| Token := Token p; ID_Role := ID_Role p; RP_JoinMethod := RP_JoinMethod p;
     RP_Expires := RP_Expires p; RP_Insecure := RP_Insecure p;
     RP_CAPins := RP_CAPins p; RP_CAPath := RP_CAPath p; RP_FIPS := RP_FIPS p;
     RP_CipherSuites := RP_CipherSuites p; AuthClient := c;
     AuthServers := AuthServers p; ProxyServer := ProxyServer p;
     AzureParams_ClientID := AzureParams_ClientID p;
     TerraformCloudAudienceTag := TerraformCloudAudienceTag p;
     Env0AudienceTag := Env0AudienceTag p;
     GitlabParams_EnvVarName := GitlabParams_EnvVarName p;
     BoundKeypairParams := BoundKeypairParams p |}.

Definition set_AuthServers (p : join_RegisterParams) (a : list utils_NetAddr) :=
  {| Token := Token p; ID_Role := ID_Role p; RP_JoinMethod := RP_JoinMethod p;
     RP_Expires := RP_Expires p; RP_Insecure := RP_Insecure p;
     RP_CAPins := RP_CAPins p; RP_CAPath := RP_CAPath p; RP_FIPS := RP_FIPS p;
     RP_CipherSuites := RP_CipherSuites p; AuthClient := AuthClient p;
     AuthServers := a; ProxyServer := ProxyServer p;
     AzureParams_ClientID := AzureParams_ClientID p;
     TerraformCloudAudienceTag := TerraformCloudAudienceTag p;
     Env0AudienceTag := Env0AudienceTag p;
     GitlabParams_EnvVarName := GitlabParams_EnvVarName p;
     BoundKeypairParams := BoundKeypairParams p |}.

Definition set_ProxyServer (p : join_RegisterParams) (a : utils_NetAddr) :=
  {| Token := Token p; ID_Role := ID_Role p; RP_JoinMethod := RP_JoinMethod p;
     RP_Expires := RP_Expires p; RP_Insecure := RP_Insecure p;
     RP_CAPins := RP_CAPins p; RP_CAPath := RP_CAPath p; RP_FIPS := RP_FIPS p;
     RP_CipherSuites := RP_CipherSuites p; AuthClient := AuthClient p;
     AuthServers := AuthServers p; ProxyServer := Some a;
     AzureParams_ClientID := AzureParams_ClientID p;
     TerraformCloudAudienceTag := TerraformCloudAudienceTag p;
     Env0AudienceTag := Env0AudienceTag p;
     GitlabParams_EnvVarName := GitlabParams_EnvVarName p;
     BoundKeypairParams := BoundKeypairParams p |}.

Definition set_AzureParams (p : join_RegisterParams) (clientID : string) :=
  {| Token := Token p; ID_Role := ID_Role p; RP_JoinMethod := RP_JoinMethod p;
     RP_Expires := RP_Expires p; RP_Insecure := RP_Insecure p;
     RP_CAPins := RP_CAPins p; RP_CAPath := RP_CAPath p; RP_FIPS := RP_FIPS p;
     RP_CipherSuites := RP_CipherSuites p; AuthClient := AuthClient p;
     AuthServers := AuthServers p; ProxyServer := ProxyServer p;
     AzureParams_ClientID := clientID;
     TerraformCloudAudienceTag := TerraformCloudAudienceTag p;
     Env0AudienceTag := Env0AudienceTag p;
     GitlabParams_EnvVarName := GitlabParams_EnvVarName p;
     BoundKeypairParams := BoundKeypairParams p |}.

Definition set_TerraformCloudAudienceTag (p : join_RegisterParams)
    (tag : string) :=
  {| Token := Token p; ID_Role := ID_Role p; RP_JoinMethod := RP_JoinMethod p;
     RP_Expires := RP_Expires p; RP_Insecure := RP_Insecure p;
     RP_CAPins := RP_CAPins p; RP_CAPath := RP_CAPath p; RP_FIPS := RP_FIPS p;
     RP_CipherSuites := RP_CipherSuites p; AuthClient := AuthClient p;
     AuthServers := AuthServers p; ProxyServer := ProxyServer p;
     AzureParams_ClientID := AzureParams_ClientID p;
     TerraformCloudAudienceTag := tag;
     Env0AudienceTag := Env0AudienceTag p;
     GitlabParams_EnvVarName := GitlabParams_EnvVarName p;
     BoundKeypairParams := BoundKeypairParams p |}.

Definition set_Env0AudienceTag (p : join_RegisterParams) (tag : string) :=
  {| Token := Token p; ID_Role := ID_Role p; RP_JoinMethod := RP_JoinMethod p;
     RP_Expires := RP_Expires p; RP_Insecure := RP_Insecure p;
     RP_CAPins := RP_CAPins p; RP_CAPath := RP_CAPath p; RP_FIPS := RP_FIPS p;
     RP_CipherSuites := RP_CipherSuites p; AuthClient := AuthClient p;
     AuthServers := AuthServers p; ProxyServer := ProxyServer p;
     AzureParams_ClientID := AzureParams_ClientID p;
     TerraformCloudAudienceTag := TerraformCloudAudienceTag p;
     Env0AudienceTag := tag;
     GitlabParams_EnvVarName := GitlabParams_EnvVarName p;
     BoundKeypairParams := BoundKeypairParams p |}.

Definition set_GitlabParams (p : join_RegisterParams) (envVarName : string) :=
  {| Token := Token p; ID_Role := ID_Role p; RP_JoinMethod := RP_JoinMethod p;
     RP_Expires := RP_Expires p; RP_Insecure := RP_Insecure p;
     RP_CAPins := RP_CAPins p; RP_CAPath := RP_CAPath p; RP_FIPS := RP_FIPS p;
     RP_CipherSuites := RP_CipherSuites p; AuthClient := AuthClient p;
     AuthServers := AuthServers p; ProxyServer := ProxyServer p;
     AzureParams_ClientID := AzureParams_ClientID p;
     TerraformCloudAudienceTag := TerraformCloudAudienceTag p;
     Env0AudienceTag := Env0AudienceTag p;
     GitlabParams_EnvVarName := envVarName;
     BoundKeypairParams := BoundKeypairParams p |}.

Definition set_BoundKeypairParams (p : join_RegisterParams)
    (b : join_BoundKeypairParams) :=
  {| Token := Token p; ID_Role := ID_Role p; RP_JoinMethod := RP_JoinMethod p;
     RP_Expires := RP_Expires p; RP_Insecure := RP_Insecure p;
     RP_CAPins := RP_CAPins p; RP_CAPath := RP_CAPath p; RP_FIPS := RP_FIPS p;
     RP_CipherSuites := RP_CipherSuites p; AuthClient := AuthClient p;
     AuthServers := AuthServers p; ProxyServer := ProxyServer p;
     AzureParams_ClientID := AzureParams_ClientID p;
     TerraformCloudAudienceTag := TerraformCloudAudienceTag p;
     Env0AudienceTag := Env0AudienceTag p;
     GitlabParams_EnvVarName := GitlabParams_EnvVarName p;
     BoundKeypairParams := Some b |}.

(** ** The functions of the package that are not methods *)

Local Open Scope go_scope.

(** Messages that several definitions and statements share. *)
Definition msg_no_identity_or_token : string :=
  "no existing identity found on disk or join token configured"%string.

Section Functions.

Context {Env : Type}.
Variable X : External Env.

Definition hasTokenChanged (configTokenBytes identityBytes : bytes) : bool :=
  if bytes_empty configTokenBytes || bytes_empty identityBytes then false
  else negb (bytes_Equal identityBytes configTokenBytes).

(** [now.After(NotAfter)] first, [now.Before(NotBefore)] second, as in
    [loadIdentityFromStore]. *)
Definition validAt (now : Time) (cert : x509_Certificate) : bool :=
  if time_After now (NotAfter cert) then false
  else if time_Before now (NotBefore cert) then false
  else true.

(** The token comparison of [loadIdentityFromStore]: [true] when the loaded
    identity is to be dropped. *)
Definition tokenMismatch (cfg : Config) (loadedIdent : Identity)
    : M (St Env) bool :=
  if Onboarding_HasToken X (Onboarding cfg) then
    t <- catch (call_err (Onboarding_Token X (Onboarding cfg)) EvToken) ;;
    match t with
    | inl token =>
        let configTokenHashBytes := sha256_hex X token in
        ret (hasTokenChanged (TokenHashBytes loadedIdent) configTokenHashBytes)
    | inr _ => ret false
    end
  else ret false.

Definition loadIdentityFromStore (cfg : Config)
    (store : destination_Destination) : M (St Env) (option Identity * bool) :=
  r <- catch (call_err (identity_LoadIdentity X store) (EvLoadIdentity store)) ;;
  match r with
  | inr err =>
      if trace_IsNotFound err then ret (None, false) else ret (None, false)
  | inl loadedIdent =>
      changed <- tokenMismatch cfg loadedIdent ;;
      if changed then ret (None, false)
      else
        now <- call (time_Now X) EvNow ;;
        ret (Some loadedIdent, validAt now (X509Cert loadedIdent))
  end.

Definition botIdentityFromAuth (ident : option Identity)
    (client : option Client) (ttl : Duration) : M (St Env) Identity :=
  match ident, client with
  | Some ident, Some client =>
      key <- wrapping ""
        (call_err
           (cryptosuites_GenerateKey X (CurrentSuiteFromAuthPreference client)
              HostIdentity)
           (EvGenerateKey (CurrentSuiteFromAuthPreference client) HostIdentity)) ;;
      privateKeyPEM <- wrapping "" (lift (keys_MarshalPrivateKey X key)) ;;
      sshPubKey <- wrapping "" (lift (ssh_NewPublicKey X (Signer_Public X key))) ;;
      let sshPub := ssh_MarshalAuthorizedKey X sshPubKey in
      tlsPub <- wrapping ""
        (lift (keys_MarshalPublicKey X (Signer_Public X key))) ;;
      now <- call (time_Now X) EvNow ;;
      let req := {| SSHPublicKey := sshPub;
                    TLSPublicKey := tlsPub;
                    Username := Subject_CommonName (X509Cert ident);
                    Expires := time_Add now ttl |} in
      certs <- wrapping "calling GenerateUserCerts"
        (call_err (Client_GenerateUserCerts X client req)
           (EvGenerateUserCerts client req)) ;;
      wrapping "reading renewed identity"
        (lift (identity_ReadIdentityFromStore X
                 {| P_PrivateKeyBytes := privateKeyPEM;
                    P_PublicKeyBytes := sshPub;
                    P_TokenHashBytes := TokenHashBytes ident |} certs))
  | _, _ =>
      fail (trace_BadParameter
        "renewIdentityWithAuth must be called with non-nil client and identity")
  end.

(** [defaultParams] is the struct literal [join.RegisterParams{...}] of
    [botIdentityFromToken]: the fields it does not name are zero. *)
Definition defaultParams (cfg : Config) (token : string) (expires : Time)
    : join_RegisterParams :=
  {| Token := token;
     ID_Role := RoleBot;
     RP_JoinMethod := JoinMethod (Onboarding cfg);
     RP_Expires := Some expires;
     RP_Insecure := Insecure (Connection cfg);
     RP_CAPins := CAPins (Onboarding cfg);
     RP_CAPath := CAPath (Onboarding cfg);
     RP_FIPS := FIPS cfg;
     RP_CipherSuites :=
       if FIPS cfg then FIPSCipherSuites else DefaultCipherSuites;
     AuthClient := None;
     AuthServers := [];
     ProxyServer := None;
     AzureParams_ClientID := "";
     TerraformCloudAudienceTag := "";
     Env0AudienceTag := "";
     GitlabParams_EnvVarName := "";
     BoundKeypairParams := None |}.

(** [switch cfg.Connection.AddressKind]. *)
Definition withAddress (cfg : Config) (params : join_RegisterParams)
    : M (St Env) join_RegisterParams :=
  match AddressKind (Connection cfg) with
  | AddressKindAuth =>
      parsed <- wrapping "failed to parse addr"
        (lift (utils_ParseAddr X (Address (Connection cfg)))) ;;
      ret (set_AuthServers params [parsed])
  | AddressKindProxy =>
      parsed <- wrapping "failed to parse addr"
        (lift (utils_ParseAddr X (Address (Connection cfg)))) ;;
      ret (set_ProxyServer params parsed)
  | AddressKindUnspecified =>
      fail (trace_BadParameter "unsupported address kind")
  end.

(** [switch params.JoinMethod]: the parameters of the join method, and the
    bound keypair state when that method is used. *)
Definition withJoinMethod (cfg : Config) (params : join_RegisterParams)
    : M (St Env) (option boundkeypair_ClientState * join_RegisterParams) :=
  match RP_JoinMethod params with
  | JoinMethodAzure =>
      ret (None, set_AzureParams params (Azure_ClientID (Onboarding cfg)))
  | JoinMethodTerraformCloud =>
      ret (None, set_TerraformCloudAudienceTag params
                   (Terraform_AudienceTag (Onboarding cfg)))
  | JoinMethodEnv0 =>
      ret (None, set_Env0AudienceTag params "something")
  | JoinMethodGitLab =>
      ret (None, set_GitlabParams params
                   (Gitlab_TokenEnvVarName (Onboarding cfg)))
  | JoinMethodBoundKeypair =>
      let joinSecret := BoundKeypair_RegistrationSecret (Onboarding cfg) in
      let adapter := Destination cfg in
      r <- catch (call_err (boundkeypair_LoadClientState X adapter)
                    (EvLoadClientState adapter)) ;;
      boundKeypairState <-
        match r with
        | inr err =>
            if trace_IsNotFound err && negb (String.eqb joinSecret "")
            then ret (boundkeypair_NewEmptyClientState X adapter)
            else fail (trace_Wrap err "loading bound keypair client state")
        | inl loaded => ret loaded
        end ;;
      ret (Some boundKeypairState,
           set_BoundKeypairParams params
             (ClientState_ToJoinParams X boundKeypairState joinSecret))
  | _ => ret (None, params)
  end.

Definition botIdentityFromToken (cfg : Config) (authClient : option Client)
    : M (St Env) Identity :=
  token <- wrapping "" (call_err (Onboarding_Token X (Onboarding cfg)) EvToken) ;;
  now <- call (time_Now X) EvNow ;;
  let expires := time_Add now (TTL cfg) in
  let params := defaultParams cfg token expires in
  let params :=
    match authClient with
    | Some c => set_AuthClient params (Some c)
    | None => params
    end in
  params <- withAddress cfg params ;;
  bp <- withJoinMethod cfg params ;;
  let (boundKeypairState, params) := bp in
  result <- wrapping "" (call_err (join_Register X params) (EvRegister params)) ;;
  match boundKeypairState with
  | Some bks =>
      bks' <- wrapping ""
        (lift (ClientState_UpdateFromRegisterResult X bks result)) ;;
      wrapping "" (call_unit (ClientState_Store X bks') (EvStoreClientState bks'))
  | None => ret tt
  end ;;;
  privateKeyPEM <- wrapping ""
    (lift (keys_MarshalPrivateKey X (RR_PrivateKey result))) ;;
  sshPub <- wrapping ""
    (lift (ssh_NewPublicKey X (Signer_Public X (RR_PrivateKey result)))) ;;
  let tokenHash := sha256_hex X (Token params) in
  wrapping ""
    (lift (identity_ReadIdentityFromStore X
             {| P_PrivateKeyBytes := privateKeyPEM;
                P_PublicKeyBytes := ssh_MarshalAuthorizedKey X sshPub;
                P_TokenHashBytes := tokenHash |} (RR_Certs result))).

(** [authClient.Close()], whose error is dropped. *)
Definition closeClient (c : Client) : M (St Env) unit :=
  call (fun e => (tt, Client_Close X c e)) (fun _ => EvClose c).

(** The expiry test of the lightweight renewal:
    [expiry, ok := facade.Expiry(); !ok || now.After(expiry)]. *)
Definition appearsExpired (facade : Facade) (now : Time) : bool :=
  match Facade_Expiry X facade with
  | None => true
  | Some expiry => time_After now expiry
  end.

Definition renewIdentity (cfg : Config) (oldIdentity : Identity)
    : M (St Env) Identity :=
  let facade :=
    identity_NewFacade (FIPS cfg) (Insecure (Connection cfg)) oldIdentity in
  authClient <- wrapping "creating auth client"
    (call_err (Builder_Build X facade) (EvBuild facade)) ;;
  deferring (closeClient authClient)
    (if Renewable (TLSIdentity oldIdentity) then
       wrapping "renewing identity using GenerateUserCert"
         (botIdentityFromAuth (Some oldIdentity) (Some authClient) (TTL cfg))
     else
       now <- call (time_Now X) EvNow ;;
       if appearsExpired facade now then
         wrapping "renewing identity using Register without existing auth client"
           (botIdentityFromToken cfg None)
       else
         wrapping "renewing identity using Register with existing auth client"
           (botIdentityFromToken cfg (Some authClient))).

End Functions.

(** ** The service and its methods *)

(** The mutable fields of [Service].  [mu] only serialises the accesses and
    has no state of its own here; [initializedOnce] is the done flag of the
    [sync.Once]; [initialized] is the address of the channel, [None] for
    [nil].  The facade is held by value, [None] for [nil]: the Go facade is
    also reachable from the client built around it, a sharing that no
    statement below depends on. *)
Record Service := {
  s_cfg : Config;
  s_client : option Client;
  s_facade : option Facade;
  s_initialized : option nat;
  s_initializedOnce : bool
}.

Section Methods.

Context {Env : Type}.
Variable X : External Env.

(** [CheckAndSetDefaults], for the checks that can fail.  The builder, the
    logger and the reporter are part of the collaborators here, and the
    destination is always present. *)
Definition CheckAndSetDefaults (cfg : Config) : option error :=
  match Connection_Validate X (Connection cfg) with
  | Some err => Some (trace_Wrap err "")
  | None =>
      if TTL cfg <=? 0 then Some (trace_BadParameter "TTL is required")
      else if RenewalInterval cfg <=? 0
      then Some (trace_BadParameter "RenewalInterval is required")
      else None
  end.

Definition NewService (cfg : Config) : Service + error :=
  match CheckAndSetDefaults cfg with
  | Some err => inr (trace_Wrap err "")
  | None =>
      inl {| s_cfg := cfg;
             s_client := None;
             s_facade := None;
             s_initialized := None;
             s_initializedOnce := false |}
  end.

(** A method runs on the service and the state together. *)
Definition Meth (A : Type) : Type := M (Service * St Env) A.

Definition run {A} (m : M (St Env) A) : Meth A :=
  fun p =>
    let (r, st') := m (snd p) in
    (r, (fst p, st')).

Definition self : Meth Service := fun p => (Ok (fst p), p).

Definition update (f : Service -> Service) : Meth unit :=
  fun p => (Ok tt, (f (fst p), snd p)).

Definition set_initialized (c : nat) (s : Service) : Service :=
  {| s_cfg := s_cfg s; s_client := s_client s; s_facade := s_facade s;
     s_initialized := Some c; s_initializedOnce := s_initializedOnce s |}.

Definition set_done (s : Service) : Service :=
  {| s_cfg := s_cfg s; s_client := s_client s; s_facade := s_facade s;
     s_initialized := s_initialized s; s_initializedOnce := true |}.

Definition set_facade_client (f : Facade) (c : Client) (s : Service) : Service :=
  {| s_cfg := s_cfg s; s_client := Some c; s_facade := Some f;
     s_initialized := s_initialized s;
     s_initializedOnce := s_initializedOnce s |}.

Definition set_facade (f : Facade) (s : Service) : Service :=
  {| s_cfg := s_cfg s; s_client := s_client s; s_facade := Some f;
     s_initialized := s_initialized s;
     s_initializedOnce := s_initializedOnce s |}.

(** [if s.initialized == nil { s.initialized = make(chan struct{}) }]. *)
Definition ensureInitialized : Meth nat :=
  s <- self ;;
  match s_initialized s with
  | Some c => ret c
  | None =>
      c <- run make_chan ;;
      update (set_initialized c) ;;;
      ret c
  end.

Definition Ready : Meth nat := ensureInitialized.

Definition IsReady : Meth bool :=
  c <- Ready ;;
  run (chan_closed c).

(** [s.initializedOnce.Do(func() { close(s.initialized) })]. *)
Definition unblockWaiters : Meth unit :=
  ensureInitialized ;;;
  s <- self ;;
  if s_initializedOnce s then ret tt
  else
    run (close_chan (s_initialized s)) ;;;
    update set_done.

Definition GetIdentity : Meth Identity :=
  s <- self ;;
  match s_facade s with
  | Some f => ret (Facade_Get f)
  | None => panic
  end.

Definition GetClient : Meth (option Client) :=
  s <- self ;;
  ret (s_client s).

(** The last part of [Initialize], reached with the new identity: save it,
    build the client, publish, signal readiness, report. *)
Definition Initialize_publish (newIdentity : Identity) : Meth unit :=
  s <- self ;;
  let cfg := s_cfg s in
  wrapping ""
    (run (call_unit (identity_SaveIdentity X newIdentity (Destination cfg))
            (EvSaveIdentity newIdentity (Destination cfg)))) ;;;
  let facade :=
    identity_NewFacade (FIPS cfg) (Insecure (Connection cfg)) newIdentity in
  c <- wrapping "" (run (call_err (Builder_Build X facade) (EvBuild facade))) ;;
  update (set_facade_client facade c) ;;;
  run (emit (EvAssignFacade facade)) ;;;
  unblockWaiters ;;;
  run (emit (EvReport Healthy)).

(** The branch of [Initialize] taken when renewing or re-joining failed
    although an identity had been loaded: carry on with the old one. *)
Definition Initialize_fallback (loadedIdent : Identity) : Meth unit :=
  s <- self ;;
  let cfg := s_cfg s in
  let facade :=
    identity_NewFacade (FIPS cfg) (Insecure (Connection cfg)) loadedIdent in
  c <- wrapping "" (run (call_err (Builder_Build X facade) (EvBuild facade))) ;;
  update (set_facade_client facade c) ;;;
  run (emit (EvAssignFacade facade)).

Definition Initialize : Meth unit :=
  s <- self ;;
  let cfg := s_cfg s in
  l <- run (loadIdentityFromStore X cfg (Destination cfg)) ;;
  let (loadedIdent, valid) := l in
  if negb valid && negb (Onboarding_HasToken X (Onboarding cfg)) then
    fail (trace_BadParameter msg_no_identity_or_token)
  else
    match loadedIdent with
    | None =>
        newIdentity <- wrapping "joining with token"
          (run (botIdentityFromToken X cfg None)) ;;
        Initialize_publish newIdentity
    | Some loadedIdent =>
        r <- catch (run (if valid
                         then renewIdentity X cfg loadedIdent
                         else botIdentityFromToken X cfg None)) ;;
        match r with
        | inr _ => Initialize_fallback loadedIdent
        | inl newIdentity => Initialize_publish newIdentity
        end
    end.

Definition msg_cannot_write (d : destination_Destination) : string :=
  ("Cannot write to destination " ++ d ++ ", aborting.")%string.

Definition renew (botDestination : destination_Destination) : Meth unit :=
  s <- self ;;
  match s_facade s with
  | None => panic
  | Some facade =>
      let currentIdentity := Facade_Get facade in
      wrapping (msg_cannot_write botDestination)
        (run (call_unit (identity_VerifyWrite X botDestination)
                (EvVerifyWrite botDestination))) ;;;
      newIdentity <- wrapping "renewing identity"
        (run (renewIdentity X (s_cfg s) currentIdentity)) ;;
      update (set_facade (Facade_Set facade newIdentity)) ;;;
      run (emit (EvFacadeSet newIdentity)) ;;;
      wrapping "saving new identity"
        (run (call_unit (identity_SaveIdentity X newIdentity botDestination)
                (EvSaveIdentity newIdentity botDestination)))
  end.

End Methods.

(** ** A small concrete world

    A world simple enough to run the service on: a store holding at most
    one identity, a clock that does not move, an auth server that is up or
    down, and a key generator that counts.  It serves to evaluate the code
    at concrete inputs. *)

Module TestWorld.

Local Open Scope string_scope.

Record Env := {
  clock : Time;
  stored : option Identity;
  writable : bool;
  save_ok : bool;
  auth_up : bool;
  keys_made : nat;
  clients_made : nat
}.

Definition err_unwritable : error := TraceError OtherKind "read-only destination".
Definition err_auth_down : error := TraceError OtherKind "auth server unreachable".
Definition err_not_found : error := TraceError NotFoundKind "not found".

Definition with_stored (e : Env) (id : option Identity) : Env :=
  {| clock := clock e; stored := id; writable := writable e;
     save_ok := save_ok e; auth_up := auth_up e;
     keys_made := keys_made e; clients_made := clients_made e |}.

Definition with_key (e : Env) : Env :=
  {| clock := clock e; stored := stored e; writable := writable e;
     save_ok := save_ok e; auth_up := auth_up e;
     keys_made := S (keys_made e); clients_made := clients_made e |}.

Definition with_client (e : Env) : Env :=
  {| clock := clock e; stored := stored e; writable := writable e;
     save_ok := save_ok e; auth_up := auth_up e;
     keys_made := keys_made e; clients_made := S (clients_made e) |}.

(** The [n]-th key of the generator. *)
Definition key_of (n : nat) : crypto_Signer := repeat Byte.x01 (S n).

Definition test_cert : x509_Certificate :=
  {| NotBefore := 100; NotAfter := 200; Subject_CommonName := "bot-test" |}.

(** The certificates the auth server of this world issues: the TLS
    certificate is one byte, [x03] for a renewable identity and [x04]
    otherwise. *)
Definition test_certs (renewable : bool) : proto_Certs :=
  {| Certs_SSH := [Byte.x02];
     Certs_TLS := if renewable then [Byte.x03] else [Byte.x04];
     Certs_TLSCACerts := []; Certs_SSHCACerts := [] |}.

Definition isToken (m : types_JoinMethod) : bool :=
  match m with JoinMethodToken => true | _ => false end.

(** Certificates of this world all have the validity of [test_cert]. *)
Definition read_identity (p : identity_LoadIdentityParams) (c : proto_Certs)
    : Identity + error :=
  inl {| PrivateKeyBytes := P_PrivateKeyBytes p;
         PublicKeyBytes := P_PublicKeyBytes p;
         TokenHashBytes := P_TokenHashBytes p;
         X509Cert := test_cert;
         TLSIdentity :=
           {| Renewable := bytes_Equal (Certs_TLS c) [Byte.x03] |} |}.

Definition world : External Env :=
  {| time_Now := fun e => (clock e, e);
     identity_LoadIdentity := fun _ e =>
       match stored e with
       | Some id => (inl id, e)
       | None => (inr err_not_found, e)
       end;
     identity_SaveIdentity := fun id _ e =>
       if save_ok e then (None, with_stored e (Some id))
       else (Some err_unwritable, e);
     identity_VerifyWrite := fun _ e =>
       if writable e then (None, e) else (Some err_unwritable, e);
     identity_ReadIdentityFromStore := read_identity;
     Facade_Expiry := fun f => Some (NotAfter (X509Cert (Facade_Get f)));
     Connection_Validate := fun _ => None;
     Onboarding_HasToken := fun o => negb (String.eqb (TokenValue o) "");
     Onboarding_Token := fun o e => (inl (TokenValue o), e);
     sha256_hex := list_byte_of_string;
     Builder_Build := fun _ e => (inl (clients_made e), with_client e);
     Client_Close := fun _ e => e;
     Client_GenerateUserCerts := fun _ _ e =>
       if auth_up e then (inl (test_certs true), e)
       else (inr err_auth_down, e);
     cryptosuites_GenerateKey := fun _ _ e =>
       (inl (key_of (keys_made e)), with_key e);
     Signer_Public := fun k => k;
     keys_MarshalPrivateKey := fun k => inl k;
     keys_MarshalPublicKey := fun k => inl k;
     ssh_NewPublicKey := fun k => inl k;
     ssh_MarshalAuthorizedKey := fun k => k;
     utils_ParseAddr := fun a => inl {| Addr := a; AddrNetwork := "tcp" |};
     join_Register := fun p e =>
       if auth_up e
       then (inl {| RR_PrivateKey := key_of (keys_made e);
                    RR_Certs := test_certs (isToken (RP_JoinMethod p)) |},
             with_key e)
       else (inr err_auth_down, e);
     boundkeypair_LoadClientState := fun _ e => (inr err_not_found, e);
     boundkeypair_NewEmptyClientState := fun _ => [];
     ClientState_ToJoinParams := fun s _ => s;
     ClientState_UpdateFromRegisterResult := fun s _ => inl s;
     ClientState_Store := fun _ e => (None, e) |}.

Definition test_onboarding (token : string) (method : types_JoinMethod)
    : onboarding_Config :=
  {| TokenValue := token; CAPath := ""; CAPins := [];
     JoinMethod := method; Azure_ClientID := "";
     Terraform_AudienceTag := "tfc-tag"; Gitlab_TokenEnvVarName := "";
     BoundKeypair_RegistrationSecret := "" |}.

Definition test_cfg (token : string) (method : types_JoinMethod) : Config :=
  {| Connection := {| Address := "proxy.example.com:443";
                      AddressKind := AddressKindProxy;
                      Insecure := false |};
     Onboarding := test_onboarding token method;
     Destination := "memory";
     TTL := 60;
     RenewalInterval := 20;
     FIPS := false |}.

Definition test_env (now : Time) (id : option Identity) : Env :=
  {| clock := now; stored := id; writable := true; save_ok := true;
     auth_up := true; keys_made := 0; clients_made := 0 |}.

(** The same world with the auth server down, with a destination that
    refuses the check, and with one that passes the check and then fails
    to save. *)
Definition auth_down (e : Env) : Env :=
  {| clock := clock e; stored := stored e; writable := writable e;
     save_ok := save_ok e; auth_up := false;
     keys_made := keys_made e; clients_made := clients_made e |}.

Definition read_only (e : Env) : Env :=
  {| clock := clock e; stored := stored e; writable := false;
     save_ok := false; auth_up := auth_up e;
     keys_made := keys_made e; clients_made := clients_made e |}.

Definition save_fails (e : Env) : Env :=
  {| clock := clock e; stored := stored e; writable := true;
     save_ok := false; auth_up := auth_up e;
     keys_made := keys_made e; clients_made := clients_made e |}.

Definition start (e : Env) : St Env :=
  {| env := e; chans := []; trace := [] |}.

(** An identity obtained earlier with the token [tok]; renewable when
    [renewable]. *)
Definition old_identity (tok : string) (renewable : bool) : Identity :=
  {| PrivateKeyBytes := [Byte.x09];
     PublicKeyBytes := [Byte.x09];
     TokenHashBytes := list_byte_of_string tok;
     X509Cert := test_cert;
     TLSIdentity := {| Renewable := renewable |} |}.

Definition fresh_service (cfg : Config) : Service :=
  {| s_cfg := cfg; s_client := None; s_facade := None;
     s_initialized := None; s_initializedOnce := false |}.

Definition running_service (cfg : Config) (id : Identity) : Service :=
  {| s_cfg := cfg; s_client := Some 7%nat;
     s_facade := Some (identity_NewFacade false false id);
     s_initialized := None; s_initializedOnce := false |}.

Definition cfgA : Config := test_cfg "tok-A" (JoinMethodOther "kubernetes").
Definition cfgB : Config := test_cfg "tok-B" (JoinMethodOther "kubernetes").
Definition cfgNone : Config := test_cfg "" (JoinMethodOther "kubernetes").
Definition cfgToken : Config := test_cfg "tok-A" JoinMethodToken.
Definition cfgEnv0 : Config := test_cfg "tok-A" JoinMethodEnv0.

Definition idA : Identity := old_identity "tok-A" false.
Definition idRenewable : Identity := old_identity "tok-A" true.

(** The identity a renewal makes out of the [n]-th generated key. *)
Definition renewed (n : nat) : Identity :=
  {| PrivateKeyBytes := key_of n;
     PublicKeyBytes := key_of n;
     TokenHashBytes := list_byte_of_string "tok-A";
     X509Cert := test_cert;
     TLSIdentity := {| Renewable := true |} |}.

End TestWorld.

(** ** Variations of the concrete world

    The same world with one collaborator replaced: a token that cannot be
    read, a bound keypair state that exists already. *)

Module Variations.

Import TestWorld.
Local Open Scope string_scope.
Local Open Scope list_scope.

Definition with_Token (X : External Env)
    (f : onboarding_Config -> Env -> (string + error) * Env) : External Env :=
  {| time_Now := time_Now X;
     identity_LoadIdentity := identity_LoadIdentity X;
     identity_SaveIdentity := identity_SaveIdentity X;
     identity_VerifyWrite := identity_VerifyWrite X;
     identity_ReadIdentityFromStore := identity_ReadIdentityFromStore X;
     Facade_Expiry := Facade_Expiry X;
     Connection_Validate := Connection_Validate X;
     Onboarding_HasToken := Onboarding_HasToken X;
     Onboarding_Token := f;
     sha256_hex := sha256_hex X;
     Builder_Build := Builder_Build X;
     Client_Close := Client_Close X;
     Client_GenerateUserCerts := Client_GenerateUserCerts X;
     cryptosuites_GenerateKey := cryptosuites_GenerateKey X;
     Signer_Public := Signer_Public X;
     keys_MarshalPrivateKey := keys_MarshalPrivateKey X;
     keys_MarshalPublicKey := keys_MarshalPublicKey X;
     ssh_NewPublicKey := ssh_NewPublicKey X;
     ssh_MarshalAuthorizedKey := ssh_MarshalAuthorizedKey X;
     utils_ParseAddr := utils_ParseAddr X;
     join_Register := join_Register X;
     boundkeypair_LoadClientState := boundkeypair_LoadClientState X;
     boundkeypair_NewEmptyClientState := boundkeypair_NewEmptyClientState X;
     ClientState_ToJoinParams := ClientState_ToJoinParams X;
     ClientState_UpdateFromRegisterResult :=
       ClientState_UpdateFromRegisterResult X;
     ClientState_Store := ClientState_Store X |}.

Definition with_LoadClientState (X : External Env)
    (f : destination_Destination -> Env ->
         (boundkeypair_ClientState + error) * Env) : External Env :=
  {| time_Now := time_Now X;
     identity_LoadIdentity := identity_LoadIdentity X;
     identity_SaveIdentity := identity_SaveIdentity X;
     identity_VerifyWrite := identity_VerifyWrite X;
     identity_ReadIdentityFromStore := identity_ReadIdentityFromStore X;
     Facade_Expiry := Facade_Expiry X;
     Connection_Validate := Connection_Validate X;
     Onboarding_HasToken := Onboarding_HasToken X;
     Onboarding_Token := Onboarding_Token X;
     sha256_hex := sha256_hex X;
     Builder_Build := Builder_Build X;
     Client_Close := Client_Close X;
     Client_GenerateUserCerts := Client_GenerateUserCerts X;
     cryptosuites_GenerateKey := cryptosuites_GenerateKey X;
     Signer_Public := Signer_Public X;
     keys_MarshalPrivateKey := keys_MarshalPrivateKey X;
     keys_MarshalPublicKey := keys_MarshalPublicKey X;
     ssh_NewPublicKey := ssh_NewPublicKey X;
     ssh_MarshalAuthorizedKey := ssh_MarshalAuthorizedKey X;
     utils_ParseAddr := utils_ParseAddr X;
     join_Register := join_Register X;
     boundkeypair_LoadClientState := f;
     boundkeypair_NewEmptyClientState := boundkeypair_NewEmptyClientState X;
     ClientState_ToJoinParams := ClientState_ToJoinParams X;
     ClientState_UpdateFromRegisterResult :=
       ClientState_UpdateFromRegisterResult X;
     ClientState_Store := ClientState_Store X |}.

Definition err_token_file : error :=
  TraceError OtherKind "reading token file".

(** The token sits in a file that cannot be read. *)
Definition world_token_unreadable : External Env :=
  with_Token world (fun _ e => (inr err_token_file, e)).

(** A bound keypair state is already there. *)
Definition world_keypair : External Env :=
  with_LoadClientState world (fun _ e => (inl [Byte.x07], e)).

Definition cfgKeypair : Config := test_cfg "tok-A"%string JoinMethodBoundKeypair.

Definition azure_onboarding : onboarding_Config :=
  {| TokenValue := "tok-A"; CAPath := "/etc/ca.pem"; CAPins := ["sha256:ab"%string];
     JoinMethod := JoinMethodAzure; Azure_ClientID := "azure-client";
     Terraform_AudienceTag := "tfc-tag"; Gitlab_TokenEnvVarName := "CI_TOKEN";
     BoundKeypair_RegistrationSecret := "" |}.

Definition cfgAuthAddr : Config :=
  {| Connection := {| Address := "auth.example.com:3025";
                      AddressKind := AddressKindAuth;
                      Insecure := false |};
     Onboarding := azure_onboarding;
     Destination := "memory"%string;
     TTL := 60;
     RenewalInterval := 20;
     FIPS := true |}.

(** The identity a join makes out of the [n]-th generated key, with the
    token "tok-A" and a method other than token. *)
Definition joined (n : nat) : Identity :=
  {| PrivateKeyBytes := key_of n;
     PublicKeyBytes := key_of n;
     TokenHashBytes := list_byte_of_string "tok-A";
     X509Cert := test_cert;
     TLSIdentity := {| Renewable := false |} |}.

(** The wait of [Run] between two attempts: the timer always fires,
    and the auth server is reachable once two clients have been built. *)
Definition auth_comes_back (e : Env) : bool * Env :=
  (true,
   {| clock := clock e; stored := stored e; writable := writable e;
      save_ok := save_ok e; auth_up := (2 <=? clients_made e)%nat;
      keys_made := keys_made e; clients_made := clients_made e |}).

(** A service that fell back onto [id] at start-up: facade and client
    are there, the gate was made and is still shut. *)
Definition waiting_service (cfg : Config) (id : Identity) : Service :=
  {| s_cfg := cfg; s_client := Some 7%nat;
     s_facade := Some (identity_NewFacade false false id);
     s_initialized := Some 0%nat; s_initializedOnce := false |}.

Definition waiting (e : Env) : St Env :=
  {| env := e; chans := [false]; trace := [] |}.

End Variations.

(** * The vocabulary of the statements *)

(** ** What a computation appends to the trace

    [emits P Q m]: whatever [m] does, it only appends to the trace, every
    event it appends satisfies [P], and a value it returns satisfies [Q]. *)

Class Traced (S : Type) := trace_of : S -> list Event.

#[export] Instance Traced_St {Env} : Traced (St Env) := fun st => trace st.
#[export] Instance Traced_Meth {Env} : Traced (Service * St Env) :=
  fun p => trace (snd p).

Definition emits {S} `{Traced S} {A} (P : Event -> Prop) (Q : A -> Prop)
    (m : M S A) : Prop :=
  forall st r st',
    m st = (r, st') ->
    (exists new, trace_of st' = trace_of st ++ new /\ Forall P new) /\
    (forall a, r = Ok a -> Q a).

Definition any {A} : A -> Prop := fun _ => True.

(** The state after one more call: the world it left, one more event. *)
Definition after {Env} (st : St Env) (e : Env) (ev : Event) : St Env :=
  {| env := e; chans := chans st; trace := trace st ++ [ev] |}.

(** ** The events of each function *)

(** What a sound registration request of [botIdentityFromToken] looks
    like, for the configuration [cfg] and the optional client [ac]. *)
Definition registerParamsOf (cfg : Config) (ac : option Client)
    (p : join_RegisterParams) : Prop :=
  AuthClient p = ac /\
  RP_JoinMethod p = JoinMethod (Onboarding cfg) /\
  (JoinMethod (Onboarding cfg) = JoinMethodEnv0 ->
   Env0AudienceTag p = "something"%string) /\
  (JoinMethod (Onboarding cfg) = JoinMethodTerraformCloud ->
   TerraformCloudAudienceTag p = Terraform_AudienceTag (Onboarding cfg)).

(** The events of a join: reading the token and the clock, the bound
    keypair state, and the registration itself. *)
Definition join_event (okp : join_RegisterParams -> Prop) (ev : Event) : Prop :=
  match ev with
  | EvToken _ | EvNow _ | EvLoadClientState _ _ | EvStoreClientState _ _ => True
  | EvRegister p _ => okp p
  | _ => False
  end.

(** The events of a renewal through the auth server with the client [c]. *)
Definition auth_event (c : Client) (ev : Event) : Prop :=
  match ev with
  | EvNow _ => True
  | EvGenerateKey (CurrentSuiteFromAuthPreference c') HostIdentity _ => c' = c
  | EvGenerateUserCerts c' _ _ => c' = c
  | _ => False
  end.

(** The events of loading the stored identity. *)
Definition load_event (ev : Event) : Prop :=
  match ev with
  | EvLoadIdentity _ _ | EvToken _ | EvNow _ => True
  | _ => False
  end.

(** The events of [renewIdentity]: building a client around the old
    identity, closing it, and a renewal or a join in between.  Nothing is
    saved and no facade of the service is touched. *)
Definition renewal_event (cfg : Config) (old : Identity) (ev : Event) : Prop :=
  match ev with
  | EvBuild f _ =>
      f = identity_NewFacade (FIPS cfg) (Insecure (Connection cfg)) old
  | EvClose _ | EvNow _ | EvToken _
  | EvLoadClientState _ _ | EvStoreClientState _ _
  | EvRegister _ _ | EvGenerateKey _ _ _ | EvGenerateUserCerts _ _ _ => True
  | _ => False
  end.

(** The events after which no stored identity has served to authenticate:
    no renewal call was made, and every registration went without an auth
    client. *)
Definition unauthenticated_event (ev : Event) : Prop :=
  match ev with
  | EvRegister p _ => AuthClient p = None
  | EvGenerateUserCerts _ _ _ | EvGenerateKey _ _ _ => False
  | _ => True
  end.

(** The events of the last part of [Initialize], for the identity [id]
    that is being published to the destination [d]. *)
Definition publish_event (id : Identity) (ev : Event) : Prop :=
  match ev with
  | EvSaveIdentity id' _ _ => id' = id
  | EvBuild f _ | EvAssignFacade f => Facade_Get f = id
  | EvMakeChan _ | EvCloseChan _ | EvReport _ => True
  | _ => False
  end.

(** The events of the fall-back of [Initialize] onto the identity [old]. *)
Definition fallback_event (old : Identity) (ev : Event) : Prop :=
  match ev with
  | EvBuild f _ | EvAssignFacade f => Facade_Get f = old
  | _ => False
  end.

(** ** Persist before publish *)

(** The identity an event makes durable: one saved without error, or one
    just read from the store. *)
Definition persists (ev : Event) : option Identity :=
  match ev with
  | EvSaveIdentity id _ None => Some id
  | EvLoadIdentity _ (inl id) => Some id
  | _ => None
  end.

(** The identity an event publishes through the facade of the service. *)
Definition publishes (ev : Event) : option Identity :=
  match ev with
  | EvAssignFacade f => Some (Facade_Get f)
  | EvFacadeSet id => Some id
  | _ => None
  end.

Definition learn (known : list Identity) (ev : Event) : list Identity :=
  match persists ev with
  | Some id => id :: known
  | None => known
  end.

(** Along [tr], every identity is published only after it was made
    durable, given the identities [known] to be durable at the start. *)
Fixpoint published_are_persisted (known : list Identity) (tr : list Event)
    : Prop :=
  match tr with
  | [] => True
  | ev :: tr' =>
      match publishes ev with
      | Some id => In id known
      | None => True
      end /\ published_are_persisted (learn known ev) tr'
  end.

(** ** The readiness gate *)

(** The three operations on the gate, in whatever order the goroutines
    happen to take the mutex, and what each returns. *)
Inductive GateOp := OpReady | OpIsReady | OpUnblockWaiters.

Inductive GateObs :=
| ObsChan (c : nat)
| ObsBool (b : bool)
| ObsDone.

Definition isUnblock (op : GateOp) : bool :=
  match op with OpUnblockWaiters => true | _ => false end.

(** How often a channel was closed along a trace. *)
Fixpoint closes (tr : list Event) : nat :=
  match tr with
  | [] => 0
  | EvCloseChan _ :: tr' => S (closes tr')
  | _ :: tr' => closes tr'
  end.

(** The gate as the specification describes it: one channel [ch], not
    ready until the first trigger, ready from then on. *)
Fixpoint gate_spec (ch : nat) (ready : bool) (ops : list GateOp)
    : list GateObs :=
  match ops with
  | [] => []
  | OpReady :: ops' => ObsChan ch :: gate_spec ch ready ops'
  | OpIsReady :: ops' => ObsBool ready :: gate_spec ch ready ops'
  | OpUnblockWaiters :: ops' => ObsDone :: gate_spec ch true ops'
  end.

Section GateModel.

Context {Env : Type}.

Definition gate_step (op : GateOp) : Meth (Env := Env) GateObs :=
  match op with
  | OpReady => c <- Ready ;; ret (ObsChan c)
  | OpIsReady => b <- IsReady ;; ret (ObsBool b)
  | OpUnblockWaiters => unblockWaiters ;;; ret ObsDone
  end.

Fixpoint gate_run (ops : list GateOp) : Meth (Env := Env) (list GateObs) :=
  match ops with
  | [] => ret []
  | op :: ops' =>
      o <- gate_step op ;;
      os <- gate_run ops' ;;
      ret (o :: os)
  end.

(** The gate is either untouched, or its channel [ch] is allocated and is
    closed exactly when the [Once] has fired. *)
Definition gate_inv (ch : nat) (ready : bool) (s : Service) (st : St Env)
    : Prop :=
  (s_initialized s = None /\ s_initializedOnce s = false /\
   ready = false /\ ch = List.length (chans st)) \/
  (s_initialized s = Some ch /\ s_initializedOnce s = ready /\
   nth_error (chans st) ch = Some ready).

End GateModel.

(** ** The two phases of a join

    [botIdentityFromToken] runs in two phases: everything up to and
    including the call of [join.Register], and the making of the identity
    out of what [Register] returned.  The two definitions below cut the
    function at that point; [botIdentityFromToken_phases] shows that the
    function is the first followed by the second. *)

(** The events that can come before a registration. *)
Definition early_event (ev : Event) : Prop :=
  match ev with
  | EvToken _ | EvNow _ | EvLoadClientState _ _ => True
  | _ => False
  end.

Definition isLoadClientState (ev : Event) : Prop :=
  match ev with
  | EvLoadClientState _ _ => True
  | _ => False
  end.

(** How many registrations were sent along a trace. *)
Fixpoint registrations (tr : list Event) : nat :=
  match tr with
  | [] => 0
  | EvRegister _ _ :: tr' => S (registrations tr')
  | _ :: tr' => registrations tr'
  end.

Definition isStoreClientState (ev : Event) : Prop :=
  match ev with
  | EvStoreClientState _ _ => True
  | _ => False
  end.

Section Phases.

Context {Env : Type}.
Variable X : External Env.

Definition register_phase (cfg : Config) (authClient : option Client)
    : M (St Env)
        (option boundkeypair_ClientState * join_RegisterParams
         * join_RegisterResult) :=
  token <- wrapping "" (call_err (Onboarding_Token X (Onboarding cfg)) EvToken) ;;
  now <- call (time_Now X) EvNow ;;
  let expires := time_Add now (TTL cfg) in
  let params := defaultParams cfg token expires in
  let params :=
    match authClient with
    | Some c => set_AuthClient params (Some c)
    | None => params
    end in
  params <- withAddress X cfg params ;;
  bp <- withJoinMethod X cfg params ;;
  let (boundKeypairState, params) := bp in
  result <- wrapping "" (call_err (join_Register X params) (EvRegister params)) ;;
  ret (boundKeypairState, params, result).

Definition identity_phase
    (x : option boundkeypair_ClientState * join_RegisterParams
         * join_RegisterResult) : M (St Env) Identity :=
  let '(boundKeypairState, params, result) := x in
  match boundKeypairState with
  | Some bks =>
      bks' <- wrapping ""
        (lift (ClientState_UpdateFromRegisterResult X bks result)) ;;
      wrapping "" (call_unit (ClientState_Store X bks') (EvStoreClientState bks'))
  | None => ret tt
  end ;;;
  privateKeyPEM <- wrapping ""
    (lift (keys_MarshalPrivateKey X (RR_PrivateKey result))) ;;
  sshPub <- wrapping ""
    (lift (ssh_NewPublicKey X (Signer_Public X (RR_PrivateKey result)))) ;;
  let tokenHash := sha256_hex X (Token params) in
  wrapping ""
    (lift (identity_ReadIdentityFromStore X
             {| P_PrivateKeyBytes := privateKeyPEM;
                P_PublicKeyBytes := ssh_MarshalAuthorizedKey X sshPub;
                P_TokenHashBytes := tokenHash |} (RR_Certs result))).

(** The fields of a registration request that come straight from the
    configuration, the token read and the clock reading. *)
Definition requestFor (cfg : Config) (ac : option Client) (tok : string)
    (now : Time) (p : join_RegisterParams) : Prop :=
  Token p = tok /\
  ID_Role p = RoleBot /\
  RP_JoinMethod p = JoinMethod (Onboarding cfg) /\
  RP_Expires p = Some (time_Add now (TTL cfg)) /\
  RP_Insecure p = Insecure (Connection cfg) /\
  RP_CAPins p = CAPins (Onboarding cfg) /\
  RP_CAPath p = CAPath (Onboarding cfg) /\
  RP_FIPS p = FIPS cfg /\
  RP_CipherSuites p
    = (if FIPS cfg then FIPSCipherSuites else DefaultCipherSuites) /\
  AuthClient p = ac.

(** Where a request is sent: to the auth servers or through the proxy,
    never both, and nowhere for any other kind of address. *)
Definition addressedPer (cfg : Config) (p : join_RegisterParams) : Prop :=
  match AddressKind (Connection cfg) with
  | AddressKindAuth =>
      exists a, utils_ParseAddr X (Address (Connection cfg)) = inl a /\
                AuthServers p = [a] /\ ProxyServer p = None
  | AddressKindProxy =>
      exists a, utils_ParseAddr X (Address (Connection cfg)) = inl a /\
                ProxyServer p = Some a /\ AuthServers p = []
  | AddressKindUnspecified => False
  end.

(** The parameters of the join methods: those of the configured method are
    filled from the configuration, all others are left zero. *)
Definition methodParamsPer (cfg : Config) (p : join_RegisterParams) : Prop :=
  let m := JoinMethod (Onboarding cfg) in
  AzureParams_ClientID p
    = match m with
      | JoinMethodAzure => Azure_ClientID (Onboarding cfg)
      | _ => EmptyString
      end /\
  TerraformCloudAudienceTag p
    = match m with
      | JoinMethodTerraformCloud => Terraform_AudienceTag (Onboarding cfg)
      | _ => EmptyString
      end /\
  Env0AudienceTag p
    = match m with
      | JoinMethodEnv0 => "something"%string
      | _ => EmptyString
      end /\
  GitlabParams_EnvVarName p
    = match m with
      | JoinMethodGitLab => Gitlab_TokenEnvVarName (Onboarding cfg)
      | _ => EmptyString
      end /\
  (BoundKeypairParams p <> None <-> m = JoinMethodBoundKeypair).

(** What the second phase leaves behind, given the bound keypair state
    [bks] (if any), the request [p] and the answer [rr] of the auth server:
    the events [stores] and the outcome [r]. *)
Definition identity_made (bks : option boundkeypair_ClientState)
    (p : join_RegisterParams) (rr : join_RegisterResult)
    (stores : list Event) (r : result Identity) : Prop :=
  match bks with
  | None => stores = []
  | Some b =>
      match ClientState_UpdateFromRegisterResult X b rr with
      | inr e => stores = [] /\ r = Err (trace_Wrap e "")
      | inl b' =>
          exists sres,
            stores = [EvStoreClientState b' sres] /\
            (forall e, sres = Some e -> r = Err (trace_Wrap e ""))
      end
  end /\
  r <> Panic /\
  (forall id,
     r = Ok id ->
     (exists pem sshk,
        keys_MarshalPrivateKey X (RR_PrivateKey rr) = inl pem /\
        ssh_NewPublicKey X (Signer_Public X (RR_PrivateKey rr)) = inl sshk /\
        identity_ReadIdentityFromStore X
          {| P_PrivateKeyBytes := pem;
             P_PublicKeyBytes := ssh_MarshalAuthorizedKey X sshk;
             P_TokenHashBytes := sha256_hex X (Token p) |} (RR_Certs rr)
        = inl id) /\
     match bks with
     | Some _ => exists b', stores = [EvStoreClientState b' None]
     | None => True
     end).

(** The two shapes a run of [botIdentityFromToken] can have: it fails
    before any registration, having only read the token, the clock or the
    bound keypair state; or it sends exactly one registration, after
    which at most the bound keypair state is stored. *)
Definition join_shape (cfg : Config) (ac : option Client) (e0 : Env)
    (new : list Event) (r : result Identity) : Prop :=
  (Forall early_event new /\
   (JoinMethod (Onboarding cfg) <> JoinMethodBoundKeypair ->
    Forall (fun ev => ~ isLoadClientState ev) new) /\
   exists e, r = Err e) \/
  (exists tok e1 now lcs p res stores bks,
     Onboarding_Token X (Onboarding cfg) e0 = (inl tok, e1) /\
     new = EvToken (inl tok) :: EvNow now :: lcs ++ EvRegister p res :: stores /\
     Forall isLoadClientState lcs /\
     (JoinMethod (Onboarding cfg) <> JoinMethodBoundKeypair -> lcs = []) /\
     (bks <> None <-> JoinMethod (Onboarding cfg) = JoinMethodBoundKeypair) /\
     requestFor cfg ac tok now p /\
     addressedPer cfg p /\
     methodParamsPer cfg p /\
     match res with
     | inr e => stores = [] /\ r = Err (trace_Wrap e "")
     | inl rr => identity_made bks p rr stores r
     end).

End Phases.


(** Neither the building nor the closing of a client. *)
Definition between_build_and_close (ev : Event) : Prop :=
  match ev with
  | EvBuild _ _ | EvClose _ => False
  | _ => True
  end.

(** No call of the renewal through the auth server. *)
Definition no_renewal_call (ev : Event) : Prop :=
  match ev with
  | EvGenerateKey _ _ _ | EvGenerateUserCerts _ _ _ => False
  | _ => True
  end.

(** No call of a join. *)
Definition no_join_call (ev : Event) : Prop :=
  match ev with
  | EvToken _ | EvRegister _ _
  | EvLoadClientState _ _ | EvStoreClientState _ _ => False
  | _ => True
  end.

(** ** Computations that leave the channels alone

    [tame m]: [m] never panics and never allocates or closes a channel. *)
Definition tame {Env A} (m : M (St Env) A) : Prop :=
  forall st r st', m st = (r, st') -> r <> Panic /\ chans st' = chans st.

(** The events by which the service prepares an identity: everything
    but saving, publishing through the facade, the readiness gate and
    the status report. *)
Definition preparing_event (ev : Event) : Prop :=
  match ev with
  | EvFacadeSet _ | EvAssignFacade _ | EvSaveIdentity _ _ _
  | EvMakeChan _ | EvCloseChan _ | EvReport _ => False
  | _ => True
  end.

(** The events of an [Initialize] that came to nothing: no facade was
    assigned or updated, no channel made or closed, nothing reported. *)
Definition unpublished_event (ev : Event) : Prop :=
  match ev with
  | EvFacadeSet _ | EvAssignFacade _
  | EvMakeChan _ | EvCloseChan _ | EvReport _ => False
  | _ => True
  end.

(** The events of the readiness gate. *)
Definition gate_event (ev : Event) : Prop :=
  match ev with
  | EvMakeChan _ | EvCloseChan _ => True
  | _ => False
  end.

(** How [Initialize] can end on the service [s], having appended [new]
    to the trace.  [ch] and [ready] describe the gate beforehand. *)
Section InitializeOutcomes.

Context {Env : Type}.

(** It failed: the service is as it was; nothing was published through
    the facade, the gate is untouched and no health was reported. *)
Definition init_failed (s : Service) (st : St Env) (new : list Event)
    (r : result unit) (s' : Service) (st' : St Env) : Prop :=
  (exists e, r = Err e) /\ s' = s /\ chans st' = chans st /\
  Forall unpublished_event new.

(** It carries on with the identity [old] it had loaded: facade and
    client are set, nothing was saved, the gate is untouched. *)
Definition init_fell_back (s : Service) (st : St Env) (new : list Event)
    (r : result unit) (s' : Service) (st' : St Env) : Prop :=
  exists old c pre,
    let f := identity_NewFacade (FIPS (s_cfg s))
               (Insecure (Connection (s_cfg s))) old in
    r = Ok tt /\
    new = pre ++ [EvBuild f (inl c); EvAssignFacade f] /\
    Forall preparing_event pre /\
    In (EvLoadIdentity (Destination (s_cfg s)) (inl old)) pre /\
    s' = set_facade_client f c s /\ chans st' = chans st.

(** It published the fresh identity [id]: saved, then facade and client
    set, then the gate opened, then health reported. *)
Definition init_published (ch : nat) (ready : bool)
    (s : Service) (st : St Env) (new : list Event)
    (r : result unit) (s' : Service) (st' : St Env) : Prop :=
  exists id c pre g,
    let f := identity_NewFacade (FIPS (s_cfg s))
               (Insecure (Connection (s_cfg s))) id in
    r = Ok tt /\
    new = pre ++ [EvSaveIdentity id (Destination (s_cfg s)) None;
                  EvBuild f (inl c); EvAssignFacade f]
              ++ g ++ [EvReport Healthy] /\
    Forall preparing_event pre /\
    Forall gate_event g /\
    closes g = (if ready then 0 else 1)%nat /\
    s_cfg s' = s_cfg s /\ s_facade s' = Some f /\ s_client s' = Some c /\
    s_initialized s' = Some ch /\ s_initializedOnce s' = true /\
    nth_error (chans st') ch = Some true.

End InitializeOutcomes.

(** ** The start of [Run]

    [Run] begins by waiting for a first successful renewal when the
    service is not ready, and only then enters the renewal loop.  The
    loop [for { ... }] is unrolled [fuel] times. *)

(** How the first part of [Run] is left. *)
Inductive RunStartup :=
| Returned        (* [return nil]: cancelled while waiting *)
| RenewalLoop     (* on to [internal.RunOnInterval] *)
| StillRetrying.  (* the loop goes on beyond the fuel *)

Section RunStartup.

Context {Env : Type}.
Variable X : External Env.

(** [retryutils.NewRetryV2] on the constant configuration of [Run]: the
    error it may return. *)
Variable retryutils_NewRetryV2 : option error.

(** [select { case <-retry.After(): case <-ctx.Done(): return nil }]:
    [true] when the timer fires first.  The world decides, and moves;
    [retry.Inc()] only lengthens the delay and is not kept. *)
Variable retry_After : Env -> bool * Env.

Definition wait_retry : M (St Env) bool :=
  fun st =>
    let (fired, e) := retry_After (env st) in
    (Ok fired, {| env := e; chans := chans st; trace := trace st |}).

Fixpoint Run_retry (fuel : nat) (storageDestination : destination_Destination)
    : Meth RunStartup :=
  match fuel with
  | O => ret StillRetrying
  | S fuel' =>
      fired <- run wait_retry ;;
      if fired : bool then
        r <- catch (renew X storageDestination) ;;
        match r with
        | inl _ => unblockWaiters ;;; ret RenewalLoop
        | inr _ => Run_retry fuel' storageDestination
        end
      else ret Returned
  end.

Definition Run_startup (fuel : nat) : Meth RunStartup :=
  s <- self ;;
  let storageDestination := Destination (s_cfg s) in
  ready <- IsReady ;;
  if ready : bool then ret RenewalLoop
  else
    match retryutils_NewRetryV2 with
    | Some err => fail (trace_Wrap err "creating retry")
    | None => Run_retry fuel storageDestination
    end.

End RunStartup.

(** The events of renewal cycles that failed: no identity was saved
    without error, and the gate was not opened. *)
Definition retrying_event (ev : Event) : Prop :=
  match ev with
  | EvSaveIdentity _ _ None | EvAssignFacade _
  | EvCloseChan _ | EvReport _ => False
  | _ => True
  end.

(** ** [Close] *)

Section CloseService.

Context {Env : Type}.
Variable X : External Env.

(** The error [c.Close()] returns; [Client_Close] is what it does to the
    world. *)
Variable Client_Close_error : Client -> Env -> option error.

Definition Close : Meth unit :=
  c <- GetClient ;;
  match c with
  | None => ret tt
  | Some c =>
      wrapping ""
        (run (call_unit
                (fun e => (Client_Close_error c e, Client_Close X c e))
                (fun _ => EvClose c)))
  end.

End CloseService.

(** * Encrypting session recordings

    The package [recordingencryption] of the same file: the wrapper that
    turns the keys of the session recording configuration into age
    recipients, and the writer that sets up the age encrypter on its
    first write. *)

Module RecordingEncryption.

(** An [io.WriteCloser] is a handle on a stream owned by the world. *)
Definition WriteCloser := nat.

(** An [age.Recipient], as parsed from a public key. *)
Definition Recipient := bytes.

(** [types.SessionRecordingConfig], for what the wrapper reads of it:
    [GetEncrypted] and the [PublicKey] of each of [GetEncryptionKeys]. *)
Record SessionRecordingConfig := {
  GetEncrypted : bool;
  GetEncryptionKeys : list bytes
}.

Definition ErrEncryptionDisabled : error :=
  trace_BadParameter "session_recording_config does not enable encryption".

Record ageWriter := {
  aw_w : WriteCloser;
  aw_recipients : list Recipient;
  aw_initialized : bool
}.

(** The calls on streams, oldest first. *)
Inductive IOEvent :=
| EvGetConfig (r : SessionRecordingConfig + error)
| EvEncrypt (w : WriteCloser) (recipients : list Recipient)
    (r : WriteCloser + error)
| EvWrite (w : WriteCloser) (data : bytes) (n : Z) (err : option error)
| EvCloseWriter (w : WriteCloser) (err : option error).

Section Code.

Context {Env : Type}.

Variable ParseRecordingRecipient : bytes -> Recipient + error.
Variable GetSessionRecordingConfig :
  Env -> (SessionRecordingConfig + error) * Env.
Variable age_Encrypt :
  WriteCloser -> list Recipient -> Env -> (WriteCloser + error) * Env.
Variable WriteCloser_Write :
  WriteCloser -> bytes -> Env -> (Z * option error) * Env.
Variable WriteCloser_Close : WriteCloser -> Env -> option error * Env.

(** The loop of [EncryptionWrapper.WithEncryption] over the keys, with
    the recipients gathered so far. *)
Fixpoint parseRecipients (keys : list bytes) (recipients : list Recipient)
    : list Recipient + error :=
  match keys with
  | [] => inl recipients
  | key :: keys' =>
      match ParseRecordingRecipient key with
      | inr err => inr (trace_Wrap err "")
      | inl recipient => parseRecipients keys' (recipients ++ [recipient])
      end
  end.

Definition EncryptionWrapper_WithEncryption
    (config : SessionRecordingConfig) (writer : WriteCloser)
    : ageWriter + error :=
  if negb (GetEncrypted config)
  then inr (trace_Wrap ErrEncryptionDisabled "")
  else
    match parseRecipients (GetEncryptionKeys config) [] with
    | inr err => inr err
    | inl recipients =>
        inl {| aw_w := writer;
               aw_recipients := recipients;
               aw_initialized := false |}
    end.

(** The world and the calls made on it. *)
Record IOSt := {
  io_env : Env;
  io_trace : list IOEvent
}.

Definition io_after (st : IOSt) (e : Env) (ev : IOEvent) : IOSt :=
  {| io_env := e; io_trace := io_trace st ++ [ev] |}.

Definition EncryptedIO_WithEncryption (writer : WriteCloser) (st : IOSt)
    : (ageWriter + error) * IOSt :=
  let (src, e) := GetSessionRecordingConfig (io_env st) in
  let st' := io_after st e (EvGetConfig src) in
  match src with
  | inr err => (inr (trace_Wrap err ""), st')
  | inl src =>
      match EncryptionWrapper_WithEncryption src writer with
      | inl w => (inl w, st')
      | inr err => (inr (trace_Wrap err ""), st')
      end
  end.

(** [ageWriter.Write]: what it returns, the writer as it leaves it,
    and the world. *)
Definition ageWriter_Write (a : ageWriter) (data : bytes) (st : IOSt)
    : (Z * option error) * ageWriter * IOSt :=
  let write (a : ageWriter) (st : IOSt) :=
    let (r, e) := WriteCloser_Write (aw_w a) data (io_env st) in
    (r, a, io_after st e (EvWrite (aw_w a) data (fst r) (snd r))) in
  if negb (aw_initialized a) then
    let (r, e) := age_Encrypt (aw_w a) (aw_recipients a) (io_env st) in
    let st' := io_after st e (EvEncrypt (aw_w a) (aw_recipients a) r) in
    match r with
    | inr err => ((0, Some (trace_Wrap err "")), a, st')
    | inl w =>
        write {| aw_w := w;
                 aw_recipients := aw_recipients a;
                 aw_initialized := true |} st'
    end
  else write a st.

Definition ageWriter_Close (a : ageWriter) (st : IOSt)
    : option error * ageWriter * IOSt :=
  let (r, e) := WriteCloser_Close (aw_w a) (io_env st) in
  (r, a, io_after st e (EvCloseWriter (aw_w a) r)).

(** A user of the writer: writes and closes, in any order. *)
Inductive WriterOp :=
| OpWrite (data : bytes)
| OpClose.

Definition writer_step (op : WriterOp) (p : ageWriter * IOSt)
    : ageWriter * IOSt :=
  match op with
  | OpWrite data =>
      let '(_, a, st) := ageWriter_Write (fst p) data (snd p) in (a, st)
  | OpClose =>
      let '(_, a, st) := ageWriter_Close (fst p) (snd p) in (a, st)
  end.

Definition writer_run (ops : list WriterOp) (p : ageWriter * IOSt)
    : ageWriter * IOSt :=
  fold_left (fun p op => writer_step op p) ops p.

End Code.

(** What the calls of a lazily set up writer look like, for the stream
    [raw] and the recipients [rs] it was made with.  [cur] is the
    encrypting stream once there is one.  Before that, only attempts to
    set up encryption on [raw] for [rs] and closes of [raw]; afterwards,
    writes and closes on the encrypting stream and nothing else. *)
Fixpoint lazily_encrypted (raw : WriteCloser) (rs : list Recipient)
    (cur : option WriteCloser) (tr : list IOEvent) : Prop :=
  match tr with
  | [] => True
  | ev :: tr' =>
      match cur, ev with
      | None, EvEncrypt w rs' (inl w') =>
          w = raw /\ rs' = rs /\ lazily_encrypted raw rs (Some w') tr'
      | None, EvEncrypt w rs' (inr _) =>
          w = raw /\ rs' = rs /\ lazily_encrypted raw rs None tr'
      | None, EvCloseWriter w _ =>
          w = raw /\ lazily_encrypted raw rs None tr'
      | Some c, EvWrite w _ _ _ => w = c /\ lazily_encrypted raw rs cur tr'
      | Some c, EvCloseWriter w _ =>
          w = c /\ lazily_encrypted raw rs cur tr'
      | _, _ => False
      end
  end.

(** The writer and the encrypting stream agree. *)
Definition writer_at (raw : WriteCloser) (rs : list Recipient)
    (cur : option WriteCloser) (a : ageWriter) : Prop :=
  aw_recipients a = rs /\
  match cur with
  | None => aw_initialized a = false /\ aw_w a = raw
  | Some c => aw_initialized a = true /\ aw_w a = c
  end.

(** How often setting up encryption was tried along a trace. *)
Fixpoint encrypt_calls (tr : list IOEvent) : nat :=
  match tr with
  | [] => 0
  | EvEncrypt _ _ _ :: tr' => S (encrypt_calls tr')
  | _ :: tr' => encrypt_calls tr'
  end.

Fixpoint write_ops (ops : list WriterOp) : nat :=
  match ops with
  | [] => 0
  | OpWrite _ :: ops' => S (write_ops ops')
  | OpClose :: ops' => write_ops ops'
  end.

End RecordingEncryption.

(** A small world of streams: the world counts the streams it has made,
    an encrypting stream is a fresh one, and a key parses unless it is
    empty. *)
Module RecordingWorld.

Import RecordingEncryption.

Definition err_bad_key : error := TraceError OtherKind "malformed recipient".

Definition parse (key : bytes) : Recipient + error :=
  match key with
  | [] => inr err_bad_key
  | _ => inl key
  end.

Definition encrypted (keys : list bytes) : SessionRecordingConfig :=
  {| GetEncrypted := true; GetEncryptionKeys := keys |}.

Definition get_config (keys : list bytes) (e : nat)
    : (SessionRecordingConfig + error) * nat :=
  (inl (encrypted keys), e).

Definition encrypt (w : WriteCloser) (rs : list Recipient) (e : nat)
    : (WriteCloser + error) * nat :=
  (inl (S e), S e).

Definition write (w : WriteCloser) (data : bytes) (e : nat)
    : (Z * option error) * nat :=
  ((Z.of_nat (List.length data), None), e).

Definition close (w : WriteCloser) (e : nat) : option error * nat := (None, e).

Definition begin : IOSt (Env := nat) := {| io_env := 0%nat; io_trace := [] |}.

Definition keyA : bytes := [Byte.x0a].
Definition keyB : bytes := [Byte.x0b].

End RecordingWorld.

(** * Lemmas and theorems *)

(** ** The rules of [emits] *)

Section EmitsRules.

Context {S : Type} `{Traced S}.

Lemma emits_ret {A} (P : Event -> Prop) (Q : A -> Prop) (a : A) :
  Q a -> emits P Q (ret a).
Proof.
  intros HQ st r st' E. unfold ret in E. inversion E; subst. split.
  - exists []. rewrite app_nil_r. auto.
  - intros a' Ha. inversion Ha; subst. exact HQ.
Qed.

Lemma emits_fail {A} (P : Event -> Prop) (Q : A -> Prop) (e : error) :
  emits P Q (fail e).
Proof.
  intros st r st' E. unfold fail in E. inversion E; subst. split.
  - exists []. rewrite app_nil_r. auto.
  - intros a Ha. discriminate.
Qed.

Lemma emits_panic {A} (P : Event -> Prop) (Q : A -> Prop) :
  emits P Q (@panic S A).
Proof.
  intros st r st' E. unfold panic in E. inversion E; subst. split.
  - exists []. rewrite app_nil_r. auto.
  - intros a Ha. discriminate.
Qed.

Lemma emits_bind {A B} (P : Event -> Prop) (Q : A -> Prop) (R : B -> Prop)
    (m : M S A) (k : A -> M S B) :
  emits P Q m -> (forall a, Q a -> emits P R (k a)) -> emits P R (bind m k).
Proof.
  intros Hm Hk st r st' E. unfold bind in E.
  destruct (m st) as [r1 st1] eqn:E1.
  destruct (Hm _ _ _ E1) as [[new1 [T1 F1]] Q1].
  destruct r1 as [a | e | ].
  - destruct (Hk a (Q1 a eq_refl) _ _ _ E) as [[new2 [T2 F2]] Q2].
    split; [ | exact Q2 ].
    exists (new1 ++ new2). rewrite T2, T1, app_assoc. split; [ reflexivity | ].
    apply Forall_app; auto.
  - inversion E; subst. split; [ eauto | intros a Ha; discriminate ].
  - inversion E; subst. split; [ eauto | intros a Ha; discriminate ].
Qed.

Lemma emits_weaken {A} (P P' : Event -> Prop) (Q Q' : A -> Prop) (m : M S A) :
  emits P Q m ->
  (forall ev, P ev -> P' ev) -> (forall a, Q a -> Q' a) ->
  emits P' Q' m.
Proof.
  intros Hm HP HQ st r st' E.
  destruct (Hm _ _ _ E) as [[new [T F]] Q1]. split.
  - exists new. split; [ exact T | ].
    eapply Forall_impl; [ exact HP | exact F ].
  - intros a Ha. auto.
Qed.

Lemma emits_wrapping {A} (P : Event -> Prop) (Q : A -> Prop) msg (m : M S A) :
  emits P Q m -> emits P Q (wrapping msg m).
Proof.
  intros Hm st r st' E. unfold wrapping in E.
  destruct (m st) as [r1 st1] eqn:E1.
  destruct (Hm _ _ _ E1) as [T Q1].
  destruct r1; inversion E; subst; split; auto; intros a' Ha; discriminate.
Qed.

Lemma emits_catch {A} (P : Event -> Prop) (Q : A -> Prop) (m : M S A) :
  emits P Q m ->
  emits P (fun r => match r with inl a => Q a | inr _ => True end) (catch m).
Proof.
  intros Hm st r st' E. unfold catch in E.
  destruct (m st) as [r1 st1] eqn:E1.
  destruct (Hm _ _ _ E1) as [T Q1].
  destruct r1; inversion E; subst; split; auto;
    intros a' Ha; inversion Ha; subst; auto.
Qed.

Lemma emits_deferring {A B} (P : Event -> Prop) (Q : A -> Prop)
    (d : M S B) (m : M S A) :
  emits P any d -> emits P Q m -> emits P Q (deferring d m).
Proof.
  intros Hd Hm st r st' E. unfold deferring in E.
  destruct (m st) as [r1 st1] eqn:E1.
  destruct (d st1) as [r2 st2] eqn:E2. simpl in E. inversion E; subst.
  destruct (Hm _ _ _ E1) as [[new1 [T1 F1]] Q1].
  destruct (Hd _ _ _ E2) as [[new2 [T2 F2]] _].
  split; [ | exact Q1 ].
  exists (new1 ++ new2). rewrite T2, T1, app_assoc. split; [ reflexivity | ].
  apply Forall_app; auto.
Qed.

Lemma emits_lift {A} (P : Event -> Prop) (Q : A -> Prop) (r : A + error) :
  (forall a, r = inl a -> Q a) -> emits P Q (lift r).
Proof.
  intros HQ. destruct r; simpl.
  - apply emits_ret. auto.
  - apply emits_fail.
Qed.

End EmitsRules.

Section EmitsCalls.

Context {Env : Type}.

Lemma emits_emit (P : Event -> Prop) (ev : Event) :
  P ev -> emits P any (@emit Env ev).
Proof.
  intros HP st r st' E. unfold emit in E. inversion E; subst. split.
  - exists [ev]. split; [ reflexivity | auto ].
  - intros; exact I.
Qed.

Lemma emits_call {A} (P : Event -> Prop) (f : Env -> A * Env)
    (ev : A -> Event) :
  (forall a, P (ev a)) -> emits P any (call f ev).
Proof.
  intros HP st r st' E. unfold call in E.
  destruct (f (env st)) as [a e']. inversion E; subst. split.
  - exists [ev a]. split; [ reflexivity | auto ].
  - intros; exact I.
Qed.

Lemma emits_call_err {A} (P : Event -> Prop) (f : Env -> (A + error) * Env)
    (ev : A + error -> Event) :
  (forall r, P (ev r)) -> emits P any (call_err f ev).
Proof.
  intros HP st r st' E. unfold call_err in E.
  destruct (f (env st)) as [a e'].
  split.
  - exists [ev a]. destruct a; inversion E; subst; (split; [ reflexivity | auto ]).
  - intros; exact I.
Qed.

Lemma emits_call_unit (P : Event -> Prop) (f : Env -> option error * Env)
    (ev : option error -> Event) :
  (forall r, P (ev r)) -> emits P any (call_unit f ev).
Proof.
  intros HP st r st' E. unfold call_unit in E.
  destruct (f (env st)) as [a e'].
  split.
  - exists [ev a]. destruct a; inversion E; subst; (split; [ reflexivity | auto ]).
  - intros; exact I.
Qed.

Lemma emits_make_chan (P : Event -> Prop) :
  (forall c, P (EvMakeChan c)) -> emits P any (@make_chan Env).
Proof.
  intros HP st r st' E. unfold make_chan in E. inversion E; subst. split.
  - eexists. split; [ reflexivity | auto ].
  - intros; exact I.
Qed.

Lemma emits_close_chan (P : Event -> Prop) ch :
  (forall c, P (EvCloseChan c)) -> emits P any (@close_chan Env ch).
Proof.
  intros HP st r st' E. unfold close_chan in E. split; [ | intros; exact I ].
  destruct ch as [c | ].
  - destruct (nth_error (chans st) c) as [[ | ] | ]; inversion E; subst.
    + exists []. rewrite app_nil_r. auto.
    + eexists. split; [ reflexivity | auto ].
    + exists []. rewrite app_nil_r. auto.
  - inversion E; subst. exists []. rewrite app_nil_r. auto.
Qed.

Lemma emits_run {A} (P : Event -> Prop) (Q : A -> Prop) (m : M (St Env) A) :
  emits P Q m -> emits P Q (run m).
Proof.
  intros Hm [s st] r [s' st'] E. unfold run in E. simpl in E.
  destruct (m st) as [r1 st1] eqn:E1. inversion E; subst.
  exact (Hm _ _ _ E1).
Qed.

Lemma emits_self (P : Event -> Prop) :
  emits P any (@self Env).
Proof.
  intros st r st' E. unfold self in E. inversion E; subst. split.
  - exists []. rewrite app_nil_r. auto.
  - intros; exact I.
Qed.

Lemma emits_update (P : Event -> Prop) f :
  emits P any (@update Env f).
Proof.
  intros [s st] r st' E. unfold update in E. inversion E; subst. split.
  - exists []. unfold trace_of, Traced_Meth. simpl. rewrite app_nil_r. auto.
  - intros; exact I.
Qed.

End EmitsCalls.

(** ** Stepping through a computation *)

Section Steps.

Context {S : Type}.

Lemma bind_ok {A B} (m : M S A) (k : A -> M S B) st a st' :
  m st = (Ok a, st') -> bind m k st = k a st'.
Proof. intros E. unfold bind. rewrite E. reflexivity. Qed.

Lemma bind_err {A B} (m : M S A) (k : A -> M S B) st e st' :
  m st = (Err e, st') -> bind m k st = (Err e, st').
Proof. intros E. unfold bind. rewrite E. reflexivity. Qed.

Lemma wrapping_ok {A} msg (m : M S A) st a st' :
  m st = (Ok a, st') -> wrapping msg m st = (Ok a, st').
Proof. intros E. unfold wrapping. rewrite E. reflexivity. Qed.

Lemma wrapping_err {A} msg (m : M S A) st e st' :
  m st = (Err e, st') -> wrapping msg m st = (Err (trace_Wrap e msg), st').
Proof. intros E. unfold wrapping. rewrite E. reflexivity. Qed.

Lemma catch_ok {A} (m : M S A) st a st' :
  m st = (Ok a, st') -> catch m st = (Ok (inl a), st').
Proof. intros E. unfold catch. rewrite E. reflexivity. Qed.

Lemma catch_err {A} (m : M S A) st e st' :
  m st = (Err e, st') -> catch m st = (Ok (inr e), st').
Proof. intros E. unfold catch. rewrite E. reflexivity. Qed.

End Steps.

Lemma self_bind {Env B} (k : Service -> Meth B) (s : Service) (st : St Env) :
  bind self k (s, st) = k s (s, st).
Proof. reflexivity. Qed.

Lemma run_eq {Env A} (m : M (St Env) A) s st r st' :
  m st = (r, st') -> run m (s, st) = (r, (s, st')).
Proof. intros E. unfold run. simpl. rewrite E. reflexivity. Qed.

(** ** The validity window *)

Lemma validAt_true (now : Time) (cert : x509_Certificate) :
  validAt now cert = true <-> NotBefore cert <= now <= NotAfter cert.
Proof.
  unfold validAt, time_After, time_Before.
  destruct (NotAfter cert <? now) eqn:E1; destruct (now <? NotBefore cert) eqn:E2;
    try apply Z.ltb_lt in E1; try apply Z.ltb_ge in E1;
    try apply Z.ltb_lt in E2; try apply Z.ltb_ge in E2;
    split; intros; try discriminate; try lia; reflexivity.
Qed.

Lemma validAt_false (now : Time) (cert : x509_Certificate) :
  validAt now cert = false <-> NotAfter cert < now \/ now < NotBefore cert.
Proof.
  destruct (validAt now cert) eqn:E.
  - apply validAt_true in E. split; intros; [ discriminate | lia ].
  - split; intros; [ | reflexivity ].
    destruct (Z.lt_ge_cases (NotAfter cert) now); [ auto | ].
    destruct (Z.lt_ge_cases now (NotBefore cert)); [ auto | ].
    assert (validAt now cert = true) by (apply validAt_true; lia).
    congruence.
Qed.

Section LoadTheorems.

Context {Env : Type}.
Variable X : External Env.

(** C5.  When the store holds an identity that passes the token
    comparison, [loadIdentityFromStore] returns it together with a
    validity flag that is [true] exactly when
    [NotBefore <= now <= NotAfter], both ends included, for the clock
    reading [now]; it is [false] exactly when [now] is strictly after
    [NotAfter] or strictly before [NotBefore]. *)
Theorem loadIdentityFromStore_validity
    (cfg : Config) (store : destination_Destination) (st : St Env)
    (loaded : Identity) (e1 : Env) (st2 : St Env) (now : Time) (e3 : Env) :
  identity_LoadIdentity X store (env st) = (inl loaded, e1) ->
  tokenMismatch X cfg loaded
    {| env := e1; chans := chans st;
       trace := trace st ++ [EvLoadIdentity store (inl loaded)] |}
    = (Ok false, st2) ->
  time_Now X (env st2) = (now, e3) ->
  exists valid st3,
    loadIdentityFromStore X cfg store st = (Ok (Some loaded, valid), st3) /\
    (valid = true <->
       NotBefore (X509Cert loaded) <= now <= NotAfter (X509Cert loaded)) /\
    (valid = false <->
       NotAfter (X509Cert loaded) < now \/ now < NotBefore (X509Cert loaded)).
Proof.
  intros Hload Htok Hnow.
  exists (validAt now (X509Cert loaded)).
  eexists. split; [ | split; [ apply validAt_true | apply validAt_false ] ].
  unfold loadIdentityFromStore.
  erewrite bind_ok.
  2: { apply catch_ok. unfold call_err. rewrite Hload. reflexivity. }
  simpl. erewrite bind_ok by exact Htok. simpl.
  unfold bind, call. rewrite Hnow. reflexivity.
Qed.

End LoadTheorems.

Section FunctionEvents.

Context {Env : Type}.
Variable X : External Env.

Lemma withAddress_emits (P : Event -> Prop) cfg p :
  emits P
    (fun p' => exists a, p' = set_AuthServers p [a] \/ p' = set_ProxyServer p a)
    (withAddress X cfg p).
Proof.
  unfold withAddress. destruct (AddressKind (Connection cfg)).
  - apply emits_fail.
  - eapply emits_bind with (Q := any).
    + apply emits_wrapping, emits_lift. intros; exact I.
    + intros a _. apply emits_ret. eauto.
  - eapply emits_bind with (Q := any).
    + apply emits_wrapping, emits_lift. intros; exact I.
    + intros a _. apply emits_ret. eauto.
Qed.

Lemma withJoinMethod_emits cfg ac p :
  registerParamsOf cfg ac p \/
    (AuthClient p = ac /\ RP_JoinMethod p = JoinMethod (Onboarding cfg)) ->
  emits (join_event (fun _ => False))
    (fun bp => registerParamsOf cfg ac (snd bp))
    (withJoinMethod X cfg p).
Proof.
  intros Hp.
  assert (Hac : AuthClient p = ac) by (destruct Hp as [[? _] | [? _]]; auto).
  assert (Hjm : RP_JoinMethod p = JoinMethod (Onboarding cfg))
    by (destruct Hp as [[_ [? _]] | [_ ?]]; auto).
  unfold withJoinMethod.
  destruct (RP_JoinMethod p) eqn:E;
    try (apply emits_ret; unfold registerParamsOf; simpl;
         rewrite <- Hjm, E; repeat split; auto; intros; discriminate).
  eapply emits_bind with (Q := any).
  - eapply emits_weaken; [ eapply emits_catch, emits_call_err | | ];
      [ | intros ev Hev; exact Hev | intros; exact I ].
    intros r; exact I.
  - intros r _. eapply emits_bind with (Q := any).
    + destruct r as [ loaded | err ].
      * apply emits_ret; exact I.
      * destruct (_ && _); [ apply emits_ret; exact I | apply emits_fail ].
    + intros bks _. apply emits_ret. unfold registerParamsOf; simpl.
      rewrite <- Hjm, E. repeat split; auto; intros; discriminate.
Qed.

Lemma botIdentityFromToken_emits cfg ac :
  emits (join_event (registerParamsOf cfg ac)) any
    (botIdentityFromToken X cfg ac).
Proof.
  unfold botIdentityFromToken.
  eapply emits_bind with (Q := any).
  { apply emits_wrapping, emits_call_err. intros; exact I. }
  intros token _. eapply emits_bind with (Q := any).
  { apply emits_call. intros; exact I. }
  intros now _.
  set (p0 := match ac with
             | Some c => set_AuthClient (defaultParams cfg token _) (Some c)
             | None => defaultParams cfg token _
             end).
  assert (H0 : AuthClient p0 = ac /\ RP_JoinMethod p0 = JoinMethod (Onboarding cfg))
    by (subst p0; destruct ac; simpl; auto).
  eapply emits_bind.
  { apply withAddress_emits with (P := join_event (registerParamsOf cfg ac)). }
  intros p1 [a Hp1]. simpl in Hp1.
  assert (H1 : AuthClient p1 = ac /\ RP_JoinMethod p1 = JoinMethod (Onboarding cfg))
    by (destruct Hp1; subst p1; simpl; exact H0).
  eapply emits_bind.
  { eapply emits_weaken; [ apply (withJoinMethod_emits cfg ac p1); auto | | ].
    - intros ev Hev. destruct ev; simpl in *; auto; contradiction.
    - intros bp Hbp. exact Hbp. }
  intros [bks p2] Hp2. simpl in Hp2.
  eapply emits_bind with (Q := any).
  { apply emits_wrapping, emits_call_err. intros r. simpl. exact Hp2. }
  intros result _.
  eapply emits_bind with (Q := any).
  { destruct bks.
    - eapply emits_bind with (Q := any).
      + apply emits_wrapping, emits_lift. intros; exact I.
      + intros bks' _. apply emits_wrapping, emits_call_unit. intros; exact I.
    - apply emits_ret; exact I. }
  intros _ _.
  eapply emits_bind with (Q := any).
  { apply emits_wrapping, emits_lift. intros; exact I. }
  intros pem _.
  eapply emits_bind with (Q := any).
  { apply emits_wrapping, emits_lift. intros; exact I. }
  intros sshPub _.
  apply emits_wrapping, emits_lift. intros; exact I.
Qed.

Lemma botIdentityFromAuth_emits ident c ttl :
  emits (auth_event c) any (botIdentityFromAuth X ident (Some c) ttl).
Proof.
  unfold botIdentityFromAuth. destruct ident as [ident | ]; [ | apply emits_fail ].
  eapply emits_bind with (Q := any).
  { apply emits_wrapping, emits_call_err. intros; reflexivity. }
  intros key _.
  eapply emits_bind with (Q := any).
  { apply emits_wrapping, emits_lift. intros; exact I. }
  intros pem _.
  eapply emits_bind with (Q := any).
  { apply emits_wrapping, emits_lift. intros; exact I. }
  intros sshPub _.
  eapply emits_bind with (Q := any).
  { apply emits_wrapping, emits_lift. intros; exact I. }
  intros tlsPub _.
  eapply emits_bind with (Q := any).
  { apply emits_call. intros; exact I. }
  intros now _.
  eapply emits_bind with (Q := any).
  { apply emits_wrapping, emits_call_err. intros; reflexivity. }
  intros certs _.
  apply emits_wrapping, emits_lift. intros; exact I.
Qed.

Lemma tokenMismatch_emits cfg loaded :
  emits load_event any (tokenMismatch X cfg loaded).
Proof.
  unfold tokenMismatch. destruct (Onboarding_HasToken X (Onboarding cfg)).
  - eapply emits_bind with (Q := any).
    + eapply emits_weaken; [ eapply emits_catch, emits_call_err | | ];
        [ | intros ev Hev; exact Hev | intros; exact I ].
      intros; exact I.
    + intros [token | err] _; apply emits_ret; exact I.
  - apply emits_ret; exact I.
Qed.

Lemma loadIdentityFromStore_emits cfg store :
  emits load_event any (loadIdentityFromStore X cfg store).
Proof.
  unfold loadIdentityFromStore.
  eapply emits_bind with (Q := any).
  - eapply emits_weaken; [ eapply emits_catch, emits_call_err | | ];
      [ | intros ev Hev; exact Hev | intros; exact I ].
    intros; exact I.
  - intros [loaded | err] _.
    + eapply emits_bind with (Q := any); [ apply tokenMismatch_emits | ].
      intros [ | ] _; [ apply emits_ret; exact I | ].
      eapply emits_bind with (Q := any).
      * apply emits_call. intros; exact I.
      * intros now _. apply emits_ret; exact I.
    + destruct (trace_IsNotFound err); apply emits_ret; exact I.
Qed.

End FunctionEvents.

Section InitializeTheorems.

Context {Env : Type}.
Variable X : External Env.

(** C4.  When no valid identity comes out of the store and no join token
    is configured, [Initialize] returns the [BadParameter] error
    "no existing identity found on disk or join token configured" at once:
    the service, and with it the facade, is untouched, and the only calls
    made are those of loading the store. *)
Theorem Initialize_without_identity_or_token
    (s : Service) (st : St Env) (loadedIdent : option Identity) (st1 : St Env) :
  loadIdentityFromStore X (s_cfg s) (Destination (s_cfg s)) st
    = (Ok (loadedIdent, false), st1) ->
  Onboarding_HasToken X (Onboarding (s_cfg s)) = false ->
  Initialize X (s, st)
    = (Err (trace_BadParameter msg_no_identity_or_token), (s, st1)) /\
  trace_IsBadParameter (trace_BadParameter msg_no_identity_or_token) = true /\
  exists new, trace st1 = trace st ++ new /\ Forall load_event new.
Proof.
  intros Hload Htok. split; [ | split; [ reflexivity | ] ].
  - unfold Initialize. rewrite self_bind.
    erewrite bind_ok by (apply run_eq; exact Hload).
    simpl. rewrite Htok. reflexivity.
  - destruct (loadIdentityFromStore_emits X _ _ _ _ _ Hload) as [Hnew _].
    exact Hnew.
Qed.

(** C3.  When an identity was loaded from the store, whether still valid
    or not, and the attempt chosen for it (renewal if valid, a fresh join
    otherwise, which needs a token) fails, and a client can be built around
    the old identity, [Initialize] returns no error, and the facade of the
    service then holds the old identity. *)
Theorem Initialize_falls_back_to_old_identity
    (s : Service) (st : St Env) (old : Identity) (valid : bool)
    (st1 : St Env) (err : error) (st2 : St Env) (c : Client) (e3 : Env) :
  let cfg := s_cfg s in
  let facade := identity_NewFacade (FIPS cfg) (Insecure (Connection cfg)) old in
  loadIdentityFromStore X cfg (Destination cfg) st = (Ok (Some old, valid), st1) ->
  (valid = false -> Onboarding_HasToken X (Onboarding cfg) = true) ->
  (if valid then renewIdentity X cfg old else botIdentityFromToken X cfg None) st1
    = (Err err, st2) ->
  Builder_Build X facade (env st2) = (inl c, e3) ->
  exists s' st',
    Initialize X (s, st) = (Ok tt, (s', st')) /\
    option_map Facade_Get (s_facade s') = Some old /\
    s_facade s' = Some facade /\
    s_client s' = Some c.
Proof.
  intros cfg facade Hload Htok Hattempt Hbuild. subst cfg facade.
  do 2 eexists. split; [ | split; [ | split ] ].
  - unfold Initialize. rewrite self_bind.
    erewrite bind_ok by (apply run_eq; exact Hload).
    simpl.
    assert (Hgate : negb valid && negb (Onboarding_HasToken X (Onboarding (s_cfg s)))
                    = false).
    { destruct valid; [ reflexivity | ]. simpl.
      rewrite (Htok eq_refl). reflexivity. }
    rewrite Hgate.
    erewrite bind_ok by (apply catch_err, run_eq; exact Hattempt).
    unfold Initialize_fallback. rewrite self_bind.
    erewrite bind_ok.
    2: { apply wrapping_ok, run_eq. unfold call_err. simpl.
         rewrite Hbuild. reflexivity. }
    reflexivity.
  - reflexivity.
  - reflexivity.
  - reflexivity.
Qed.

End InitializeTheorems.

Section RenewTheorems.

Context {Env : Type}.
Variable X : External Env.

Lemma renewIdentity_emits cfg old :
  emits (renewal_event cfg old) any (renewIdentity X cfg old).
Proof.
  unfold renewIdentity.
  eapply emits_bind with (Q := any).
  { apply emits_wrapping, emits_call_err. intros; reflexivity. }
  intros c _. apply emits_deferring.
  { unfold closeClient. apply emits_call. intros; exact I. }
  destruct (Renewable (TLSIdentity old)).
  - apply emits_wrapping.
    eapply emits_weaken; [ apply botIdentityFromAuth_emits | | auto ].
    intros ev Hev. destruct ev; simpl in *; auto; contradiction.
  - eapply emits_bind with (Q := any).
    { apply emits_call. intros; exact I. }
    intros now _.
    destruct (appearsExpired X _ now); apply emits_wrapping;
      (eapply emits_weaken; [ apply botIdentityFromToken_emits | | auto ]);
      intros ev Hev; destruct ev; simpl in *; auto; contradiction.
Qed.

(** C7.  For an identity that is not renewable, once the client [c] has
    been built around it and the clock read: if the facade knows the
    expiry and the clock is not after it, the join runs with [c] as its
    auth client, and every registration it sends carries [c]; if the
    expiry is unknown, or the clock is strictly after it, the join runs
    with no auth client, and every registration goes without one.  Either
    way [c] is closed on the way out. *)
Theorem renewIdentity_lightweight
    (cfg : Config) (old : Identity) (st : St Env)
    (c : Client) (e1 : Env) (now : Time) (e2 : Env) :
  let facade :=
    identity_NewFacade (FIPS cfg) (Insecure (Connection cfg)) old in
  let st2 := after (after st e1 (EvBuild facade (inl c))) e2 (EvNow now) in
  let sent ac :=
    exists mid,
      trace (snd (renewIdentity X cfg old st)) =
        trace st ++ [EvBuild facade (inl c); EvNow now] ++ mid ++ [EvClose c] /\
      Forall (join_event (registerParamsOf cfg ac)) mid in
  Renewable (TLSIdentity old) = false ->
  Builder_Build X facade (env st) = (inl c, e1) ->
  time_Now X e1 = (now, e2) ->
  (forall expiry,
     Facade_Expiry X facade = Some expiry -> now <= expiry ->
     renewIdentity X cfg old st =
       deferring (closeClient X c)
         (wrapping "renewing identity using Register with existing auth client"
            (botIdentityFromToken X cfg (Some c))) st2 /\
     sent (Some c)) /\
  (Facade_Expiry X facade = None \/
   (exists expiry, Facade_Expiry X facade = Some expiry /\ expiry < now) ->
     renewIdentity X cfg old st =
       deferring (closeClient X c)
         (wrapping "renewing identity using Register without existing auth client"
            (botIdentityFromToken X cfg None)) st2 /\
     sent None).
Proof.
  intros facade st2 sent Hren Hbuild Hnow.
  assert (Eq :
    renewIdentity X cfg old st =
      deferring (closeClient X c)
        (if appearsExpired X facade now
         then wrapping
                "renewing identity using Register without existing auth client"
                (botIdentityFromToken X cfg None)
         else wrapping
                "renewing identity using Register with existing auth client"
                (botIdentityFromToken X cfg (Some c))) st2).
  { unfold renewIdentity. fold facade.
    erewrite bind_ok.
    2: { apply wrapping_ok. unfold call_err. rewrite Hbuild. reflexivity. }
    rewrite Hren. unfold deferring.
    erewrite bind_ok.
    2: { unfold call. simpl. rewrite Hnow. reflexivity. }
    reflexivity. }
  assert (Hsent : forall msg ac,
    renewIdentity X cfg old st =
      deferring (closeClient X c)
        (wrapping msg (botIdentityFromToken X cfg ac)) st2 ->
    sent ac).
  { intros msg ac E. unfold sent. rewrite E. unfold deferring.
    destruct (wrapping msg (botIdentityFromToken X cfg ac) st2)
      as [r st3] eqn:E3.
    destruct (emits_wrapping _ _ msg _ (botIdentityFromToken_emits X cfg ac)
                _ _ _ E3) as [[mid [T F]] _].
    unfold trace_of, Traced_St in T.
    exists mid. split; [ | exact F ].
    unfold closeClient, call. simpl. rewrite T.
    subst st2. unfold after. simpl. rewrite <- !app_assoc. reflexivity. }
  split.
  - intros expiry Hexp Hle.
    assert (E : appearsExpired X facade now = false).
    { unfold appearsExpired. rewrite Hexp. apply Z.ltb_ge. exact Hle. }
    rewrite E in Eq. split; [ exact Eq | ]. eapply Hsent. exact Eq.
  - intros Hexpired.
    assert (E : appearsExpired X facade now = true).
    { unfold appearsExpired.
      destruct Hexpired as [Hnone | [expiry [Hexp Hlt]]].
      - rewrite Hnone. reflexivity.
      - rewrite Hexp. apply Z.ltb_lt. exact Hlt. }
    rewrite E in Eq. split; [ exact Eq | ]. eapply Hsent. exact Eq.
Qed.

(** C9.  A renewal cycle of a service that has a facade starts by
    checking that the destination can be written: the first call it makes
    is [VerifyWrite].  When that check fails, the cycle returns the error,
    wrapped, having made no other call, and the service (its facade
    included) is as it was. *)
Theorem renew_checks_destination_first
    (s : Service) (f : Facade) (d : destination_Destination) (st : St Env) :
  s_facade s = Some f ->
  (exists res rest,
     trace (snd (snd (renew X d (s, st))))
       = trace st ++ EvVerifyWrite d res :: rest) /\
  (forall err e1,
     identity_VerifyWrite X d (env st) = (Some err, e1) ->
     renew X d (s, st)
       = (Err (trace_Wrap err (msg_cannot_write d)),
          (s, after st e1 (EvVerifyWrite d (Some err))))).
Proof.
  intros Hf.
  assert (Hfail : forall err e1,
     identity_VerifyWrite X d (env st) = (Some err, e1) ->
     renew X d (s, st)
       = (Err (trace_Wrap err (msg_cannot_write d)),
          (s, after st e1 (EvVerifyWrite d (Some err))))).
  { intros err e1 Hv. unfold renew. rewrite self_bind.
    rewrite Hf. erewrite bind_err; [ reflexivity | ].
    apply wrapping_err. apply run_eq. unfold call_unit. rewrite Hv.
    reflexivity. }
  split; [ | exact Hfail ].
  destruct (identity_VerifyWrite X d (env st)) as [[err | ] e1] eqn:Hv.
  - rewrite (Hfail err e1 eq_refl). simpl. exists (Some err), []. reflexivity.
  - unfold renew. rewrite self_bind. rewrite Hf.
    erewrite bind_ok.
    2: { apply wrapping_ok, run_eq. unfold call_unit. rewrite Hv. reflexivity. }
    match goal with
    | |- context [ bind ?m ?k ?p ] =>
        destruct (bind m k p) as [r p'] eqn:E;
        assert (Hem : emits (fun _ => True) any (bind m k))
    end.
    { eapply emits_bind with (Q := any).
      - apply emits_wrapping, emits_run.
        eapply emits_weaken; [ apply renewIdentity_emits | auto | auto ].
      - intros newIdentity _.
        eapply emits_bind with (Q := any); [ apply emits_update | ].
        intros _ _.
        eapply emits_bind with (Q := any);
          [ apply emits_run, emits_emit; exact I | ].
        intros _ _. apply emits_wrapping, emits_run, emits_call_unit. auto. }
    destruct (Hem _ _ _ E) as [[new [T _]] _].
    unfold trace_of, Traced_Meth in T. simpl in T. simpl.
    exists None, new. rewrite T. rewrite <- app_assoc. reflexivity.
Qed.

End RenewTheorems.

(** ** The readiness gate: the proofs *)

Section Gate.

Context {Env : Type}.

Lemma closes_app (tr1 tr2 : list Event) :
  closes (tr1 ++ tr2) = (closes tr1 + closes tr2)%nat.
Proof.
  induction tr1 as [ | ev tr1 IH ]; simpl; [ reflexivity | ].
  destruct ev; simpl; rewrite IH; reflexivity.
Qed.

Lemma nth_error_set_closed (l : list bool) (c : nat) (b : bool) :
  nth_error l c = Some b -> nth_error (set_closed l c) c = Some true.
Proof.
  revert c. induction l as [ | x l IH ]; intros [ | c ] Hc; simpl in *;
    try discriminate; auto.
Qed.

Lemma ensureInitialized_spec ch ready s (st : St Env) :
  gate_inv ch ready s st ->
  exists s' st',
    ensureInitialized (s, st) = (Ok ch, (s', st')) /\
    s_initialized s' = Some ch /\ s_initializedOnce s' = ready /\
    nth_error (chans st') ch = Some ready /\
    closes (trace st') = closes (trace st).
Proof.
  intros [[Hi [Ho [Hr Hc]]] | [Hi [Ho Hn]]].
  - subst ready ch. do 2 eexists.
    unfold ensureInitialized. rewrite self_bind, Hi.
    split; [ reflexivity | ]. simpl.
    repeat split; auto.
    + rewrite nth_error_app2, Nat.sub_diag; auto.
    + rewrite closes_app. simpl. apply Nat.add_0_r.
  - exists s, st. unfold ensureInitialized. rewrite self_bind, Hi.
    repeat split; auto.
Qed.

Lemma gate_step_spec ch ready op s (st : St Env) :
  gate_inv ch ready s st ->
  exists o s' st',
    gate_step op (s, st) = (Ok o, (s', st')) /\
    gate_spec ch ready [op] = [o] /\
    gate_inv ch (ready || isUnblock op) s' st' /\
    closes (trace st') =
      (closes (trace st) + if negb ready && isUnblock op then 1 else 0)%nat.
Proof.
  intros Hinv.
  destruct (ensureInitialized_spec _ _ _ _ Hinv) as [s1 [st1 [E [Hi [Ho [Hn Hc]]]]]].
  destruct op; simpl.
  - do 3 eexists. unfold Ready. erewrite bind_ok by exact E.
    split; [ reflexivity | ]. split; [ reflexivity | ].
    rewrite orb_false_r, andb_false_r, Nat.add_0_r.
    split; [ right; auto | exact Hc ].
  - do 3 eexists. unfold IsReady, Ready.
    erewrite bind_ok.
    2: { erewrite bind_ok by exact E. unfold run, chan_closed. simpl.
         rewrite Hn. reflexivity. }
    split; [ reflexivity | ]. split; [ reflexivity | ].
    rewrite orb_false_r, andb_false_r, Nat.add_0_r.
    split; [ right; auto | exact Hc ].
  - rewrite orb_true_r, andb_true_r.
    unfold unblockWaiters.
    destruct ready.
    + do 3 eexists. erewrite bind_ok.
      2: { erewrite bind_ok by exact E. rewrite self_bind, Ho. reflexivity. }
      split; [ reflexivity | ]. split; [ reflexivity | ].
      simpl. rewrite Nat.add_0_r. split; [ right; auto | exact Hc ].
    + do 3 eexists. erewrite bind_ok.
      2: { erewrite bind_ok by exact E. rewrite self_bind, Ho.
           unfold run, close_chan, update, bind. simpl. rewrite Hi, Hn.
           reflexivity. }
      split; [ reflexivity | ]. split; [ reflexivity | ].
      simpl. split.
      * right. simpl. repeat split; auto.
        eapply nth_error_set_closed; eauto.
      * rewrite closes_app, Hc. reflexivity.
Qed.

Lemma gate_run_spec ops : forall ch ready s (st : St Env),
  gate_inv ch ready s st ->
  exists s' st',
    gate_run ops (s, st) = (Ok (gate_spec ch ready ops), (s', st')) /\
    gate_inv ch (ready || existsb isUnblock ops) s' st' /\
    closes (trace st') =
      (closes (trace st) +
       if negb ready && existsb isUnblock ops then 1 else 0)%nat.
Proof.
  induction ops as [ | op ops IH ]; intros ch ready s st Hinv.
  - exists s, st. simpl. rewrite orb_false_r, andb_false_r, Nat.add_0_r. auto.
  - destruct (gate_step_spec ch ready op s st Hinv)
      as [o [s1 [st1 [E1 [Ho [Hinv1 Hc1]]]]]].
    destruct (IH _ _ _ _ Hinv1) as [s2 [st2 [E2 [Hinv2 Hc2]]]].
    exists s2, st2.
    assert (Hspec : gate_spec ch ready (op :: ops)
                    = o :: gate_spec ch (ready || isUnblock op) ops).
    { destruct op; simpl in *; inversion Ho; subst;
        rewrite ?orb_false_r, ?orb_true_r; reflexivity. }
    split; [ | split ].
    + simpl gate_run. erewrite bind_ok by exact E1.
      erewrite bind_ok by exact E2. rewrite Hspec. reflexivity.
    + simpl existsb. rewrite orb_assoc. exact Hinv2.
    + rewrite Hc2, Hc1. simpl existsb.
      destruct ready, (isUnblock op), (existsb isUnblock ops); simpl; lia.
Qed.

End Gate.

Lemma gate_spec_chan ch ops : forall ready c,
  In (ObsChan c) (gate_spec ch ready ops) -> c = ch.
Proof.
  induction ops as [ | op ops IH ]; intros ready c Hin; simpl in Hin.
  - contradiction.
  - destruct op; simpl in Hin; destruct Hin as [Heq | Hin];
      try discriminate; try (inversion Heq; auto; fail); eauto.
Qed.

Lemma gate_spec_length ch ops : forall ready,
  List.length (gate_spec ch ready ops) = List.length ops.
Proof.
  induction ops as [ | op ops IH ]; intros ready; simpl; [ reflexivity | ].
  destruct op; simpl; rewrite IH; reflexivity.
Qed.

Lemma gate_spec_app ch pre : forall ready post,
  gate_spec ch ready (pre ++ post) =
  gate_spec ch ready pre ++ gate_spec ch (ready || existsb isUnblock pre) post.
Proof.
  induction pre as [ | op pre IH ]; intros ready post; simpl.
  - rewrite orb_false_r. reflexivity.
  - destruct op; simpl; rewrite IH; rewrite ?orb_true_r; reflexivity.
Qed.

Section GateTheorem.

Context {Env : Type}.
Variable X : External Env.

(** C8.  On a service as [NewService] makes it, any sequence of calls of
    [Ready], [IsReady] and [unblockWaiters] runs without a panic or an
    error.  Every [Ready] returns the same channel; an [IsReady] returns
    [true] exactly when an [unblockWaiters] came before it; and the
    channel is closed once if [unblockWaiters] was called at all, however
    often, and never otherwise. *)
Theorem readiness_gate_idempotent
    (cfg : Config) (s : Service) (st : St Env) (ops : list GateOp) :
  NewService X cfg = inl s ->
  exists obs s' st',
    gate_run ops (s, st) = (Ok obs, (s', st')) /\
    obs = gate_spec (List.length (chans st)) false ops /\
    (forall c, In (ObsChan c) obs -> c = List.length (chans st)) /\
    (forall pre post,
       ops = pre ++ OpIsReady :: post ->
       nth_error obs (List.length pre)
         = Some (ObsBool (existsb isUnblock pre))) /\
    closes (trace st') =
      (closes (trace st) + if existsb isUnblock ops then 1 else 0)%nat /\
    s_initializedOnce s' = existsb isUnblock ops.
Proof.
  intros Hnew.
  assert (Hinv : gate_inv (List.length (chans st)) false s st).
  { unfold NewService in Hnew. destruct (CheckAndSetDefaults X cfg);
      inversion Hnew; subst. left. simpl. auto. }
  destruct (gate_run_spec ops _ _ _ _ Hinv) as [s' [st' [E [Hinv' Hc]]]].
  exists (gate_spec (List.length (chans st)) false ops), s', st'.
  split; [ exact E | ]. split; [ reflexivity | ].
  split; [ intros c; apply gate_spec_chan | ].
  split; [ | split ].
  - intros pre post Hops. subst ops. rewrite gate_spec_app.
    rewrite nth_error_app2 by (rewrite gate_spec_length; lia).
    rewrite gate_spec_length, Nat.sub_diag. reflexivity.
  - exact Hc.
  - simpl in Hinv'. destruct Hinv' as [[_ [Ho [Hr _]]] | [_ [Ho _]]]; congruence.
Qed.

End GateTheorem.

(** ** Token hashes *)

Lemma bytes_Equal_eq (a b : bytes) : bytes_Equal a b = true <-> a = b.
Proof.
  revert b. induction a as [ | x a IH ]; intros [ | y b ]; simpl;
    split; intros Hab; try discriminate; try reflexivity.
  - apply andb_true_iff in Hab. destruct Hab as [Hxy Hrest].
    apply Byte.byte_dec_bl in Hxy. apply IH in Hrest. congruence.
  - inversion Hab; subst. apply andb_true_iff. split.
    + apply Byte.byte_dec_lb. reflexivity.
    + apply IH. reflexivity.
Qed.

Lemma hasTokenChanged_differ (a b : bytes) :
  a <> [] -> b <> [] -> a <> b -> hasTokenChanged a b = true.
Proof.
  intros Ha Hb Hab. unfold hasTokenChanged.
  destruct (bytes_Equal b a) eqn:E.
  - apply bytes_Equal_eq in E. congruence.
  - destruct a; [ contradiction | ]. destruct b; [ contradiction | ].
    reflexivity.
Qed.

Lemma hasTokenChanged_empty (a b : bytes) :
  a = [] \/ b = [] -> hasTokenChanged a b = false.
Proof.
  intros [Ha | Hb]; subst; unfold hasTokenChanged.
  - reflexivity.
  - destruct a; reflexivity.
Qed.

Section PublishEvents.

Context {Env : Type}.
Variable X : External Env.

Lemma ensureInitialized_emits (P : Event -> Prop) :
  (forall c, P (EvMakeChan c)) -> emits P any (@ensureInitialized Env).
Proof.
  intros HP. unfold ensureInitialized.
  eapply emits_bind with (Q := any); [ apply emits_self | ].
  intros s _. destruct (s_initialized s); [ apply emits_ret; exact I | ].
  eapply emits_bind with (Q := any);
    [ apply emits_run, emits_make_chan; exact HP | ].
  intros c _. eapply emits_bind with (Q := any); [ apply emits_update | ].
  intros _ _. apply emits_ret; exact I.
Qed.

Lemma unblockWaiters_emits (P : Event -> Prop) :
  (forall c, P (EvMakeChan c)) -> (forall c, P (EvCloseChan c)) ->
  emits P any (@unblockWaiters Env).
Proof.
  intros HM HC. unfold unblockWaiters.
  eapply emits_bind with (Q := any); [ apply ensureInitialized_emits; exact HM | ].
  intros _ _. eapply emits_bind with (Q := any); [ apply emits_self | ].
  intros s _. destruct (s_initializedOnce s); [ apply emits_ret; exact I | ].
  eapply emits_bind with (Q := any);
    [ apply emits_run, emits_close_chan; exact HC | ].
  intros _ _. apply emits_update.
Qed.

Lemma Initialize_publish_emits (id : Identity) :
  emits (publish_event id) any (Initialize_publish X id).
Proof.
  unfold Initialize_publish.
  eapply emits_bind with (Q := any); [ apply emits_self | ].
  intros s _.
  eapply emits_bind with (Q := any).
  { apply emits_wrapping, emits_run, emits_call_unit. intros; reflexivity. }
  intros _ _.
  eapply emits_bind with (Q := any).
  { apply emits_wrapping, emits_run, emits_call_err. intros; reflexivity. }
  intros c _.
  eapply emits_bind with (Q := any); [ apply emits_update | ].
  intros _ _.
  eapply emits_bind with (Q := any).
  { apply emits_run, emits_emit. reflexivity. }
  intros _ _.
  eapply emits_bind with (Q := any).
  { apply unblockWaiters_emits; intros; exact I. }
  intros _ _. apply emits_run, emits_emit. exact I.
Qed.

(** C2.  When the store holds an identity whose token hash is not empty
    and differs from the (non-empty) hash of the configured token, which
    could be read: [loadIdentityFromStore] returns no identity;
    [Initialize] goes on with [botIdentityFromToken] without an auth
    client, as it does for an empty store; and on no path of it is a
    renewal call made or a registration sent with an auth client.  The
    comparison itself answers "unchanged" as soon as one of the two hashes
    is empty. *)
Theorem token_change_discards_stored_identity
    (s : Service) (st : St Env) (stored : Identity) (e1 : Env)
    (tok : string) (e2 : Env) :
  let cfg := s_cfg s in
  let d := Destination cfg in
  let st1 :=
    after (after st e1 (EvLoadIdentity d (inl stored))) e2 (EvToken (inl tok)) in
  identity_LoadIdentity X d (env st) = (inl stored, e1) ->
  Onboarding_HasToken X (Onboarding cfg) = true ->
  Onboarding_Token X (Onboarding cfg) e1 = (inl tok, e2) ->
  TokenHashBytes stored <> [] ->
  sha256_hex X tok <> [] ->
  TokenHashBytes stored <> sha256_hex X tok ->
  loadIdentityFromStore X cfg d st = (Ok (None, false), st1) /\
  Initialize X (s, st) =
    bind (wrapping "joining with token" (run (botIdentityFromToken X cfg None)))
      (Initialize_publish X) (s, st1) /\
  (exists new,
     trace (snd (snd (Initialize X (s, st)))) = trace st ++ new /\
     Forall unauthenticated_event new) /\
  (forall a b : bytes, a = [] \/ b = [] -> hasTokenChanged a b = false).
Proof.
  intros cfg d st1 Hload Hhas Htok Hne1 Hne2 Hdiff.
  assert (Hl : loadIdentityFromStore X cfg d st = (Ok (None, false), st1)).
  { unfold loadIdentityFromStore.
    erewrite bind_ok.
    2: { apply catch_ok. unfold call_err. rewrite Hload. reflexivity. }
    cbv beta iota.
    erewrite bind_ok.
    2: { unfold tokenMismatch. rewrite Hhas.
         erewrite bind_ok.
         2: { apply catch_ok. unfold call_err. simpl. rewrite Htok.
              reflexivity. }
         cbv beta iota. rewrite hasTokenChanged_differ by assumption.
         reflexivity. }
    reflexivity. }
  assert (Hi : Initialize X (s, st) =
    bind (wrapping "joining with token" (run (botIdentityFromToken X cfg None)))
      (Initialize_publish X) (s, st1)).
  { unfold Initialize. rewrite self_bind.
    erewrite bind_ok by (apply run_eq; exact Hl).
    cbv beta iota. fold cfg. rewrite Hhas. reflexivity. }
  split; [ exact Hl | ]. split; [ exact Hi | ].
  split; [ | exact hasTokenChanged_empty ].
  rewrite Hi.
  match goal with
  | |- context [ bind ?m ?k ?p ] =>
      destruct (bind m k p) as [r p'] eqn:E;
      assert (Hem : emits unauthenticated_event any (bind m k))
  end.
  { eapply emits_bind with (Q := any).
    - apply emits_wrapping, emits_run.
      eapply emits_weaken; [ apply botIdentityFromToken_emits | | auto ].
      intros ev Hev. destruct ev; simpl in *; auto; try contradiction.
      destruct Hev as [Hac _]. exact Hac.
    - intros newIdentity _.
      eapply emits_weaken; [ apply Initialize_publish_emits | | auto ].
      intros ev Hev. destruct ev; simpl in *; auto; contradiction. }
  destruct (Hem _ _ _ E) as [[new [T F]] _].
  unfold trace_of, Traced_Meth in T. simpl in T. simpl.
  exists ([EvLoadIdentity d (inl stored); EvToken (inl tok)] ++ new).
  split.
  - rewrite T. rewrite <- !app_assoc. reflexivity.
  - apply Forall_app. split; [ | exact F ].
    repeat constructor.
Qed.

End PublishEvents.

(** ** Reading a successful run backwards *)

Section Inversions.

Context {S : Type}.

Lemma bind_inv_ok {A B} (m : M S A) (k : A -> M S B) st b st' :
  bind m k st = (Ok b, st') ->
  exists a st1, m st = (Ok a, st1) /\ k a st1 = (Ok b, st').
Proof.
  unfold bind. destruct (m st) as [[a | e | ] st1]; intros E;
    try discriminate. eauto.
Qed.

Lemma wrapping_inv_ok {A} msg (m : M S A) st a st' :
  wrapping msg m st = (Ok a, st') -> m st = (Ok a, st').
Proof.
  unfold wrapping. destruct (m st) as [[a' | e | ] st1]; intros E;
    try discriminate. exact E.
Qed.

Lemma lift_inv_ok {A} (r : A + error) (st : S) a st' :
  lift r st = (Ok a, st') -> r = inl a /\ st' = st.
Proof.
  destruct r; simpl; unfold ret, fail; intros E; inversion E; auto.
Qed.

Lemma deferring_inv {A B} (d : M S B) (m : M S A) st r st' :
  deferring d m st = (r, st') ->
  exists st1, m st = (r, st1) /\ st' = snd (d st1).
Proof.
  unfold deferring. destruct (m st) as [r1 st1]. intros E.
  inversion E; subst. eauto.
Qed.

End Inversions.

Section CallInversions.

Context {Env : Type}.

Lemma call_inv {A} (f : Env -> A * Env) ev (st : St Env) r st' :
  call f ev st = (r, st') ->
  exists a e', f (env st) = (a, e') /\ r = Ok a /\ st' = after st e' (ev a).
Proof.
  unfold call. destruct (f (env st)) as [a e']. intros E.
  inversion E; subst. eauto.
Qed.

Lemma call_err_inv_ok {A} (f : Env -> (A + error) * Env) ev (st : St Env)
    a st' :
  call_err f ev st = (Ok a, st') ->
  exists e', f (env st) = (inl a, e') /\ st' = after st e' (ev (inl a)).
Proof.
  unfold call_err. destruct (f (env st)) as [[a' | e] e']; intros E;
    inversion E; subst. eauto.
Qed.

Lemma call_unit_inv (f : Env -> option error * Env) ev (st : St Env) r st' :
  call_unit f ev st = (r, st') ->
  exists res e',
    f (env st) = (res, e') /\ st' = after st e' (ev res) /\
    r = match res with None => Ok tt | Some e => Err e end.
Proof.
  unfold call_unit. destruct (f (env st)) as [[e | ] e']; intros E;
    inversion E; subst; eauto.
Qed.

Lemma run_inv {A} (m : M (St Env) A) (s : Service) st r p' :
  run m (s, st) = (r, p') ->
  exists st', m st = (r, st') /\ p' = (s, st').
Proof.
  unfold run. simpl. destruct (m st) as [r1 st1]. intros E.
  inversion E; subst. eauto.
Qed.

End CallInversions.

Section KeyTheorems.

Context {Env : Type}.
Variable X : External Env.

Lemma botIdentityFromAuth_inv ident c ttl st new st' :
  botIdentityFromAuth X (Some ident) (Some c) ttl st = (Ok new, st') ->
  exists key e1 pem sshk tlsPub now e2 certs e3,
    cryptosuites_GenerateKey X (CurrentSuiteFromAuthPreference c) HostIdentity
      (env st) = (inl key, e1) /\
    keys_MarshalPrivateKey X key = inl pem /\
    ssh_NewPublicKey X (Signer_Public X key) = inl sshk /\
    keys_MarshalPublicKey X (Signer_Public X key) = inl tlsPub /\
    time_Now X e1 = (now, e2) /\
    Client_GenerateUserCerts X c
      {| SSHPublicKey := ssh_MarshalAuthorizedKey X sshk;
         TLSPublicKey := tlsPub;
         Username := Subject_CommonName (X509Cert ident);
         Expires := time_Add now ttl |} e2 = (inl certs, e3) /\
    identity_ReadIdentityFromStore X
      {| P_PrivateKeyBytes := pem;
         P_PublicKeyBytes := ssh_MarshalAuthorizedKey X sshk;
         P_TokenHashBytes := TokenHashBytes ident |} certs = inl new /\
    st' = after (after (after st e1
            (EvGenerateKey (CurrentSuiteFromAuthPreference c) HostIdentity
               (inl key)))
            e2 (EvNow now))
            e3 (EvGenerateUserCerts c
                  {| SSHPublicKey := ssh_MarshalAuthorizedKey X sshk;
                     TLSPublicKey := tlsPub;
                     Username := Subject_CommonName (X509Cert ident);
                     Expires := time_Add now ttl |} (inl certs)).
Proof.
  intros H. unfold botIdentityFromAuth in H.
  apply bind_inv_ok in H. destruct H as [key [st1 [H1 H]]].
  apply wrapping_inv_ok, call_err_inv_ok in H1. destruct H1 as [e1 [Hk Hst1]].
  apply bind_inv_ok in H. destruct H as [pem [st2 [H2 H]]].
  apply wrapping_inv_ok, lift_inv_ok in H2. destruct H2 as [Hpem Hst2].
  apply bind_inv_ok in H. destruct H as [sshk [st3 [H3 H]]].
  apply wrapping_inv_ok, lift_inv_ok in H3. destruct H3 as [Hssh Hst3].
  apply bind_inv_ok in H. destruct H as [tlsPub [st4 [H4 H]]].
  apply wrapping_inv_ok, lift_inv_ok in H4. destruct H4 as [Htls Hst4].
  apply bind_inv_ok in H. destruct H as [now [st5 [H5 H]]].
  apply call_inv in H5. destruct H5 as [now' [e2 [Hnow [Hr Hst5]]]].
  inversion Hr; subst now'.
  apply bind_inv_ok in H. destruct H as [certs [st6 [H6 H]]].
  apply wrapping_inv_ok, call_err_inv_ok in H6. destruct H6 as [e3 [Hc Hst6]].
  apply wrapping_inv_ok, lift_inv_ok in H. destruct H as [Hread Hst'].
  subst. exists key, e1, pem, sshk, tlsPub, now, e2, certs, e3.
  repeat split; assumption.
Qed.

Lemma renewIdentity_renewable_inv cfg old st new st' :
  Renewable (TLSIdentity old) = true ->
  renewIdentity X cfg old st = (Ok new, st') ->
  exists c key pem now req certs,
    trace st' = trace st ++
      [EvBuild (identity_NewFacade (FIPS cfg) (Insecure (Connection cfg)) old)
         (inl c);
       EvGenerateKey (CurrentSuiteFromAuthPreference c) HostIdentity (inl key);
       EvNow now;
       EvGenerateUserCerts c req (inl certs);
       EvClose c] /\
    keys_MarshalPrivateKey X key = inl pem /\
    identity_ReadIdentityFromStore X
      {| P_PrivateKeyBytes := pem;
         P_PublicKeyBytes := SSHPublicKey req;
         P_TokenHashBytes := TokenHashBytes old |} certs = inl new.
Proof.
  intros Hren H. unfold renewIdentity in H. rewrite Hren in H.
  apply bind_inv_ok in H. destruct H as [c [st1 [H1 H]]].
  apply wrapping_inv_ok, call_err_inv_ok in H1. destruct H1 as [e0 [Hb Hst1]].
  apply deferring_inv in H. destruct H as [st2 [H Hst']].
  apply wrapping_inv_ok, botIdentityFromAuth_inv in H.
  destruct H as [key [e1 [pem [sshk [tlsPub [now [e2 [certs [e3 H]]]]]]]]].
  destruct H as [Hk [Hpem [Hssh [Htls [Hnow [Hcerts [Hread Hst2]]]]]]].
  exists c, key, pem, now,
    {| SSHPublicKey := ssh_MarshalAuthorizedKey X sshk;
       TLSPublicKey := tlsPub;
       Username := Subject_CommonName (X509Cert old);
       Expires := time_Add now (TTL cfg) |}, certs.
  split; [ | split; assumption ].
  subst st' st2 st1. unfold closeClient, call, after. simpl.
  rewrite <- !app_assoc. reflexivity.
Qed.

(** C6.  Provided that reading an identity keeps the private key and the
    token hash it is given: a successful renewal of a renewable identity
    builds a client around the old identity, has a new key generated with
    the suite currently set in the auth preference seen through that
    client, and returns an identity whose private key is the encoding of
    that new key and whose token hash is the old one.  The renewal call
    reads only the common name and the token hash of the old identity, so
    its private key cannot reach the new one.  A second renewal, of the
    identity just obtained, has a key generated again and uses that one:
    the two identities differ in their private keys as soon as the
    generator gave two different keys. *)
Theorem renewal_generates_new_key
    (cfg : Config) (old : Identity) (st : St Env) (new : Identity)
    (st' : St Env) :
  (forall p certs id,
     identity_ReadIdentityFromStore X p certs = inl id ->
     PrivateKeyBytes id = P_PrivateKeyBytes p /\
     TokenHashBytes id = P_TokenHashBytes p) ->
  Renewable (TLSIdentity old) = true ->
  renewIdentity X cfg old st = (Ok new, st') ->
  (exists c key now req certs,
     trace st' = trace st ++
       [EvBuild (identity_NewFacade (FIPS cfg) (Insecure (Connection cfg)) old)
          (inl c);
        EvGenerateKey (CurrentSuiteFromAuthPreference c) HostIdentity (inl key);
        EvNow now;
        EvGenerateUserCerts c req (inl certs);
        EvClose c] /\
     keys_MarshalPrivateKey X key = inl (PrivateKeyBytes new) /\
     TokenHashBytes new = TokenHashBytes old /\
     (forall new2 st2,
        Renewable (TLSIdentity new) = true ->
        renewIdentity X cfg new st' = (Ok new2, st2) ->
        exists c2 key2 now2 req2 certs2,
          trace st2 = trace st' ++
            [EvBuild
               (identity_NewFacade (FIPS cfg) (Insecure (Connection cfg)) new)
               (inl c2);
             EvGenerateKey (CurrentSuiteFromAuthPreference c2) HostIdentity
               (inl key2);
             EvNow now2;
             EvGenerateUserCerts c2 req2 (inl certs2);
             EvClose c2] /\
          keys_MarshalPrivateKey X key2 = inl (PrivateKeyBytes new2) /\
          TokenHashBytes new2 = TokenHashBytes old /\
          (keys_MarshalPrivateKey X key2 <> keys_MarshalPrivateKey X key ->
           PrivateKeyBytes new2 <> PrivateKeyBytes new))) /\
  (forall old' : Identity,
     Subject_CommonName (X509Cert old') = Subject_CommonName (X509Cert old) ->
     TokenHashBytes old' = TokenHashBytes old ->
     forall c ttl,
       botIdentityFromAuth X (Some old') c ttl
       = botIdentityFromAuth X (Some old) c ttl).
Proof.
  intros Hread Hren H.
  assert (Hone : forall o s n s',
    Renewable (TLSIdentity o) = true ->
    renewIdentity X cfg o s = (Ok n, s') ->
    exists c key now req certs,
      trace s' = trace s ++
        [EvBuild (identity_NewFacade (FIPS cfg) (Insecure (Connection cfg)) o)
           (inl c);
         EvGenerateKey (CurrentSuiteFromAuthPreference c) HostIdentity (inl key);
         EvNow now;
         EvGenerateUserCerts c req (inl certs);
         EvClose c] /\
      keys_MarshalPrivateKey X key = inl (PrivateKeyBytes n) /\
      TokenHashBytes n = TokenHashBytes o).
  { intros o s n s' Ho Hr.
    destruct (renewIdentity_renewable_inv _ _ _ _ _ Ho Hr)
      as [c [key [pem [now [req [certs [Htr [Hpem Hrd]]]]]]]].
    destruct (Hread _ _ _ Hrd) as [Hpk Hth]. simpl in Hpk, Hth.
    exists c, key, now, req, certs. rewrite Hpk, Hth. auto. }
  destruct (Hone _ _ _ _ Hren H) as [c [key [now [req [certs [Htr [Hpk Hth]]]]]]].
  split.
  - exists c, key, now, req, certs.
    split; [ exact Htr | ]. split; [ exact Hpk | ]. split; [ exact Hth | ].
    intros new2 st2 Hren2 H2.
    destruct (Hone _ _ _ _ Hren2 H2)
      as [c2 [key2 [now2 [req2 [certs2 [Htr2 [Hpk2 Hth2]]]]]]].
    exists c2, key2, now2, req2, certs2.
    split; [ exact Htr2 | ]. split; [ exact Hpk2 | ].
    split; [ rewrite Hth2, Hth; reflexivity | ].
    intros Hdiff Heq. apply Hdiff. rewrite Hpk2, Hpk, Heq. reflexivity.
  - intros old' Hcn Htok c' ttl. unfold botIdentityFromAuth.
    destruct c'; [ | reflexivity ]. rewrite Hcn, Htok. reflexivity.
Qed.

(** C10.  With the Env0 join method, the parameters for the registration
    get the audience tag "something", a constant of the code: it is what
    the switch on the join method sets, and it is what every registration
    sent by [botIdentityFromToken] carries, whatever the configuration
    holds otherwise.  With the Terraform Cloud method the tag is the one
    the configuration gives. *)
Theorem env0_audience_tag_is_constant
    (cfg : Config) (ac : option Client) :
  JoinMethod (Onboarding cfg) = JoinMethodEnv0 ->
  (forall p st,
     RP_JoinMethod p = JoinMethodEnv0 ->
     withJoinMethod X cfg p st
       = (Ok (None, set_Env0AudienceTag p "something"), st)) /\
  (forall st r st',
     botIdentityFromToken X cfg ac st = (r, st') ->
     exists new,
       trace st' = trace st ++ new /\
       forall p res,
         In (EvRegister p res) new -> Env0AudienceTag p = "something"%string) /\
  (forall cfg' p st,
     RP_JoinMethod p = JoinMethodTerraformCloud ->
     withJoinMethod X cfg' p st
       = (Ok (None,
              set_TerraformCloudAudienceTag p
                (Terraform_AudienceTag (Onboarding cfg'))), st)).
Proof.
  intros Hm. split; [ | split ].
  - intros p st Hp. unfold withJoinMethod. rewrite Hp. reflexivity.
  - intros st r st' E.
    destruct (botIdentityFromToken_emits X cfg ac _ _ _ E) as [[new [T F]] _].
    exists new. split; [ exact T | ].
    intros p res Hin. rewrite Forall_forall in F.
    specialize (F _ Hin). simpl in F.
    destruct F as [_ [_ [Henv0 _]]]. exact (Henv0 Hm).
  - intros cfg' p st Hp. unfold withJoinMethod. rewrite Hp. reflexivity.
Qed.

End KeyTheorems.

(** ** Persist before publish: the proofs *)

Lemma learn_incl known ev : incl known (learn known ev).
Proof.
  unfold learn. destruct (persists ev); [ apply incl_tl | ]; apply incl_refl.
Qed.

Lemma learn_mono known known' ev :
  incl known known' -> incl (learn known ev) (learn known' ev).
Proof.
  intros Hi. unfold learn. destruct (persists ev); [ | exact Hi ].
  intros x [Hx | Hx]; [ left; exact Hx | right; apply Hi; exact Hx ].
Qed.

Lemma fold_learn_incl tr : forall known, incl known (fold_left learn tr known).
Proof.
  induction tr as [ | ev tr IH ]; intros known; simpl.
  - apply incl_refl.
  - eapply incl_tran; [ apply learn_incl | apply IH ].
Qed.

Lemma fold_learn_In tr : forall known ev id,
  In ev tr -> persists ev = Some id -> In id (fold_left learn tr known).
Proof.
  induction tr as [ | ev0 tr IH ]; intros known ev id Hin Hp; simpl in *.
  - contradiction.
  - destruct Hin as [Heq | Hin].
    + subst ev0. apply fold_learn_incl. unfold learn. rewrite Hp. left.
      reflexivity.
    + eapply IH; eauto.
Qed.

Lemma published_are_persisted_mono tr : forall known known',
  incl known known' ->
  published_are_persisted known tr -> published_are_persisted known' tr.
Proof.
  induction tr as [ | ev tr IH ]; intros known known' Hi H; simpl in *.
  - exact I.
  - destruct H as [Hp Hrest]. split.
    + destruct (publishes ev); auto.
    + eapply IH; [ | exact Hrest ]. apply learn_mono. exact Hi.
Qed.

Lemma published_are_persisted_app tr1 : forall known tr2,
  published_are_persisted known tr1 ->
  published_are_persisted (fold_left learn tr1 known) tr2 ->
  published_are_persisted known (tr1 ++ tr2).
Proof.
  induction tr1 as [ | ev tr1 IH ]; intros known tr2 H1 H2; simpl in *.
  - exact H2.
  - destruct H1 as [Hp Hrest]. split; [ exact Hp | ]. apply IH; assumption.
Qed.

Lemma published_are_persisted_Forall tr : forall known,
  Forall (fun ev => match publishes ev with
                    | Some id => In id known
                    | None => True
                    end) tr ->
  published_are_persisted known tr.
Proof.
  induction tr as [ | ev tr IH ]; intros known HF; simpl.
  - exact I.
  - inversion HF as [ | ? ? Hev Htr ]; subst. split; [ exact Hev | ].
    apply IH. eapply Forall_impl; [ | exact Htr ].
    intros ev' Hev'. simpl in Hev'. destruct (publishes ev'); [ | exact I ].
    apply learn_incl. exact Hev'.
Qed.

Section PersistTheorems.

Context {Env : Type}.
Variable X : External Env.

Lemma Initialize_fallback_emits (old : Identity) :
  emits (fallback_event old) any (Initialize_fallback X old).
Proof.
  unfold Initialize_fallback.
  eapply emits_bind with (Q := any); [ apply emits_self | ].
  intros s _.
  eapply emits_bind with (Q := any).
  { apply emits_wrapping, emits_run, emits_call_err. intros; reflexivity. }
  intros c _.
  eapply emits_bind with (Q := any); [ apply emits_update | ].
  intros _ _. apply emits_run, emits_emit. reflexivity.
Qed.

Lemma tokenMismatch_total cfg loaded (st : St Env) :
  exists b st', tokenMismatch X cfg loaded st = (Ok b, st').
Proof.
  unfold tokenMismatch. destruct (Onboarding_HasToken X (Onboarding cfg)).
  - unfold bind, catch, call_err.
    destruct (Onboarding_Token X (Onboarding cfg) (env st)) as [[tok | e] e'];
      simpl; unfold ret; eauto.
  - unfold ret. eauto.
Qed.

Lemma loadIdentityFromStore_shape cfg d (st : St Env) :
  exists li valid st1 L,
    loadIdentityFromStore X cfg d st = (Ok (li, valid), st1) /\
    trace st1 = trace st ++ L /\
    Forall load_event L /\
    (forall old, li = Some old -> In (EvLoadIdentity d (inl old)) L).
Proof.
  destruct (loadIdentityFromStore X cfg d st) as [r st1] eqn:E.
  destruct (loadIdentityFromStore_emits X cfg d _ _ _ E) as [[L [T F]] _].
  unfold loadIdentityFromStore in E.
  unfold bind at 1 in E. unfold catch, call_err in E.
  destruct (identity_LoadIdentity X d (env st)) as [[loaded | err] e1] eqn:El.
  - destruct (tokenMismatch_total cfg loaded
                {| env := e1; chans := chans st;
                   trace := trace st ++ [EvLoadIdentity d (inl loaded)] |})
      as [b [st2 Et]].
    destruct (tokenMismatch_emits X cfg loaded _ _ _ Et) as [[L2 [T2 _]] _].
    erewrite bind_ok in E by exact Et.
    destruct b.
    + unfold ret in E. inversion E; subst.
      exists None, false, st1, L. repeat split; auto. intros; discriminate.
    + unfold bind, call, ret in E.
      destruct (time_Now X (env st2)) as [now e3].
      inversion E; subst.
      exists (Some loaded), (validAt now (X509Cert loaded)). eexists. exists L.
      split; [ reflexivity | ]. repeat split; auto.
      intros old Hold. inversion Hold; subst old.
      simpl in T. unfold trace_of, Traced_St in T2. simpl in T2.
      rewrite T2 in T. rewrite <- !app_assoc in T.
      apply app_inv_head in T. subst L. left. reflexivity.
  - destruct (trace_IsNotFound err); unfold ret in E; inversion E; subst;
      exists None, false; eexists; exists L;
      (split; [ reflexivity | ]); repeat split; auto; intros; discriminate.
Qed.

Lemma bind_panic {S A B} (m : M S A) (k : A -> M S B) st st' :
  m st = (Panic, st') -> bind m k st = (Panic, st').
Proof. intros E. unfold bind. rewrite E. reflexivity. Qed.

Lemma Initialize_publish_persisted id s (st : St Env) r p' :
  Initialize_publish X id (s, st) = (r, p') ->
  exists T,
    trace (snd p') = trace st ++ T /\
    forall known, published_are_persisted known T.
Proof.
  intros E. unfold Initialize_publish in E. rewrite self_bind in E.
  destruct (identity_SaveIdentity X id (Destination (s_cfg s)) (env st))
    as [[err | ] e1] eqn:Hs.
  - erewrite bind_err in E.
    2: { apply wrapping_err, run_eq. unfold call_unit. rewrite Hs. reflexivity. }
    inversion E; subst. simpl. eexists. split; [ reflexivity | ].
    intros known. simpl. auto.
  - erewrite bind_ok in E.
    2: { apply wrapping_ok, run_eq. unfold call_unit. rewrite Hs. reflexivity. }
    match type of E with
    | ?k ?p = _ => assert (Hem : emits (publish_event id) any k)
    end.
    { eapply emits_bind with (Q := any).
      { apply emits_wrapping, emits_run, emits_call_err. intros; reflexivity. }
      intros c _.
      eapply emits_bind with (Q := any); [ apply emits_update | ].
      intros _ _.
      eapply emits_bind with (Q := any).
      { apply emits_run, emits_emit. reflexivity. }
      intros _ _.
      eapply emits_bind with (Q := any).
      { apply unblockWaiters_emits; intros; exact I. }
      intros _ _. apply emits_run, emits_emit. exact I. }
    destruct (Hem _ _ _ E) as [[new [T F]] _].
    unfold trace_of, Traced_Meth in T. simpl in T.
    exists (EvSaveIdentity id (Destination (s_cfg s)) None :: new).
    split; [ rewrite T, <- app_assoc; reflexivity | ].
    intros known. simpl. split; [ exact I | ].
    apply published_are_persisted_Forall.
    eapply Forall_impl; [ | exact F ].
    intros ev Hev. destruct ev; simpl in *; auto; try contradiction;
      left; auto.
Qed.

Lemma quiet_persisted (P : Event -> Prop) tr known :
  (forall ev, P ev -> publishes ev = None) ->
  Forall P tr -> published_are_persisted known tr.
Proof.
  intros HP HF. apply published_are_persisted_Forall.
  eapply Forall_impl; [ | exact HF ].
  intros ev Hev. simpl. rewrite (HP ev Hev). exact I.
Qed.

Lemma load_event_quiet ev : load_event ev -> publishes ev = None.
Proof. destruct ev; simpl; intros H; auto; contradiction. Qed.

Lemma join_event_quiet okp ev : join_event okp ev -> publishes ev = None.
Proof. destruct ev; simpl; intros H; auto; contradiction. Qed.

Lemma renewal_event_quiet cfg old ev :
  renewal_event cfg old ev -> publishes ev = None.
Proof. destruct ev; simpl; intros H; auto; contradiction. Qed.

Lemma Initialize_persisted (s : Service) (st : St Env) :
  exists new,
    trace (snd (snd (Initialize X (s, st)))) = trace st ++ new /\
    published_are_persisted [] new.
Proof.
  destruct (loadIdentityFromStore_shape (s_cfg s) (Destination (s_cfg s)) st)
    as [li [valid [st1 [L [El [TL [FL HL]]]]]]].
  assert (PL : forall known, published_are_persisted known L)
    by (intros; eapply quiet_persisted; [ apply load_event_quiet | exact FL ]).
  unfold Initialize. rewrite self_bind.
  erewrite bind_ok by (apply run_eq; exact El). cbv beta iota.
  destruct (negb valid && negb (Onboarding_HasToken X (Onboarding (s_cfg s)))).
  { exists L. simpl. auto. }
  destruct li as [old | ].
  - (* an identity was loaded *)
    set (attempt := if valid
                    then renewIdentity X (s_cfg s) old
                    else botIdentityFromToken X (s_cfg s) None).
    destruct (attempt st1) as [ra st2] eqn:Ea.
    assert (HA : exists A, trace st2 = trace st1 ++ A /\
                           forall known, published_are_persisted known A).
    { subst attempt. destruct valid.
      - destruct (renewIdentity_emits X _ _ _ _ _ Ea) as [[A [TA FA]] _].
        exists A. split; [ exact TA | ]. intros.
        eapply quiet_persisted; [ apply renewal_event_quiet | exact FA ].
      - destruct (botIdentityFromToken_emits X _ _ _ _ _ Ea) as [[A [TA FA]] _].
        exists A. split; [ exact TA | ]. intros.
        eapply quiet_persisted; [ apply join_event_quiet | exact FA ]. }
    destruct HA as [A [TA PA]].
    destruct ra as [newIdentity | err | ].
    + erewrite bind_ok by (apply catch_ok, run_eq; exact Ea). cbv beta iota.
      destruct (Initialize_publish X newIdentity (s, st2)) as [r p'] eqn:Ep.
      destruct (Initialize_publish_persisted _ _ _ _ _ Ep) as [T [TT PT]].
      exists (L ++ A ++ T). simpl. rewrite TT, TA, TL, <- !app_assoc.
      split; [ reflexivity | ].
      apply published_are_persisted_app; [ apply PL | ].
      apply published_are_persisted_app; [ apply PA | apply PT ].
    + erewrite bind_ok by (apply catch_err, run_eq; exact Ea). cbv beta iota.
      destruct (Initialize_fallback X old (s, st2)) as [r p'] eqn:Ef.
      destruct (Initialize_fallback_emits old _ _ _ Ef) as [[T [TT FT]] _].
      unfold trace_of, Traced_Meth in TT. simpl in TT.
      exists (L ++ A ++ T). simpl. rewrite TT, TA, TL, <- !app_assoc.
      split; [ reflexivity | ].
      apply published_are_persisted_app; [ apply PL | ].
      apply published_are_persisted_app; [ apply PA | ].
      apply published_are_persisted_Forall.
      eapply Forall_impl; [ | exact FT ].
      intros ev Hev.
      assert (Hold : In old (fold_left learn A (fold_left learn L []))).
      { apply fold_learn_incl.
        eapply fold_learn_In; [ apply HL; reflexivity | reflexivity ]. }
      destruct ev; simpl in *; auto; try contradiction.
      rewrite Hev. exact Hold.
    + erewrite bind_panic by (unfold catch, run; simpl; rewrite Ea; reflexivity).
      exists (L ++ A). simpl. rewrite TA, TL, <- !app_assoc.
      split; [ reflexivity | ].
      apply published_are_persisted_app; [ apply PL | apply PA ].
  - (* nothing usable in the store *)
    destruct (botIdentityFromToken X (s_cfg s) None st1) as [ra st2] eqn:Ea.
    destruct (botIdentityFromToken_emits X _ _ _ _ _ Ea) as [[A [TA FA]] _].
    unfold trace_of, Traced_St in TA.
    assert (PA : forall known, published_are_persisted known A)
      by (intros; eapply quiet_persisted; [ apply join_event_quiet | exact FA ]).
    destruct ra as [newIdentity | err | ].
    + erewrite bind_ok by (apply wrapping_ok, run_eq; exact Ea).
      destruct (Initialize_publish X newIdentity (s, st2)) as [r p'] eqn:Ep.
      destruct (Initialize_publish_persisted _ _ _ _ _ Ep) as [T [TT PT]].
      exists (L ++ A ++ T). simpl. rewrite TT, TA, TL, <- !app_assoc.
      split; [ reflexivity | ].
      apply published_are_persisted_app; [ apply PL | ].
      apply published_are_persisted_app; [ apply PA | apply PT ].
    + erewrite bind_err by (apply wrapping_err, run_eq; exact Ea).
      exists (L ++ A). simpl. rewrite TA, TL, <- !app_assoc.
      split; [ reflexivity | ].
      apply published_are_persisted_app; [ apply PL | apply PA ].
    + erewrite bind_panic
        by (unfold wrapping, run; simpl; rewrite Ea; reflexivity).
      exists (L ++ A). simpl. rewrite TA, TL, <- !app_assoc.
      split; [ reflexivity | ].
      apply published_are_persisted_app; [ apply PL | apply PA ].
Qed.

End PersistTheorems.

Section OrderTheorem.

Context {Env : Type}.
Variable X : External Env.

(** C1, as amended.  [Initialize] publishes an identity only after it is
    durable: a new identity is assigned to the facade of the service only
    after [SaveIdentity] returned without error (the fall-back publishes
    the identity that came from the store).  The renewal cycle goes the
    other way round: once [renewIdentity] has succeeded, [Set] is called on
    the facade first and [SaveIdentity] after it, so the facade holds the
    new identity when [renew] returns whatever the save returned, and a
    failed save is the error of the cycle. *)
Theorem persist_and_publish_order :
  (forall (s : Service) (st : St Env),
     exists new,
       trace (snd (snd (Initialize X (s, st)))) = trace st ++ new /\
       published_are_persisted [] new) /\
  (forall (s : Service) (f : Facade) (d : destination_Destination)
          (st : St Env) (e1 : Env) (newIdentity : Identity) (st2 : St Env),
     s_facade s = Some f ->
     identity_VerifyWrite X d (env st) = (None, e1) ->
     renewIdentity X (s_cfg s) (Facade_Get f)
       (after st e1 (EvVerifyWrite d None)) = (Ok newIdentity, st2) ->
     exists res e3,
       identity_SaveIdentity X newIdentity d (env st2) = (res, e3) /\
       renew X d (s, st) =
         (match res with
          | None => Ok tt
          | Some err => Err (trace_Wrap err "saving new identity")
          end,
          (set_facade (Facade_Set f newIdentity) s,
           after (after st2 (env st2) (EvFacadeSet newIdentity)) e3
             (EvSaveIdentity newIdentity d res)))).
Proof.
  split; [ apply Initialize_persisted | ].
  intros s f d st e1 newIdentity st2 Hf Hv Hr.
  destruct (identity_SaveIdentity X newIdentity d (env st2)) as [res e3] eqn:Hs.
  exists res, e3. split; [ reflexivity | ].
  unfold renew. rewrite self_bind, Hf.
  erewrite bind_ok.
  2: { apply wrapping_ok, run_eq. unfold call_unit. rewrite Hv. reflexivity. }
  erewrite bind_ok by (apply wrapping_ok, run_eq; exact Hr).
  unfold bind at 1. unfold update at 1. cbv beta iota. simpl fst. simpl snd.
  unfold bind at 1. unfold run at 1, emit at 1. cbv beta iota.
  simpl fst. simpl snd.
  unfold wrapping, run, call_unit. simpl fst. simpl snd. simpl env.
  rewrite Hs. destruct res; reflexivity.
Qed.

End OrderTheorem.

(** ** The theorems at work on the concrete world *)

Module Checks.

Import TestWorld.
Local Open Scope string_scope.
Local Open Scope list_scope.

(** C1 as stated fails on the renewal cycle: with a destination that
    passes the check and then fails to save, [renew] returns the error of
    the save, yet the facade already holds the new identity, which never
    reached the store; [Set] came before any save. *)
Lemma renew_publishes_before_saving :
  let out :=
    renew world "memory"
      (running_service cfgToken idRenewable,
       start (save_fails (test_env 150 (Some idRenewable)))) in
  fst out = Err (trace_Wrap err_unwritable "saving new identity") /\
  option_map Facade_Get (s_facade (fst (snd out))) = Some (renewed 0) /\
  stored (env (snd (snd out))) = Some idRenewable /\
  renewed 0 <> idRenewable /\
  ~ published_are_persisted [idRenewable] (trace (snd (snd out))).
Proof.
  cbv zeta. repeat split; try reflexivity.
  - intros H. discriminate H.
  - vm_compute. intros H. decompose [and] H.
    repeat match goal with
           | H : _ \/ _ |- _ => destruct H
           | H : False |- _ => contradiction
           | H : _ = _ |- _ => discriminate H
           end.
Qed.

Lemma persist_and_publish_order_witness :
  exists res e3,
    identity_SaveIdentity world (renewed 0) "memory"
      (with_key (with_client (save_fails (test_env 150 (Some idRenewable)))))
      = (res, e3) /\
    renew world "memory"
      (running_service cfgToken idRenewable,
       start (save_fails (test_env 150 (Some idRenewable)))) =
      (match res with
       | None => Ok tt
       | Some err => Err (trace_Wrap err "saving new identity")
       end,
       (set_facade
          (Facade_Set (identity_NewFacade false false idRenewable) (renewed 0))
          (running_service cfgToken idRenewable),
        after
          (after
             (snd (renewIdentity world cfgToken idRenewable
                     (after (start (save_fails (test_env 150 (Some idRenewable))))
                        (save_fails (test_env 150 (Some idRenewable)))
                        (EvVerifyWrite "memory" None))))
             (with_key (with_client
                (save_fails (test_env 150 (Some idRenewable)))))
             (EvFacadeSet (renewed 0)))
          e3 (EvSaveIdentity (renewed 0) "memory" res))).
Proof.
  apply (proj2 (persist_and_publish_order world)
           (running_service cfgToken idRenewable)
           (identity_NewFacade false false idRenewable) "memory"
           (start (save_fails (test_env 150 (Some idRenewable))))
           (save_fails (test_env 150 (Some idRenewable)))
           (renewed 0)
           (snd (renewIdentity world cfgToken idRenewable
                   (after (start (save_fails (test_env 150 (Some idRenewable))))
                      (save_fails (test_env 150 (Some idRenewable)))
                      (EvVerifyWrite "memory" None)))));
    reflexivity.
Defined.

(** C2 at work: the store holds an identity obtained with "tok-A", the
    configuration now says "tok-B". *)
Lemma token_change_discards_stored_identity_witness :
  loadIdentityFromStore world cfgB "memory" (start (test_env 150 (Some idA)))
    = (Ok (None, false),
       after (after (start (test_env 150 (Some idA))) (test_env 150 (Some idA))
                (EvLoadIdentity "memory" (inl idA)))
         (test_env 150 (Some idA)) (EvToken (inl "tok-B"))) /\
  Initialize world (fresh_service cfgB, start (test_env 150 (Some idA))) =
    bind (wrapping "joining with token"
            (run (botIdentityFromToken world cfgB None)))
      (Initialize_publish world)
      (fresh_service cfgB,
       after (after (start (test_env 150 (Some idA))) (test_env 150 (Some idA))
                (EvLoadIdentity "memory" (inl idA)))
         (test_env 150 (Some idA)) (EvToken (inl "tok-B"))) /\
  (exists new,
     trace (snd (snd (Initialize world
                        (fresh_service cfgB, start (test_env 150 (Some idA))))))
       = trace (start (test_env 150 (Some idA))) ++ new /\
     Forall unauthenticated_event new) /\
  (forall a b : bytes, a = [] \/ b = [] -> hasTokenChanged a b = false).
Proof.
  apply (token_change_discards_stored_identity world
           (fresh_service cfgB) (start (test_env 150 (Some idA))) idA
           (test_env 150 (Some idA)) "tok-B" (test_env 150 (Some idA)));
    try reflexivity; intros H; discriminate H.
Defined.

(** C3 at work: the stored identity has expired (the clock says 999, the
    certificate ends at 200) and the auth server is down. *)
Lemma Initialize_falls_back_to_old_identity_witness :
  exists s' st',
    Initialize world
      (fresh_service cfgA, start (auth_down (test_env 999 (Some idA))))
      = (Ok tt, (s', st')) /\
    option_map Facade_Get (s_facade s') = Some idA /\
    s_facade s' = Some (identity_NewFacade false false idA) /\
    s_client s' = Some 0%nat.
Proof.
  eapply (Initialize_falls_back_to_old_identity world
            (fresh_service cfgA)
            (start (auth_down (test_env 999 (Some idA)))) idA false).
  - vm_compute. reflexivity.
  - intros _. reflexivity.
  - vm_compute. reflexivity.
  - vm_compute. reflexivity.
Defined.

(** C4 at work: an empty store and no token. *)
Lemma Initialize_without_identity_or_token_witness :
  exists st1,
    Initialize world (fresh_service cfgNone, start (test_env 150 None))
      = (Err (trace_BadParameter msg_no_identity_or_token),
         (fresh_service cfgNone, st1)) /\
    trace_IsBadParameter (trace_BadParameter msg_no_identity_or_token) = true /\
    exists new,
      trace st1 = trace (start (test_env 150 None)) ++ new /\
      Forall load_event new.
Proof.
  eexists.
  eapply (Initialize_without_identity_or_token world
            (fresh_service cfgNone) (start (test_env 150 None)) None);
    reflexivity.
Defined.

(** C5 at work, on the boundary: the clock reads 200 and the certificate
    ends at 200. *)
Lemma loadIdentityFromStore_validity_witness :
  exists valid st3,
    loadIdentityFromStore world cfgA "memory" (start (test_env 200 (Some idA)))
      = (Ok (Some idA, valid), st3) /\
    (valid = true <->
       NotBefore (X509Cert idA) <= 200 <= NotAfter (X509Cert idA)) /\
    (valid = false <->
       NotAfter (X509Cert idA) < 200 \/ 200 < NotBefore (X509Cert idA)).
Proof.
  eapply (loadIdentityFromStore_validity world cfgA "memory"
            (start (test_env 200 (Some idA))) idA);
    vm_compute; reflexivity.
Defined.

(** C6 at work: a renewable identity renewed twice in a row; the keys
    of the two new identities differ. *)
Lemma renewal_generates_new_key_witness :
  let st0 := start (test_env 150 (Some idRenewable)) in
  let st1 := snd (renewIdentity world cfgToken idRenewable st0) in
  let st2 := snd (renewIdentity world cfgToken (renewed 0) st1) in
  renewIdentity world cfgToken idRenewable st0 = (Ok (renewed 0), st1) /\
  renewIdentity world cfgToken (renewed 0) st1 = (Ok (renewed 1), st2) /\
  TokenHashBytes (renewed 0) = TokenHashBytes idRenewable /\
  TokenHashBytes (renewed 1) = TokenHashBytes idRenewable /\
  PrivateKeyBytes (renewed 1) <> PrivateKeyBytes (renewed 0).
Proof.
  cbv zeta.
  split; [ reflexivity | ]. split; [ reflexivity | ].
  destruct (renewal_generates_new_key world cfgToken idRenewable
              (start (test_env 150 (Some idRenewable))) (renewed 0)
              (snd (renewIdentity world cfgToken idRenewable
                      (start (test_env 150 (Some idRenewable)))))
              (fun p certs id H =>
                 match H in (_ = r)
                   return match r with
                          | inl id' =>
                              PrivateKeyBytes id' = P_PrivateKeyBytes p /\
                              TokenHashBytes id' = P_TokenHashBytes p
                          | inr _ => True
                          end
                 with eq_refl => conj eq_refl eq_refl end)
              eq_refl eq_refl)
    as [[c [key [now [req [certs [Htr [Hpk [Hth Hnext]]]]]]]] _].
  split; [ exact Hth | ].
  destruct (Hnext (renewed 1)
              (snd (renewIdentity world cfgToken (renewed 0)
                      (snd (renewIdentity world cfgToken idRenewable
                              (start (test_env 150 (Some idRenewable)))))))
              eq_refl eq_refl)
    as [c2 [key2 [now2 [req2 [certs2 [Htr2 [Hpk2 [Hth2 Hdiff]]]]]]]].
  split; [ exact Hth2 | ].
  apply Hdiff. rewrite Hpk2, Hpk. intros Heq. discriminate Heq.
Defined.

(** C7 at work: an identity that is not renewable and has not expired;
    the registration carries the client built around it. *)
Lemma renewIdentity_lightweight_witness :
  renewIdentity world cfgA idA (start (test_env 150 (Some idA))) =
    deferring (closeClient world 0%nat)
      (wrapping "renewing identity using Register with existing auth client"
         (botIdentityFromToken world cfgA (Some 0%nat)))
      (after (after (start (test_env 150 (Some idA)))
                (with_client (test_env 150 (Some idA)))
                (EvBuild (identity_NewFacade false false idA) (inl 0%nat)))
         (with_client (test_env 150 (Some idA))) (EvNow 150)) /\
  exists mid,
    trace (snd (renewIdentity world cfgA idA
                  (start (test_env 150 (Some idA))))) =
      trace (start (test_env 150 (Some idA))) ++
      [EvBuild (identity_NewFacade false false idA) (inl 0%nat); EvNow 150] ++
      mid ++ [EvClose 0%nat] /\
    Forall (join_event (registerParamsOf cfgA (Some 0%nat))) mid.
Proof.
  apply (proj1 (renewIdentity_lightweight world cfgA idA
                  (start (test_env 150 (Some idA))) 0%nat
                  (with_client (test_env 150 (Some idA))) 150
                  (with_client (test_env 150 (Some idA)))
                  eq_refl eq_refl eq_refl) 200 eq_refl).
  discriminate.
Defined.

(** C8 at work: three triggers among reads of the gate. *)
Lemma readiness_gate_idempotent_witness :
  let ops := [OpIsReady; OpUnblockWaiters; OpReady; OpUnblockWaiters;
              OpIsReady; OpUnblockWaiters; OpReady] in
  exists obs s' st',
    gate_run ops (fresh_service cfgA, start (test_env 150 None))
      = (Ok obs, (s', st')) /\
    obs = gate_spec 0 false ops /\
    (forall c, In (ObsChan c) obs -> c = 0%nat) /\
    (forall pre post,
       ops = pre ++ OpIsReady :: post ->
       nth_error obs (List.length pre)
         = Some (ObsBool (existsb isUnblock pre))) /\
    closes (trace st') = 1%nat /\
    s_initializedOnce s' = true.
Proof.
  apply (readiness_gate_idempotent world cfgA (fresh_service cfgA)
           (start (test_env 150 None))
           [OpIsReady; OpUnblockWaiters; OpReady; OpUnblockWaiters;
            OpIsReady; OpUnblockWaiters; OpReady]).
  reflexivity.
Defined.

(** C9 at work: a destination that has become read-only. *)
Lemma renew_checks_destination_first_witness :
  (exists res rest,
     trace (snd (snd (renew world "memory"
                        (running_service cfgA idA,
                         start (read_only (test_env 150 (Some idA)))))))
       = trace (start (read_only (test_env 150 (Some idA))))
         ++ EvVerifyWrite "memory" res :: rest) /\
  (forall err e1,
     identity_VerifyWrite world "memory"
       (env (start (read_only (test_env 150 (Some idA))))) = (Some err, e1) ->
     renew world "memory"
       (running_service cfgA idA, start (read_only (test_env 150 (Some idA))))
       = (Err (trace_Wrap err (msg_cannot_write "memory")),
          (running_service cfgA idA,
           after (start (read_only (test_env 150 (Some idA)))) e1
             (EvVerifyWrite "memory" (Some err))))).
Proof.
  apply (renew_checks_destination_first world (running_service cfgA idA)
           (identity_NewFacade false false idA) "memory"
           (start (read_only (test_env 150 (Some idA))))).
  reflexivity.
Defined.

(** C10 at work: an Env0 configuration, whose Terraform tag is "tfc-tag". *)
Lemma env0_audience_tag_is_constant_witness :
  Terraform_AudienceTag (Onboarding cfgEnv0) = "tfc-tag" /\
  exists new,
    trace (snd (botIdentityFromToken world cfgEnv0 None
                  (start (test_env 150 None))))
      = trace (start (test_env 150 None)) ++ new /\
    (forall p res, In (EvRegister p res) new -> Env0AudienceTag p = "something") /\
    (exists p res, In (EvRegister p res) new).
Proof.
  split; [ reflexivity | ].
  destruct (proj1 (proj2 (env0_audience_tag_is_constant world cfgEnv0 None
                            eq_refl))
              (start (test_env 150 None)) _ _ eq_refl) as [new [T Hall]].
  exists new. split; [ exact T | ]. split; [ exact Hall | ].
  vm_compute in T. rewrite <- T.
  eexists. eexists. right. right. left. reflexivity.
Defined.

End Checks.

(** * Further properties of the service *)

(** ** The token comparison *)

(** X1.  [hasTokenChanged] answers "changed" exactly when both hashes are
    present and differ, and it does not matter which of the two is passed
    first: [loadIdentityFromStore] passes the identity's hash where the
    parameter list names the configured one. *)
Theorem hasTokenChanged_spec (a b : bytes) :
  (hasTokenChanged a b = true <-> a <> [] /\ b <> [] /\ a <> b) /\
  hasTokenChanged a b = hasTokenChanged b a.
Proof.
  split.
  - split.
    + intros H. unfold hasTokenChanged in H.
      destruct a as [ | x a ]; [ discriminate | ].
      destruct b as [ | y b ]; [ discriminate | ].
      simpl in H. repeat split; try discriminate.
      intros Heq. apply negb_true_iff in H.
      assert (Ht : bytes_Equal (y :: b) (x :: a) = true)
        by (apply bytes_Equal_eq; congruence).
      simpl in Ht. congruence.
    + intros [Ha [Hb Hab]]. apply hasTokenChanged_differ; assumption.
  - unfold hasTokenChanged.
    destruct a as [ | x a ], b as [ | y b ]; try reflexivity.
    simpl bytes_empty. simpl orb. cbv iota. f_equal.
    destruct (bytes_Equal (y :: b) (x :: a)) eqn:E1;
      destruct (bytes_Equal (x :: a) (y :: b)) eqn:E2; try reflexivity.
    + apply bytes_Equal_eq in E1.
      assert (bytes_Equal (x :: a) (y :: b) = true)
        by (apply bytes_Equal_eq; congruence). congruence.
    + apply bytes_Equal_eq in E2.
      assert (bytes_Equal (y :: b) (x :: a) = true)
        by (apply bytes_Equal_eq; congruence). congruence.
Qed.

(** ** Reading any run backwards *)

Section MoreInversions.

Context {Env : Type}.

Lemma call_err_inv {A} (f : Env -> (A + error) * Env) ev (st : St Env) r st' :
  call_err f ev st = (r, st') ->
  exists x e',
    f (env st) = (x, e') /\ st' = after st e' (ev x) /\
    r = match x with inl a => Ok a | inr e => Err e end.
Proof.
  unfold call_err. destruct (f (env st)) as [[a | e] e']; intros E;
    inversion E; subst; eauto.
Qed.

Lemma wrapping_inv {S A} msg (m : M S A) st r st' :
  wrapping msg m st = (r, st') ->
  exists r0,
    m st = (r0, st') /\
    r = match r0 with
        | Ok a => Ok a
        | Err e => Err (trace_Wrap e msg)
        | Panic => Panic
        end.
Proof.
  unfold wrapping. destruct (m st) as [[a | e | ] st1]; intros E;
    inversion E; subst; eauto.
Qed.

End MoreInversions.

(** ** The two phases of a join: the proofs *)

Section PhaseLemmas.

Context {Env : Type}.
Variable X : External Env.

Ltac peel :=
  match goal with
  | |- context [ wrapping ?msg ?m ?st ] =>
      destruct (wrapping msg m st) as [[? | ? | ] ?]
  | |- context [ @call ?E ?A ?f ?ev ?st ] =>
      destruct (@call E A f ev st) as [[? | ? | ] ?]
  | |- context [ withAddress ?Y ?c ?p ?st ] =>
      destruct (withAddress Y c p st) as [[? | ? | ] ?]
  | |- context [ withJoinMethod ?Y ?c ?p ?st ] =>
      destruct (withJoinMethod Y c p st) as [[[? ?] | ? | ] ?]
  end; cbv beta iota; try reflexivity.

Lemma botIdentityFromToken_phases cfg ac (st : St Env) :
  botIdentityFromToken X cfg ac st
  = bind (register_phase X cfg ac) (identity_phase X) st.
Proof.
  unfold botIdentityFromToken, register_phase, identity_phase.
  unfold bind, ret.
  do 4 peel. peel.
Qed.


Lemma wrapped_call_err_inv {A} msg (f : Env -> (A + error) * Env) ev
    (st : St Env) r st' :
  wrapping msg (call_err f ev) st = (r, st') ->
  exists x e',
    f (env st) = (x, e') /\ st' = after st e' (ev x) /\
    r = match x with inl a => Ok a | inr e => Err (trace_Wrap e msg) end.
Proof.
  intros E. apply wrapping_inv in E. destruct E as [r0 [E Hr]].
  apply call_err_inv in E. destruct E as [x [e' [Hf [Hst Hr0]]]].
  exists x, e'. subst. destruct x; auto.
Qed.

Lemma withAddress_inv cfg p (st : St Env) r st' :
  withAddress X cfg p st = (r, st') ->
  st' = st /\
  match r with
  | Ok p' =>
      match AddressKind (Connection cfg) with
      | AddressKindAuth =>
          exists a, utils_ParseAddr X (Address (Connection cfg)) = inl a /\
                    p' = set_AuthServers p [a]
      | AddressKindProxy =>
          exists a, utils_ParseAddr X (Address (Connection cfg)) = inl a /\
                    p' = set_ProxyServer p a
      | AddressKindUnspecified => False
      end
  | Err e =>
      match AddressKind (Connection cfg) with
      | AddressKindUnspecified =>
          e = trace_BadParameter "unsupported address kind"
      | _ =>
          exists e0, utils_ParseAddr X (Address (Connection cfg)) = inr e0 /\
                     e = trace_Wrap e0 "failed to parse addr"
      end
  | Panic => False
  end.
Proof.
  unfold withAddress. destruct (AddressKind (Connection cfg));
    unfold bind, wrapping, lift, ret, fail;
    try destruct (utils_ParseAddr X (Address (Connection cfg))) as [a | e0];
    intros E; inversion E; subst; split; eauto.
Qed.

Lemma withJoinMethod_inv cfg p (st : St Env) r st' :
  withJoinMethod X cfg p st = (r, st') ->
  exists lcs,
    trace st' = trace st ++ lcs /\
    Forall isLoadClientState lcs /\
    (RP_JoinMethod p <> JoinMethodBoundKeypair -> lcs = []) /\
    match r with
    | Ok (bks, p') =>
        (bks <> None <-> RP_JoinMethod p = JoinMethodBoundKeypair) /\
        match RP_JoinMethod p with
        | JoinMethodAzure =>
            p' = set_AzureParams p (Azure_ClientID (Onboarding cfg))
        | JoinMethodTerraformCloud =>
            p' = set_TerraformCloudAudienceTag p
                   (Terraform_AudienceTag (Onboarding cfg))
        | JoinMethodEnv0 => p' = set_Env0AudienceTag p "something"
        | JoinMethodGitLab =>
            p' = set_GitlabParams p (Gitlab_TokenEnvVarName (Onboarding cfg))
        | JoinMethodBoundKeypair =>
            exists b, bks = Some b /\
              p' = set_BoundKeypairParams p
                     (ClientState_ToJoinParams X b
                        (BoundKeypair_RegistrationSecret (Onboarding cfg)))
        | _ => p' = p
        end
    | Err e => RP_JoinMethod p = JoinMethodBoundKeypair
    | Panic => False
    end.
Proof.
  unfold withJoinMethod.
  destruct (RP_JoinMethod p) eqn:Em;
    try (unfold ret; intros E; inversion E; subst; exists [];
         rewrite app_nil_r; repeat split; auto;
         try (intros H; exfalso; apply H; reflexivity);
         intros; discriminate).
  intros E. unfold bind at 1 in E. unfold catch, call_err in E.
  destruct (boundkeypair_LoadClientState X (Destination cfg) (env st))
    as [[loaded | err] e1].
  - unfold bind, ret in E. inversion E; subst. eexists.
    split; [ reflexivity | ]. split; [ repeat constructor | ].
    split; [ intros H; exfalso; apply H; reflexivity | ].
    split; [ split; intros; [ reflexivity | discriminate ] | ].
    eauto.
  - unfold bind in E.
    destruct (trace_IsNotFound err &&
              negb (String.eqb (BoundKeypair_RegistrationSecret (Onboarding cfg))
                      "")).
    + unfold ret in E. inversion E; subst. eexists.
      split; [ reflexivity | ]. split; [ repeat constructor | ].
      split; [ intros H; exfalso; apply H; reflexivity | ].
      split; [ split; intros; [ reflexivity | discriminate ] | ].
      eauto.
    + unfold fail in E. inversion E; subst. eexists.
      split; [ reflexivity | ]. split; [ repeat constructor | ].
      split; [ intros H; exfalso; apply H; reflexivity | reflexivity ].
Qed.


Lemma register_phase_shape cfg ac (st : St Env) r st' :
  register_phase X cfg ac st = (r, st') ->
  exists new,
    trace st' = trace st ++ new /\
    ((Forall early_event new /\
      (JoinMethod (Onboarding cfg) <> JoinMethodBoundKeypair ->
       Forall (fun ev => ~ isLoadClientState ev) new) /\
      exists e, r = Err e) \/
     (exists tok e1 now lcs p res bks,
        Onboarding_Token X (Onboarding cfg) (env st) = (inl tok, e1) /\
        new = EvToken (inl tok) :: EvNow now :: lcs ++ [EvRegister p res] /\
        Forall isLoadClientState lcs /\
        (JoinMethod (Onboarding cfg) <> JoinMethodBoundKeypair -> lcs = []) /\
        (bks <> None <-> JoinMethod (Onboarding cfg) = JoinMethodBoundKeypair) /\
        requestFor cfg ac tok now p /\
        addressedPer X cfg p /\
        methodParamsPer cfg p /\
        r = match res with
            | inl rr => Ok (bks, p, rr)
            | inr e => Err (trace_Wrap e "")
            end)).
Proof.
  intros E. unfold register_phase in E.
  unfold bind at 1 in E.
  destruct (wrapping "" (call_err (Onboarding_Token X (Onboarding cfg)) EvToken) st)
    as [r1 st1] eqn:E1.
  apply wrapped_call_err_inv in E1. destruct E1 as [x [e1 [Htok [Hst1 Hr1]]]].
  destruct x as [tok | err]; subst r1.
  2: { inversion E; subst. eexists. split; [ reflexivity | ].
       left. split; [ repeat constructor | ].
       split; [ intros _; repeat constructor; intros H; exact H | eauto ]. }
  unfold bind at 1 in E.
  destruct (call (time_Now X) EvNow st1) as [r2 st2] eqn:E2.
  apply call_inv in E2. destruct E2 as [now [e2 [_ [Hr2 Hst2]]]]. subst r2.
  cbv beta iota zeta in E.
  set (p0 := match ac with
             | Some c =>
                 set_AuthClient
                   (defaultParams cfg tok (time_Add now (TTL cfg))) (Some c)
             | None => defaultParams cfg tok (time_Add now (TTL cfg))
             end) in E.
  assert (Hp0 : requestFor cfg ac tok now p0 /\
                AuthServers p0 = [] /\ ProxyServer p0 = None /\
                AzureParams_ClientID p0 = EmptyString /\
                TerraformCloudAudienceTag p0 = EmptyString /\
                Env0AudienceTag p0 = EmptyString /\
                GitlabParams_EnvVarName p0 = EmptyString /\
                BoundKeypairParams p0 = None).
  { subst p0. unfold requestFor. destruct ac; simpl; repeat split; reflexivity. }
  clearbody p0.
  unfold bind at 1 in E.
  destruct (withAddress X cfg p0 st2) as [r3 st3] eqn:E3.
  apply withAddress_inv in E3. destruct E3 as [Hst3 H3]. subst st3.
  destruct r3 as [p1 | e | ]; [ | | contradiction ].
  2: { inversion E; subst. eexists. split.
       - unfold after. simpl. rewrite <- app_assoc. reflexivity.
       - left. split; [ repeat constructor | ].
         split; [ intros _; repeat constructor; intros H; exact H | eauto ]. }
  assert (Hp1 : requestFor cfg ac tok now p1 /\ addressedPer X cfg p1 /\
                AzureParams_ClientID p1 = EmptyString /\
                TerraformCloudAudienceTag p1 = EmptyString /\
                Env0AudienceTag p1 = EmptyString /\
                GitlabParams_EnvVarName p1 = EmptyString /\
                BoundKeypairParams p1 = None).
  { destruct Hp0 as [Hreq [Has [Hps Hrest]]]. unfold addressedPer.
    unfold requestFor in *.
    destruct (AddressKind (Connection cfg)); [ contradiction | | ];
      destruct H3 as [a [Hpa Hp1]]; subst p1; simpl;
      (split; [ exact Hreq | ]); (split; [ eauto | exact Hrest ]). }
  clear Hp0 H3.
  unfold bind at 1 in E.
  destruct (withJoinMethod X cfg p1 st2) as [r4 st4] eqn:E4.
  apply withJoinMethod_inv in E4. destruct E4 as [lcs [T4 [F4 [Hn4 H4]]]].
  assert (Hm : RP_JoinMethod p1 = JoinMethod (Onboarding cfg))
    by (destruct Hp1 as [[_ [_ [Hm _]]] _]; exact Hm).
  rewrite Hm in Hn4, H4.
  destruct r4 as [[bks p2] | e | ]; [ | | contradiction ].
  2: { inversion E; subst. exists (EvToken (inl tok) :: EvNow now :: lcs).
       split.
       - rewrite T4. unfold after. simpl.
         rewrite <- !app_assoc. reflexivity.
       - left. split; [ | split; [ | eauto ] ].
         + constructor; [ exact I | ]. constructor; [ exact I | ].
           eapply Forall_impl; [ | exact F4 ].
           intros ev Hev. destruct ev; simpl in *; auto.
         + intros Hnb. rewrite (Hn4 Hnb).
           repeat constructor; intros H; exact H. }
  destruct H4 as [Hbks Hp2].
  unfold bind at 1 in E.
  destruct (wrapping "" (call_err (join_Register X p2) (EvRegister p2)) st4)
    as [r5 st5] eqn:E5.
  apply wrapped_call_err_inv in E5. destruct E5 as [res [e5 [_ [Hst5 Hr5]]]].
  exists (EvToken (inl tok) :: EvNow now :: lcs ++ [EvRegister p2 res]).
  assert (Htr : trace st5 =
                trace st ++
                EvToken (inl tok) :: EvNow now :: lcs ++ [EvRegister p2 res]).
  { subst st5. unfold after. simpl. rewrite T4. subst st2 st1.
    unfold after. simpl. rewrite <- !app_assoc. reflexivity. }
  assert (Hfinal : requestFor cfg ac tok now p2 /\ addressedPer X cfg p2 /\
                   methodParamsPer cfg p2).
  { destruct Hp1 as [Hreq [Haddr [Haz [Htf [Hen [Hgl Hbk]]]]]].
    unfold requestFor, addressedPer, methodParamsPer in *.
    destruct (JoinMethod (Onboarding cfg)) eqn:Em;
      match type of Hp2 with
      | ex _ => destruct Hp2 as [b [Hb Hp2]]
      | _ => idtac
      end; subst p2; simpl;
      (split; [ exact Hreq | ]); (split; [ exact Haddr | ]);
      repeat split; auto; try discriminate; try congruence;
      intros H; exfalso; apply H; assumption. }
  destruct Hfinal as [Hreq [Haddr Hmeth]].
  destruct res as [rr | e]; subst r5.
  - unfold ret in E. inversion E; subst r st'.
    split; [ exact Htr | ]. right.
    exists tok, e1, now, lcs, p2, (inl rr), bks. split; [ exact Htok | ].
    split; [ reflexivity | ].
    split; [ exact F4 | ]. split; [ exact Hn4 | ]. split; [ exact Hbks | ].
    split; [ exact Hreq | ]. split; [ exact Haddr | ].
    split; [ exact Hmeth | reflexivity ].
  - inversion E; subst r st'.
    split; [ exact Htr | ]. right.
    exists tok, e1, now, lcs, p2, (inr e), bks. split; [ exact Htok | ].
    split; [ reflexivity | ].
    split; [ exact F4 | ]. split; [ exact Hn4 | ]. split; [ exact Hbks | ].
    split; [ exact Hreq | ]. split; [ exact Haddr | ].
    split; [ exact Hmeth | reflexivity ].
Qed.


Lemma identity_phase_shape bks p rr (st : St Env) r st' :
  identity_phase X (bks, p, rr) st = (r, st') ->
  exists stores,
    trace st' = trace st ++ stores /\ identity_made X bks p rr stores r.
Proof.
  unfold identity_phase, identity_made. intros E.
  unfold bind at 1 in E.
  assert (Htail : forall (st1 : St Env) r1 st1',
    (privateKeyPEM <- wrapping ""
       (lift (keys_MarshalPrivateKey X (RR_PrivateKey rr))) ;;
     sshPub <- wrapping ""
       (lift (ssh_NewPublicKey X (Signer_Public X (RR_PrivateKey rr)))) ;;
     wrapping ""
       (lift (identity_ReadIdentityFromStore X
                {| P_PrivateKeyBytes := privateKeyPEM;
                   P_PublicKeyBytes := ssh_MarshalAuthorizedKey X sshPub;
                   P_TokenHashBytes := sha256_hex X (Token p) |}
                (RR_Certs rr)))) st1 = (r1, st1') ->
    st1' = st1 /\ r1 <> Panic /\
    forall id, r1 = Ok id ->
      exists pem sshk,
        keys_MarshalPrivateKey X (RR_PrivateKey rr) = inl pem /\
        ssh_NewPublicKey X (Signer_Public X (RR_PrivateKey rr)) = inl sshk /\
        identity_ReadIdentityFromStore X
          {| P_PrivateKeyBytes := pem;
             P_PublicKeyBytes := ssh_MarshalAuthorizedKey X sshk;
             P_TokenHashBytes := sha256_hex X (Token p) |} (RR_Certs rr)
        = inl id).
  { intros st1 r1 st1'. unfold bind, wrapping, lift, ret, fail.
    destruct (keys_MarshalPrivateKey X (RR_PrivateKey rr)) as [pem | e1];
      [ | intros H; inversion H; subst; repeat split; try discriminate ].
    destruct (ssh_NewPublicKey X (Signer_Public X (RR_PrivateKey rr)))
      as [sshk | e2];
      [ | intros H; inversion H; subst; repeat split; try discriminate ].
    destruct (identity_ReadIdentityFromStore X _ (RR_Certs rr)) as [id0 | e3] eqn:Er;
      intros H; inversion H; subst; repeat split; try discriminate.
    intros id Hid. inversion Hid; subst. eauto. }
  destruct bks as [b | ].
  - unfold bind at 1 in E. unfold wrapping at 1, lift at 1 in E.
    destruct (ClientState_UpdateFromRegisterResult X b rr) as [b' | e].
    + unfold ret at 1 in E.
      destruct (wrapping "" (call_unit (ClientState_Store X b')
                               (EvStoreClientState b')) st)
        as [r1 st1] eqn:E1.
      apply wrapping_inv in E1. destruct E1 as [r0 [E1 Hr1]].
      apply call_unit_inv in E1. destruct E1 as [sres [e1 [_ [Hst1 Hr0]]]].
      exists [EvStoreClientState b' sres].
      destruct sres as [e | ]; subst r0 r1.
      * inversion E; subst. split; [ reflexivity | ].
        split; [ | split; [ discriminate | intros; discriminate ] ].
        exists (Some e). split; [ reflexivity | ].
        intros e' He'. inversion He'; subst. reflexivity.
      * destruct (Htail _ _ _ E) as [Hst [Hnp Hok]]. subst st'.
        split; [ subst st1; reflexivity | ].
        split; [ exists None; split; [ reflexivity | intros; discriminate ] | ].
        split; [ exact Hnp | ].
        intros id Hid. split; [ exact (Hok id Hid) | eauto ].
    + unfold fail in E. inversion E; subst. exists [].
      rewrite app_nil_r. split; [ reflexivity | ].
      split; [ auto | split; [ discriminate | intros; discriminate ] ].
  - unfold ret at 1 in E.
    destruct (Htail _ _ _ E) as [Hst [Hnp Hok]]. subst st'.
    exists []. rewrite app_nil_r. split; [ reflexivity | ].
    split; [ reflexivity | ]. split; [ exact Hnp | ].
    intros id Hid. split; [ exact (Hok id Hid) | exact I ].
Qed.

Lemma botIdentityFromToken_shape cfg ac (st : St Env) r st' :
  botIdentityFromToken X cfg ac st = (r, st') ->
  exists new,
    trace st' = trace st ++ new /\ join_shape X cfg ac (env st) new r.
Proof.
  rewrite botIdentityFromToken_phases. unfold bind.
  destruct (register_phase X cfg ac st) as [r1 st1] eqn:E1.
  destruct (register_phase_shape _ _ _ _ _ E1) as [new1 [T1 H1]].
  destruct H1 as [[F1 [N1 [e He]]] | H1].
  - subst r1. intros E. inversion E; subst. exists new1.
    split; [ exact T1 | ]. left. eauto.
  - destruct H1 as [tok [e1 [now [lcs [p [res [bks H1]]]]]]].
    destruct H1 as [Htok [Hnew [Flcs [Hn [Hbks [Hreq [Haddr [Hmeth Hr1]]]]]]]].
    destruct res as [rr | e]; subst r1.
    + intros E.
      destruct (identity_phase_shape _ _ _ _ _ _ E) as [stores [T2 Hmade]].
      exists (EvToken (inl tok) :: EvNow now :: lcs ++ EvRegister p (inl rr) :: stores).
      split.
      * rewrite T2, T1, Hnew. rewrite <- !app_assoc. simpl.
        rewrite <- !app_assoc. reflexivity.
      * right. exists tok, e1, now, lcs, p, (inl rr), stores, bks.
        repeat (split; [ assumption || reflexivity | ]). exact Hmade.
    + intros E. inversion E; subst.
      exists (EvToken (inl tok) :: EvNow now :: lcs ++ EvRegister p (inr e) :: []).
      split; [ exact T1 | ].
      right. exists tok, e1, now, lcs, p, (inr e), [], bks.
      repeat (split; [ assumption || reflexivity | ]). auto.
Qed.

End PhaseLemmas.

(** ** What a join sends, and when *)

Lemma registrations_app (tr1 tr2 : list Event) :
  registrations (tr1 ++ tr2) = (registrations tr1 + registrations tr2)%nat.
Proof.
  induction tr1 as [ | ev tr1 IH ]; simpl; [ reflexivity | ].
  destruct ev; simpl; rewrite IH; reflexivity.
Qed.

Lemma registrations_none (P : Event -> Prop) (tr : list Event) :
  (forall p res, ~ P (EvRegister p res)) -> Forall P tr ->
  registrations tr = 0%nat /\ forall p res, ~ In (EvRegister p res) tr.
Proof.
  intros HP HF. induction HF as [ | ev tr Hev HF [IH1 IH2] ]; simpl.
  - split; [ reflexivity | intros p res [] ].
  - split.
    + destruct ev; auto. exfalso. exact (HP _ _ Hev).
    + intros p res [Heq | Hin]; [ subst ev; exact (HP _ _ Hev) | ].
      exact (IH2 _ _ Hin).
Qed.

Lemma early_event_no_register p res : ~ early_event (EvRegister p res).
Proof. intros H. exact H. Qed.

Lemma isLoadClientState_no_register p res :
  ~ isLoadClientState (EvRegister p res).
Proof. intros H. exact H. Qed.

Lemma isStoreClientState_no_register p res :
  ~ isStoreClientState (EvRegister p res).
Proof. intros H. exact H. Qed.

Section JoinTheorems.

Context {Env : Type}.
Variable X : External Env.

Lemma identity_made_stores bks p rr stores r :
  identity_made X bks p rr stores r ->
  Forall isStoreClientState stores /\
  (bks = None -> stores = []).
Proof.
  intros [Hs _]. destruct bks as [b | ].
  - split; [ | intros; discriminate ].
    destruct (ClientState_UpdateFromRegisterResult X b rr).
    + destruct Hs as [sres [Hs _]]. subst. repeat constructor.
    + destruct Hs as [Hs _]. subst. constructor.
  - subst. split; [ constructor | reflexivity ].
Qed.

(** The one registration of a run, read off its shape. *)
Lemma join_shape_register cfg ac e0 new r p' res' :
  join_shape X cfg ac e0 new r ->
  In (EvRegister p' res') new ->
  registrations new = 1%nat /\
  exists tok e1 now,
    Onboarding_Token X (Onboarding cfg) e0 = (inl tok, e1) /\
    nth_error new 0 = Some (EvToken (inl tok)) /\
    nth_error new 1 = Some (EvNow now) /\
    requestFor cfg ac tok now p' /\
    addressedPer X cfg p' /\
    methodParamsPer cfg p'.
Proof.
  intros [[F _] | H] Hin.
  - exfalso.
    exact (proj2 (registrations_none _ _ early_event_no_register F) _ _ Hin).
  - destruct H as [tok [e1 [now [lcs [p [res [stores [bks H]]]]]]]].
    destruct H as [Htok [Hnew [Flcs [Hn [Hbks [Hreq [Haddr [Hmeth Hres]]]]]]]].
    assert (Fst : Forall isStoreClientState stores).
    { destruct res as [rr | e].
      - exact (proj1 (identity_made_stores _ _ _ _ _ Hres)).
      - destruct Hres as [Hs _]. subst. constructor. }
    destruct (registrations_none _ _ isLoadClientState_no_register Flcs)
      as [Rl Nl].
    destruct (registrations_none _ _ isStoreClientState_no_register Fst)
      as [Rs Ns].
    subst new. split.
    + simpl. rewrite registrations_app. simpl. rewrite Rl, Rs. reflexivity.
    + simpl in Hin. destruct Hin as [Hin | [Hin | Hin]]; try discriminate.
      apply in_app_or in Hin. destruct Hin as [Hin | [Hin | Hin]].
      * exfalso. exact (Nl _ _ Hin).
      * inversion Hin; subst. exists tok, e1, now.
        split; [ exact Htok | ]. split; [ reflexivity | ].
        split; [ reflexivity | ]. auto.
      * exfalso. exact (Ns _ _ Hin).
Qed.

(** X2.  Every registration that [botIdentityFromToken] sends was made
    from what the run read first: the token, and the clock for the expiry
    ([now] plus the configured TTL).  It asks for the bot role, carries
    the configured join method, CA pins and path, the FIPS flag with the
    matching cipher suites, and the auth client it was given; and it is
    addressed either to the auth server or to the proxy, the parsed
    configured address, never to both. *)
Theorem registration_request_is_well_formed
    (cfg : Config) (ac : option Client) (st : St Env)
    (r : result Identity) (st' : St Env) (new : list Event)
    (p : join_RegisterParams) (res : join_RegisterResult + error) :
  botIdentityFromToken X cfg ac st = (r, st') ->
  trace st' = trace st ++ new ->
  In (EvRegister p res) new ->
  exists tok now,
    nth_error new 0 = Some (EvToken (inl tok)) /\
    nth_error new 1 = Some (EvNow now) /\
    requestFor cfg ac tok now p /\
    addressedPer X cfg p.
Proof.
  intros E T Hin.
  destruct (botIdentityFromToken_shape X _ _ _ _ _ E) as [new' [T' Hs]].
  rewrite T in T'. apply app_inv_head in T'. subst new'.
  destruct (join_shape_register _ _ _ _ _ _ _ Hs Hin)
    as [_ [tok [e1 [now [_ [H0 [H1 [Hreq [Haddr _]]]]]]]]].
  exists tok, now. auto.
Qed.

(** X3.  In every registration that [botIdentityFromToken] sends, only
    the parameters of the configured join method are filled: the Azure
    client id, the Terraform Cloud audience tag, the Env0 audience tag,
    the GitLab variable name and the bound keypair parameters are each
    zero unless theirs is the configured method. *)
Theorem only_the_configured_method_is_parameterised
    (cfg : Config) (ac : option Client) (st : St Env)
    (r : result Identity) (st' : St Env) (new : list Event)
    (p : join_RegisterParams) (res : join_RegisterResult + error) :
  botIdentityFromToken X cfg ac st = (r, st') ->
  trace st' = trace st ++ new ->
  In (EvRegister p res) new ->
  methodParamsPer cfg p.
Proof.
  intros E T Hin.
  destruct (botIdentityFromToken_shape X _ _ _ _ _ E) as [new' [T' Hs]].
  rewrite T in T'. apply app_inv_head in T'. subst new'.
  destruct (join_shape_register _ _ _ _ _ _ _ Hs Hin)
    as [_ [tok [e1 [now [_ [_ [_ [_ [_ Hm]]]]]]]]].
  exact Hm.
Qed.

(** X4.  A run of [botIdentityFromToken] sends at most one registration,
    and returns an identity only if it sent one.  It sends none when the
    token cannot be read, when the kind of the configured address is
    neither auth nor proxy, or when the address does not parse. *)
Theorem at_most_one_registration
    (cfg : Config) (ac : option Client) (st : St Env)
    (r : result Identity) (st' : St Env) (new : list Event) :
  botIdentityFromToken X cfg ac st = (r, st') ->
  trace st' = trace st ++ new ->
  (registrations new <= 1)%nat /\
  (registrations new = 0%nat -> exists e, r = Err e) /\
  ((exists e e1, Onboarding_Token X (Onboarding cfg) (env st) = (inr e, e1)) \/
   AddressKind (Connection cfg) = AddressKindUnspecified \/
   (exists e, utils_ParseAddr X (Address (Connection cfg)) = inr e) ->
   registrations new = 0%nat).
Proof.
  intros E T.
  destruct (botIdentityFromToken_shape X _ _ _ _ _ E) as [new' [T' Hs]].
  rewrite T in T'. apply app_inv_head in T'. subst new'.
  destruct Hs as [[F [_ He]] | H].
  - destruct (registrations_none _ _ early_event_no_register F) as [R0 _].
    rewrite R0. repeat split; auto.
  - assert (Hs : join_shape X cfg ac (env st) new r) by (right; exact H).
    destruct H as [tok [e1 [now [lcs [p [res [stores [bks H]]]]]]]].
    destruct H as [Htok [Hnew [Flcs [Hn [Hbks [Hreq [Haddr [Hmeth Hres]]]]]]]].
    assert (Hin : In (EvRegister p res) new).
    { subst new. right. right. apply in_or_app. right. left. reflexivity. }
    destruct (join_shape_register _ _ _ _ _ _ _ Hs Hin) as [R1 _].
    rewrite R1. split; [ auto | ]. split; [ intros; discriminate | ].
    intros [[e [e' Hbad]] | [Hk | [e Hparse]]]; exfalso.
    + rewrite Htok in Hbad. discriminate.
    + unfold addressedPer in Haddr. rewrite Hk in Haddr. exact Haddr.
    + unfold addressedPer in Haddr.
      destruct (AddressKind (Connection cfg)); [ exact Haddr | | ];
        destruct Haddr as [a [Ha _]]; rewrite Ha in Hparse; discriminate.
Qed.

(** X5.  The bound keypair state is touched only by the bound keypair
    method.  In any run the state is stored only as the very last call,
    after a registration that succeeded, and what is stored is the state
    updated from that registration's result; and when the method is
    bound keypair, an identity is returned only after the state was
    stored without error. *)
Theorem bound_keypair_state_is_stored_after_registration
    (cfg : Config) (ac : option Client) (st : St Env)
    (r : result Identity) (st' : St Env) (new : list Event) :
  botIdentityFromToken X cfg ac st = (r, st') ->
  trace st' = trace st ++ new ->
  (JoinMethod (Onboarding cfg) <> JoinMethodBoundKeypair ->
   Forall (fun ev => ~ isLoadClientState ev /\ ~ isStoreClientState ev) new) /\
  (forall b sres,
     In (EvStoreClientState b sres) new ->
     exists pre p rr b0,
       new = pre ++ [EvStoreClientState b sres] /\
       In (EvRegister p (inl rr)) pre /\
       ClientState_UpdateFromRegisterResult X b0 rr = inl b) /\
  (JoinMethod (Onboarding cfg) = JoinMethodBoundKeypair ->
   forall id, r = Ok id ->
   exists pre b, new = pre ++ [EvStoreClientState b None]).
Proof.
  intros E T.
  destruct (botIdentityFromToken_shape X _ _ _ _ _ E) as [new' [T' Hs]].
  rewrite T in T'. apply app_inv_head in T'. subst new'.
  destruct Hs as [[F [N [e He]]] | H].
  - subst r. split; [ | split ].
    + intros Hm. specialize (N Hm). rewrite Forall_forall in F, N.
      apply Forall_forall. intros ev Hev. split; [ exact (N _ Hev) | ].
      specialize (F _ Hev). destruct ev; simpl in *; auto.
    + intros b sres Hin. exfalso. rewrite Forall_forall in F.
      exact (F _ Hin).
    + intros _ id Hid. discriminate.
  - destruct H as [tok [e1 [now [lcs [p [res [stores [bks H]]]]]]]].
    destruct H as [Htok [Hnew [Flcs [Hn [Hbks [Hreq [Haddr [Hmeth Hres]]]]]]]].
    split; [ | split ].
    + intros Hm. specialize (Hn Hm). subst lcs.
      assert (Hb : bks = None).
      { destruct bks; [ | reflexivity ]. exfalso. apply Hm. apply Hbks.
        discriminate. }
      assert (Hst : stores = []).
      { destruct res as [rr | e0].
        - exact (proj2 (identity_made_stores _ _ _ _ _ Hres) Hb).
        - exact (proj1 Hres). }
      subst new stores. simpl.
      repeat constructor; intros H; exact H.
    + intros b sres Hin. subst new.
      simpl in Hin. destruct Hin as [Hin | [Hin | Hin]]; try discriminate.
      apply in_app_or in Hin. destruct Hin as [Hin | [Hin | Hin]];
        try discriminate.
      { exfalso. rewrite Forall_forall in Flcs. exact (Flcs _ Hin). }
      destruct res as [rr | e0]; [ | destruct Hres as [Hs _]; subst; destruct Hin ].
      destruct Hres as [Hs _].
      destruct bks as [b0 | ]; [ | subst; destruct Hin ].
      destruct (ClientState_UpdateFromRegisterResult X b0 rr) as [b' | e0] eqn:Eu;
        [ | destruct Hs as [Hs _]; subst; destruct Hin ].
      destruct Hs as [sres' [Hs _]]. subst stores.
      destruct Hin as [Hin | []]. inversion Hin; subst.
      exists (EvToken (inl tok) :: EvNow now :: lcs ++ [EvRegister p (inl rr)]),
        p, rr, b0.
      split; [ simpl; rewrite <- app_assoc; reflexivity | ].
      split; [ | exact Eu ].
      right. right. apply in_or_app. right. left. reflexivity.
    + intros Hm id Hid. subst r.
      destruct res as [rr | e0]; [ | destruct Hres as [_ Hr]; discriminate ].
      destruct Hres as [_ [_ Hok]].
      destruct (Hok id eq_refl) as [_ Hb].
      destruct bks as [b0 | ].
      * destruct Hb as [b' Hst]. subst stores new.
        exists (EvToken (inl tok) :: EvNow now :: lcs ++ [EvRegister p (inl rr)]), b'.
        simpl. rewrite <- app_assoc. reflexivity.
      * exfalso. apply (proj2 Hbks Hm). reflexivity.
Qed.

End JoinTheorems.

(** ** Loading the stored identity *)

Lemma hasTokenChanged_same (a : bytes) : hasTokenChanged a a = false.
Proof.
  unfold hasTokenChanged. destruct a as [ | x a ]; [ reflexivity | ].
  simpl bytes_empty. simpl orb. cbv iota.
  assert (H : bytes_Equal (x :: a) (x :: a) = true)
    by (apply bytes_Equal_eq; reflexivity).
  rewrite H. reflexivity.
Qed.

Section LoadMore.

Context {Env : Type}.
Variable X : External Env.

(** X6.  [loadIdentityFromStore] never returns an error and never
    panics: whatever the store and the token source do, it returns an
    optional identity and a flag, and the flag is set only together with
    an identity.  When the store fails to load, with "not found" or with
    any other error, the answer is "no identity", and neither the token
    nor the clock is read. *)
Theorem loadIdentityFromStore_absorbs_errors
    (cfg : Config) (d : destination_Destination) (st : St Env) :
  exists li valid st',
    loadIdentityFromStore X cfg d st = (Ok (li, valid), st') /\
    (valid = true -> li <> None) /\
    (forall err e1,
       identity_LoadIdentity X d (env st) = (inr err, e1) ->
       li = None /\ valid = false /\
       st' = after st e1 (EvLoadIdentity d (inr err))).
Proof.
  unfold loadIdentityFromStore.
  unfold bind at 1. unfold catch, call_err.
  destruct (identity_LoadIdentity X d (env st)) as [[loaded | err] e1] eqn:El.
  - destruct (tokenMismatch_total X cfg loaded
                {| env := e1; chans := chans st;
                   trace := trace st ++ [EvLoadIdentity d (inl loaded)] |})
      as [b [st2 Et]].
    erewrite bind_ok by exact Et.
    destruct b.
    + exists None, false, st2. unfold ret.
      split; [ reflexivity | ]. split; [ intros; discriminate | ].
      intros; discriminate.
    + unfold bind, call, ret. destruct (time_Now X (env st2)) as [now e3].
      do 3 eexists. split; [ reflexivity | ].
      split; [ intros _; discriminate | intros; discriminate ].
  - exists None, false. eexists.
    split; [ destruct (trace_IsNotFound err); reflexivity | ].
    split; [ intros; discriminate | ].
    intros err' e1' H. inversion H; subst. auto.
Qed.

(** X7.  A stored identity is dropped for its token hash only when the
    configured token could be read.  When no token is configured, or
    reading it fails, [loadIdentityFromStore] returns the stored
    identity, whatever its token hash. *)
Theorem unreadable_token_keeps_stored_identity
    (cfg : Config) (d : destination_Destination) (st : St Env)
    (loaded : Identity) (e1 : Env) :
  identity_LoadIdentity X d (env st) = (inl loaded, e1) ->
  (Onboarding_HasToken X (Onboarding cfg) = false \/
   exists err e2, Onboarding_Token X (Onboarding cfg) e1 = (inr err, e2)) ->
  exists valid st',
    loadIdentityFromStore X cfg d st = (Ok (Some loaded, valid), st').
Proof.
  intros Hload Hno.
  assert (Ht : exists st2,
    tokenMismatch X cfg loaded (after st e1 (EvLoadIdentity d (inl loaded)))
    = (Ok false, st2)).
  { unfold tokenMismatch.
    destruct (Onboarding_HasToken X (Onboarding cfg)) eqn:Eh.
    - destruct Hno as [Hno | [err [e2 Htok]]]; [ discriminate | ].
      unfold bind, catch, call_err, after. simpl. rewrite Htok.
      unfold ret. eauto.
    - unfold ret. eauto. }
  destruct Ht as [st2 Ht].
  unfold loadIdentityFromStore.
  erewrite bind_ok.
  2: { apply catch_ok. unfold call_err. rewrite Hload. reflexivity. }
  cbv beta iota. erewrite bind_ok by exact Ht. cbv iota.
  unfold bind, call, ret. destruct (time_Now X (env st2)) as [now e3].
  eauto.
Qed.

(** X8.  An identity that a join returned is kept when it is loaded
    again under the same token.  Provided that reading an identity keeps
    the token hash it is given: the identity [botIdentityFromToken]
    returns carries the hash of the token that the run read, and when the
    store later holds that identity and the configured token still reads
    the same, [loadIdentityFromStore] returns the identity. *)
Theorem joined_identity_is_kept_on_reload
    (cfg : Config) (ac : option Client) (st : St Env) (id : Identity)
    (st' : St Env) :
  (forall p certs id',
     identity_ReadIdentityFromStore X p certs = inl id' ->
     TokenHashBytes id' = P_TokenHashBytes p) ->
  botIdentityFromToken X cfg ac st = (Ok id, st') ->
  exists tok e1,
    Onboarding_Token X (Onboarding cfg) (env st) = (inl tok, e1) /\
    TokenHashBytes id = sha256_hex X tok /\
    forall d (st1 : St Env) e2 e3,
      identity_LoadIdentity X d (env st1) = (inl id, e2) ->
      Onboarding_Token X (Onboarding cfg) e2 = (inl tok, e3) ->
      exists valid st2,
        loadIdentityFromStore X cfg d st1 = (Ok (Some id, valid), st2).
Proof.
  intros Hread E.
  destruct (botIdentityFromToken_shape X _ _ _ _ _ E) as [new [T Hs]].
  destruct Hs as [[_ [_ [e He]]] | H]; [ discriminate | ].
  destruct H as [tok [e1 [now [lcs [p [res [stores [bks H]]]]]]]].
  destruct H as [Htok [Hnew [Flcs [Hn [Hbks [Hreq [Haddr [Hmeth Hres]]]]]]]].
  destruct res as [rr | e0]; [ | destruct Hres as [_ Hr]; discriminate ].
  destruct Hres as [_ [_ Hok]].
  destruct (Hok id eq_refl) as [[pem [sshk [_ [_ Hrd]]]] _].
  assert (Hhash : TokenHashBytes id = sha256_hex X tok).
  { rewrite (Hread _ _ _ Hrd). simpl.
    destruct Hreq as [Ht _]. rewrite Ht. reflexivity. }
  exists tok, e1. split; [ exact Htok | ]. split; [ exact Hhash | ].
  intros d st1 e2 e3 Hload Htok2.
  assert (Ht : exists st2,
    tokenMismatch X cfg id (after st1 e2 (EvLoadIdentity d (inl id)))
    = (Ok false, st2)).
  { unfold tokenMismatch.
    destruct (Onboarding_HasToken X (Onboarding cfg)).
    - unfold bind, catch, call_err, after. simpl. rewrite Htok2.
      rewrite Hhash, hasTokenChanged_same. unfold ret. eauto.
    - unfold ret. eauto. }
  destruct Ht as [st2 Ht].
  unfold loadIdentityFromStore.
  erewrite bind_ok.
  2: { apply catch_ok. unfold call_err. rewrite Hload. reflexivity. }
  cbv beta iota. erewrite bind_ok by exact Ht. cbv iota.
  unfold bind, call, ret. destruct (time_Now X (env st2)) as [now' e4].
  eauto.
Qed.

End LoadMore.

(** ** Renewing: the client and the path taken *)

Section RenewMore.

Context {Env : Type}.
Variable X : External Env.

Lemma renewIdentity_shape cfg old (st : St Env) r st' :
  renewIdentity X cfg old st = (r, st') ->
  let facade :=
    identity_NewFacade (FIPS cfg) (Insecure (Connection cfg)) old in
  (exists e e1,
     Builder_Build X facade (env st) = (inr e, e1) /\
     trace st' = trace st ++ [EvBuild facade (inr e)] /\
     r = Err (trace_Wrap e "creating auth client")) \/
  (exists c e1 mid,
     Builder_Build X facade (env st) = (inl c, e1) /\
     trace st' = trace st ++ EvBuild facade (inl c) :: mid ++ [EvClose c] /\
     if Renewable (TLSIdentity old)
     then Forall (auth_event c) mid
     else exists now ac rest,
            mid = EvNow now :: rest /\
            Forall (join_event (registerParamsOf cfg ac)) rest /\
            (registrations rest <= 1)%nat).
Proof.
  intros E facade. unfold renewIdentity in E. fold facade in E.
  unfold bind at 1 in E.
  destruct (wrapping "creating auth client"
              (call_err (Builder_Build X facade) (EvBuild facade)) st)
    as [r1 st1] eqn:E1.
  apply wrapped_call_err_inv in E1. destruct E1 as [x [e1 [Hb [Hst1 Hr1]]]].
  destruct x as [c | e]; subst r1.
  2: { inversion E; subst. left. exists e, e1. auto. }
  right. apply deferring_inv in E. destruct E as [st2 [E Hst']].
  assert (Hclose : trace st' = trace st2 ++ [EvClose c]).
  { subst st'. unfold closeClient, call. simpl. reflexivity. }
  destruct (Renewable (TLSIdentity old)).
  - destruct (emits_wrapping _ _ _ _
                (botIdentityFromAuth_emits X (Some old) c (TTL cfg)) _ _ _ E)
      as [[mid [T F]] _].
    unfold trace_of, Traced_St in T.
    exists c, e1, mid. split; [ exact Hb | ]. split; [ | exact F ].
    rewrite Hclose, T. subst st1. unfold after. simpl.
    rewrite <- !app_assoc. reflexivity.
  - unfold bind at 1 in E.
    destruct (call (time_Now X) EvNow st1) as [r2 st3] eqn:E2.
    apply call_inv in E2. destruct E2 as [now [e2 [_ [Hr2 Hst3]]]]. subst r2.
    assert (Hjoin : forall msg ac r0 st0,
      wrapping msg (botIdentityFromToken X cfg ac) st3 = (r0, st0) ->
      exists rest,
        trace st0 = trace st3 ++ rest /\
        Forall (join_event (registerParamsOf cfg ac)) rest /\
        (registrations rest <= 1)%nat).
    { intros msg ac r0 st0 E0.
      apply wrapping_inv in E0. destruct E0 as [r00 [E0 _]].
      destruct (botIdentityFromToken_emits X cfg ac _ _ _ E0) as [[rest [T F]] _].
      unfold trace_of, Traced_St in T.
      exists rest. split; [ exact T | ]. split; [ exact F | ].
      destruct (botIdentityFromToken_shape X _ _ _ _ _ E0) as [rest' [T' Hs]].
      rewrite T in T'. apply app_inv_head in T'. subst rest'.
      destruct Hs as [[F0 _] | H].
      - destruct (registrations_none _ _ early_event_no_register F0) as [R0 _].
        rewrite R0. auto.
      - assert (Hs : join_shape X cfg ac (env st3) rest r00) by (right; exact H).
        destruct H as [tok [e3 [now' [lcs [p [res [stores [bks H]]]]]]]].
        destruct H as [_ [Hnew _]].
        assert (Hin : In (EvRegister p res) rest).
        { subst rest. right. right. apply in_or_app. right. left. reflexivity. }
        destruct (join_shape_register X _ _ _ _ _ _ _ Hs Hin) as [R1 _].
        rewrite R1. auto. }
    destruct (appearsExpired X facade now);
      destruct (Hjoin _ _ _ _ E) as [rest [T [F R]]];
      exists c, e1, (EvNow now :: rest);
      (split; [ exact Hb | ]);
      (split; [ rewrite Hclose, T; subst st3 st1; unfold after; simpl;
                rewrite <- !app_assoc; reflexivity | ]);
      exists now; eexists; exists rest;
      (split; [ reflexivity | split; [ exact F | exact R ] ]).
Qed.

(** X9.  [renewIdentity] builds exactly one client, around the identity
    it is to renew.  When that fails it returns the error ("creating
    auth client") and does nothing else.  When it succeeds, the client is
    closed exactly once, as the last call, whether the renewal went
    through or not, and no other client is built or closed in between. *)
Theorem renewIdentity_closes_its_client
    (cfg : Config) (old : Identity) (st : St Env)
    (r : result Identity) (st' : St Env) (new : list Event) :
  renewIdentity X cfg old st = (r, st') ->
  trace st' = trace st ++ new ->
  let facade :=
    identity_NewFacade (FIPS cfg) (Insecure (Connection cfg)) old in
  (exists e,
     new = [EvBuild facade (inr e)] /\
     r = Err (trace_Wrap e "creating auth client")) \/
  (exists c mid,
     new = EvBuild facade (inl c) :: mid ++ [EvClose c] /\
     Forall between_build_and_close mid).
Proof.
  intros E T facade.
  destruct (renewIdentity_shape _ _ _ _ _ E) as [H | H]; fold facade in H.
  - destruct H as [e [e1 [_ [T' Hr]]]]. left. exists e.
    rewrite T in T'. apply app_inv_head in T'. auto.
  - destruct H as [c [e1 [mid [_ [T' Hmid]]]]]. right. exists c, mid.
    rewrite T in T'. apply app_inv_head in T'. split; [ exact T' | ].
    destruct (Renewable (TLSIdentity old)).
    + eapply Forall_impl; [ | exact Hmid ].
      intros ev Hev. destruct ev; simpl in *; auto.
    + destruct Hmid as [now [ac [rest [Hm [F _]]]]]. subst mid.
      constructor; [ exact I | ].
      eapply Forall_impl; [ | exact F ].
      intros ev Hev. destruct ev; simpl in *; auto.
Qed.

(** X10.  The two ways of renewing never mix.  A renewable identity is
    renewed through the auth server alone: no token is read, no
    registration is sent, no bound keypair state is touched, so a failed
    renewal is not retried as a join.  An identity that is not renewable
    is renewed by a join alone: no key is generated here and no
    certificate is requested through the client, and at most one
    registration is sent. *)
Theorem renewal_paths_do_not_mix
    (cfg : Config) (old : Identity) (st : St Env)
    (r : result Identity) (st' : St Env) (new : list Event) :
  renewIdentity X cfg old st = (r, st') ->
  trace st' = trace st ++ new ->
  (Renewable (TLSIdentity old) = true ->
   Forall no_join_call new /\ registrations new = 0%nat) /\
  (Renewable (TLSIdentity old) = false ->
   Forall no_renewal_call new /\ (registrations new <= 1)%nat).
Proof.
  intros E T.
  destruct (renewIdentity_shape _ _ _ _ _ E) as [H | H].
  - destruct H as [e [e1 [_ [T' _]]]].
    rewrite T in T'. apply app_inv_head in T'. subst new.
    split; intros _; split; auto; repeat constructor.
  - destruct H as [c [e1 [mid [_ [T' Hmid]]]]].
    rewrite T in T'. apply app_inv_head in T'. subst new.
    split; intros Hren; rewrite Hren in Hmid.
    + assert (F : Forall no_join_call mid).
      { eapply Forall_impl; [ | exact Hmid ].
        intros ev Hev. destruct ev; simpl in *; auto. }
      split.
      * constructor; [ exact I | ]. apply Forall_app. split; [ exact F | ].
        repeat constructor.
      * simpl. rewrite registrations_app. simpl.
        assert (R : registrations mid = 0%nat).
        { eapply (registrations_none no_join_call); [ | exact F ].
          intros p res H. exact H. }
        rewrite R. reflexivity.
    + destruct Hmid as [now [ac [rest [Hm [F R]]]]]. subst mid. split.
      * constructor; [ exact I | ]. constructor; [ exact I | ].
        apply Forall_app. split; [ | repeat constructor ].
        eapply Forall_impl; [ | exact F ].
        intros ev Hev. destruct ev; simpl in *; auto.
      * simpl. rewrite registrations_app. simpl. lia.
Qed.

End RenewMore.

Section AuthRequest.

Context {Env : Type}.
Variable X : External Env.

Lemma new_events_nil (st : St Env) (new : list Event) :
  trace st = trace st ++ new -> new = [].
Proof.
  intros T. rewrite <- (app_nil_r (trace st)) in T at 1.
  apply app_inv_head in T. auto.
Qed.

(** X11.  What [botIdentityFromAuth] asks of the auth server.  Without an
    identity or without a client it fails with [BadParameter] before any
    call.  Otherwise a certificate request is sent only after a key was
    generated and its encodings obtained, and the request names the
    common name of the old certificate, expires at the clock reading plus
    the TTL, and carries the SSH and TLS encodings of the public half of
    the key generated in this very run. *)
Theorem renewal_request_content
    (ident : option Identity) (client : option Client) (ttl : Duration)
    (st : St Env) (r : result Identity) (st' : St Env) (new : list Event) :
  botIdentityFromAuth X ident client ttl st = (r, st') ->
  trace st' = trace st ++ new ->
  (ident = None \/ client = None ->
   new = [] /\ exists msg, r = Err (trace_BadParameter msg)) /\
  (forall c req res,
     In (EvGenerateUserCerts c req res) new ->
     exists id key now sshk,
       ident = Some id /\ client = Some c /\
       new = [EvGenerateKey (CurrentSuiteFromAuthPreference c) HostIdentity
                (inl key);
              EvNow now;
              EvGenerateUserCerts c req res] /\
       Username req = Subject_CommonName (X509Cert id) /\
       Expires req = time_Add now ttl /\
       ssh_NewPublicKey X (Signer_Public X key) = inl sshk /\
       SSHPublicKey req = ssh_MarshalAuthorizedKey X sshk /\
       keys_MarshalPublicKey X (Signer_Public X key) = inl (TLSPublicKey req)).
Proof.
  intros E T. unfold botIdentityFromAuth in E.
  destruct ident as [id | ], client as [c | ];
    try (unfold fail in E; inversion E; subst;
         apply new_events_nil in T; subst new;
         split; [ intros _; split; eauto | intros c0 req res [] ]).
  split; [ intros [H | H]; discriminate | ].
  unfold bind at 1 in E.
  destruct (wrapping ""
              (call_err
                 (cryptosuites_GenerateKey X (CurrentSuiteFromAuthPreference c)
                    HostIdentity)
                 (EvGenerateKey (CurrentSuiteFromAuthPreference c) HostIdentity))
              st) as [r1 st1] eqn:E1.
  apply wrapped_call_err_inv in E1. destruct E1 as [x [e1 [_ [Hst1 Hr1]]]].
  assert (Hshort : forall ev,
    st' = after st e1 ev ->
    (forall c0 req res, ev <> EvGenerateUserCerts c0 req res) ->
    forall c0 req res,
      In (EvGenerateUserCerts c0 req res) new -> False).
  { intros ev Hst Hne c0 req res Hin. subst st'. unfold after in T. simpl in T.
    apply app_inv_head in T. subst new. destruct Hin as [Hin | []].
    exact (Hne _ _ _ Hin). }
  destruct x as [key | e]; subst r1.
  2: { inversion E; subst st'. intros c0 req res Hin. exfalso.
       eapply Hshort; [ exact Hst1 | | exact Hin ]. intros; discriminate. }
  unfold bind at 1 in E. unfold wrapping at 1, lift at 1 in E.
  destruct (keys_MarshalPrivateKey X key) as [pem | e].
  2: { unfold fail in E. inversion E; subst st'. intros c0 req res Hin.
       exfalso.
       eapply Hshort; [ exact Hst1 | | exact Hin ]. intros; discriminate. }
  unfold ret at 1 in E.
  unfold bind at 1 in E. unfold wrapping at 1, lift at 1 in E.
  destruct (ssh_NewPublicKey X (Signer_Public X key)) as [sshk | e] eqn:Essh.
  2: { unfold fail in E. inversion E; subst st'. intros c0 req res Hin.
       exfalso.
       eapply Hshort; [ exact Hst1 | | exact Hin ]. intros; discriminate. }
  unfold ret at 1 in E.
  unfold bind at 1 in E. unfold wrapping at 1, lift at 1 in E.
  destruct (keys_MarshalPublicKey X (Signer_Public X key)) as [tlsPub | e] eqn:Etls.
  2: { unfold fail in E. inversion E; subst st'. intros c0 req res Hin.
       exfalso.
       eapply Hshort; [ exact Hst1 | | exact Hin ]. intros; discriminate. }
  unfold ret at 1 in E.
  unfold bind at 1 in E.
  destruct (call (time_Now X) EvNow st1) as [r2 st2] eqn:E2.
  apply call_inv in E2. destruct E2 as [now [e2 [_ [Hr2 Hst2]]]]. subst r2.
  unfold bind at 1 in E.
  match type of E with
  | context [ wrapping ?msg (call_err ?f ?ev) st2 ] =>
      destruct (wrapping msg (call_err f ev) st2) as [r3 st3] eqn:E3
  end.
  apply wrapped_call_err_inv in E3. destruct E3 as [res0 [e3 [_ [Hst3 Hr3]]]].
  assert (Hst' : st' = st3).
  { destruct res0 as [certs | e]; subst r3.
    - apply wrapping_inv in E. destruct E as [r0 [E _]].
      unfold lift in E.
      destruct (identity_ReadIdentityFromStore X _ certs);
        unfold ret, fail in E; inversion E; reflexivity.
    - inversion E; reflexivity. }
  subst st' st3 st2 st1. unfold after in T. simpl in T.
  rewrite <- !app_assoc in T. simpl in T. apply app_inv_head in T. subst new.
  intros c0 req res Hin.
  destruct Hin as [Hin | [Hin | [Hin | []]]]; try discriminate.
  inversion Hin; subst c0 req res.
  exists id, key, now, sshk. simpl. repeat split; auto.
Qed.

End AuthRequest.

(** ** Nothing outside the gate panics or touches a channel *)

Section Tame.

Context {Env : Type}.

Lemma tame_ret {A} (a : A) : tame (@ret (St Env) A a).
Proof. intros st r st' E. inversion E; subst. split; [ discriminate | auto ]. Qed.

Lemma tame_fail {A} (e : error) : tame (@fail (St Env) A e).
Proof. intros st r st' E. inversion E; subst. split; [ discriminate | auto ]. Qed.

Lemma tame_bind {A B} (m : M (St Env) A) (k : A -> M (St Env) B) :
  tame m -> (forall a, tame (k a)) -> tame (bind m k).
Proof.
  intros Hm Hk st r st' E. unfold bind in E.
  destruct (m st) as [[a | e | ] st1] eqn:E1;
    destruct (Hm _ _ _ E1) as [Hnp Hch].
  - destruct (Hk a _ _ _ E) as [Hnp2 Hch2]. split; [ exact Hnp2 | congruence ].
  - inversion E; subst. split; [ discriminate | exact Hch ].
  - exfalso. apply Hnp. reflexivity.
Qed.

Lemma tame_wrapping {A} msg (m : M (St Env) A) : tame m -> tame (wrapping msg m).
Proof.
  intros Hm st r st' E. unfold wrapping in E.
  destruct (m st) as [[a | e | ] st1] eqn:E1;
    destruct (Hm _ _ _ E1) as [Hnp Hch]; inversion E; subst;
    split; auto; discriminate.
Qed.

Lemma tame_catch {A} (m : M (St Env) A) : tame m -> tame (catch m).
Proof.
  intros Hm st r st' E. unfold catch in E.
  destruct (m st) as [[a | e | ] st1] eqn:E1;
    destruct (Hm _ _ _ E1) as [Hnp Hch]; inversion E; subst;
    split; auto; try discriminate.
Qed.

Lemma tame_deferring {A B} (d : M (St Env) B) (m : M (St Env) A) :
  tame d -> tame m -> tame (deferring d m).
Proof.
  intros Hd Hm st r st' E. apply deferring_inv in E.
  destruct E as [st1 [E Hst']].
  destruct (Hm _ _ _ E) as [Hnp Hch].
  destruct (d st1) as [r2 st2] eqn:E2.
  destruct (Hd _ _ _ E2) as [_ Hch2]. subst st'. simpl.
  split; [ exact Hnp | congruence ].
Qed.

Lemma tame_lift {A} (x : A + error) : tame (@lift (St Env) A x).
Proof. destruct x; [ apply tame_ret | apply tame_fail ]. Qed.

Lemma tame_call {A} (f : Env -> A * Env) ev : tame (call f ev).
Proof.
  intros st r st' E. apply call_inv in E.
  destruct E as [a [e' [_ [Hr Hst]]]]. subst. split; [ discriminate | auto ].
Qed.

Lemma tame_call_err {A} (f : Env -> (A + error) * Env) ev : tame (call_err f ev).
Proof.
  intros st r st' E. apply call_err_inv in E.
  destruct E as [x [e' [_ [Hst Hr]]]]. subst.
  split; [ destruct x; discriminate | auto ].
Qed.

Lemma tame_call_unit (f : Env -> option error * Env) ev :
  tame (call_unit f ev).
Proof.
  intros st r st' E. apply call_unit_inv in E.
  destruct E as [res [e' [_ [Hst Hr]]]]. subst.
  split; [ destruct res; discriminate | auto ].
Qed.

Lemma tame_emit ev : tame (@emit Env ev).
Proof.
  intros st r st' E. unfold emit in E. inversion E; subst.
  split; [ discriminate | auto ].
Qed.

Variable X : External Env.

Lemma tame_botIdentityFromToken cfg ac : tame (botIdentityFromToken X cfg ac).
Proof.
  unfold botIdentityFromToken.
  apply tame_bind; [ apply tame_wrapping, tame_call_err | intros token ].
  apply tame_bind; [ apply tame_call | intros now ].
  apply tame_bind.
  { unfold withAddress. destruct (AddressKind (Connection cfg));
      [ apply tame_fail | | ];
      (apply tame_bind; [ apply tame_wrapping, tame_lift | intros; apply tame_ret ]). }
  intros p1. apply tame_bind.
  { unfold withJoinMethod. destruct (RP_JoinMethod p1); try apply tame_ret.
    apply tame_bind; [ apply tame_catch, tame_call_err | intros x ].
    apply tame_bind; [ | intros; apply tame_ret ].
    destruct x; [ apply tame_ret | ].
    destruct (_ && _); [ apply tame_ret | apply tame_fail ]. }
  intros [bks p2].
  apply tame_bind; [ apply tame_wrapping, tame_call_err | intros result ].
  apply tame_bind.
  { destruct bks; [ | apply tame_ret ].
    apply tame_bind; [ apply tame_wrapping, tame_lift | intros ].
    apply tame_wrapping, tame_call_unit. }
  intros _.
  apply tame_bind; [ apply tame_wrapping, tame_lift | intros pem ].
  apply tame_bind; [ apply tame_wrapping, tame_lift | intros sshk ].
  apply tame_wrapping, tame_lift.
Qed.

Lemma tame_botIdentityFromAuth ident client ttl :
  tame (botIdentityFromAuth X ident client ttl).
Proof.
  unfold botIdentityFromAuth.
  destruct ident, client; try apply tame_fail.
  apply tame_bind; [ apply tame_wrapping, tame_call_err | intros key ].
  apply tame_bind; [ apply tame_wrapping, tame_lift | intros pem ].
  apply tame_bind; [ apply tame_wrapping, tame_lift | intros sshk ].
  apply tame_bind; [ apply tame_wrapping, tame_lift | intros tlsPub ].
  apply tame_bind; [ apply tame_call | intros now ].
  apply tame_bind; [ apply tame_wrapping, tame_call_err | intros certs ].
  apply tame_wrapping, tame_lift.
Qed.

Lemma tame_renewIdentity cfg old : tame (renewIdentity X cfg old).
Proof.
  unfold renewIdentity.
  apply tame_bind; [ apply tame_wrapping, tame_call_err | intros c ].
  apply tame_deferring; [ unfold closeClient; apply tame_call | ].
  destruct (Renewable (TLSIdentity old)).
  - apply tame_wrapping, tame_botIdentityFromAuth.
  - apply tame_bind; [ apply tame_call | intros now ].
    destruct (appearsExpired X _ now);
      apply tame_wrapping, tame_botIdentityFromToken.
Qed.

Lemma tame_loadIdentityFromStore cfg d : tame (loadIdentityFromStore X cfg d).
Proof.
  unfold loadIdentityFromStore.
  apply tame_bind; [ apply tame_catch, tame_call_err | intros x ].
  destruct x as [loaded | err].
  - apply tame_bind.
    + unfold tokenMismatch. destruct (Onboarding_HasToken X (Onboarding cfg));
        [ | apply tame_ret ].
      apply tame_bind; [ apply tame_catch, tame_call_err | intros t ].
      destruct t; apply tame_ret.
    + intros [ | ]; [ apply tame_ret | ].
      apply tame_bind; [ apply tame_call | intros; apply tame_ret ].
  - destruct (trace_IsNotFound err); apply tame_ret.
Qed.

End Tame.

(** ** The renewal cycle and the service *)

Section RenewFrame.

Context {Env : Type}.
Variable X : External Env.

Lemma wrapped_run_inv {A} msg (m : M (St Env) A) (s : Service) st r p' :
  wrapping msg (run m) (s, st) = (r, p') ->
  exists r0 st',
    m st = (r0, st') /\ p' = (s, st') /\
    r = match r0 with
        | Ok a => Ok a
        | Err e => Err (trace_Wrap e msg)
        | Panic => Panic
        end.
Proof.
  intros E. apply wrapping_inv in E. destruct E as [r0 [E Hr]].
  apply run_inv in E. destruct E as [st' [E Hp]]. eauto.
Qed.

Lemma renew_cases (s : Service) (f : Facade) (d : destination_Destination)
    (st : St Env) r s' st' :
  s_facade s = Some f ->
  renew X d (s, st) = (r, (s', st')) ->
  exists new,
    trace st' = trace st ++ new /\
    chans st' = chans st /\
    ((exists e, r = Err e /\ s' = s /\ Forall preparing_event new) \/
     (exists id pre sres,
        s' = set_facade (Facade_Set f id) s /\
        new = pre ++ [EvFacadeSet id; EvSaveIdentity id d sres] /\
        Forall preparing_event pre /\
        r = match sres with
            | None => Ok tt
            | Some e => Err (trace_Wrap e "saving new identity")
            end)).
Proof.
  intros Hf E. unfold renew in E. rewrite self_bind, Hf in E.
  unfold bind at 1 in E.
  match type of E with
  | context [ wrapping ?msg (run ?m) (s, st) ] =>
      destruct (wrapping msg (run m) (s, st)) as [r1 p1] eqn:E1
  end.
  apply wrapped_run_inv in E1. destruct E1 as [r0 [st1 [E1 [Hp1 Hr1]]]].
  apply call_unit_inv in E1. destruct E1 as [vres [e1 [_ [Hst1 Hr0]]]].
  subst p1 r1 r0.
  destruct vres as [e | ].
  { inversion E; subst. exists [EvVerifyWrite d (Some e)].
    split; [ reflexivity | ]. split; [ reflexivity | ].
    left. exists (trace_Wrap e (msg_cannot_write d)).
    repeat split; auto. repeat constructor. }
  unfold bind at 1 in E.
  match type of E with
  | context [ wrapping ?msg (run ?m) (s, st1) ] =>
      destruct (wrapping msg (run m) (s, st1)) as [r2 p2] eqn:E2
  end.
  apply wrapped_run_inv in E2. destruct E2 as [r0 [st2 [E2 [Hp2 Hr2]]]].
  destruct (tame_renewIdentity X _ _ _ _ _ E2) as [Hnp Hch].
  destruct (renewIdentity_emits X _ _ _ _ _ E2) as [[mid [T F]] _].
  unfold trace_of, Traced_St in T.
  assert (Fmid : Forall preparing_event mid).
  { eapply Forall_impl; [ | exact F ].
    intros ev Hev. destruct ev; simpl in *; auto. }
  subst p2 r2.
  destruct r0 as [id | e | ]; [ | | exfalso; apply Hnp; reflexivity ].
  2: { inversion E; subst. exists (EvVerifyWrite d None :: mid).
       split; [ rewrite T; unfold after; simpl; rewrite <- app_assoc;
                reflexivity | ].
       split; [ rewrite Hch; reflexivity | ].
       left. eexists. repeat split; auto. constructor; [ exact I | exact Fmid ]. }
  unfold bind at 1 in E. unfold update at 1 in E. cbv beta iota in E.
  simpl fst in E. simpl snd in E.
  unfold bind at 1 in E. unfold run at 1, emit at 1 in E.
  simpl fst in E. simpl snd in E. cbv beta iota in E.
  apply wrapped_run_inv in E. destruct E as [r0 [st3 [E [Hp3 Hr3]]]].
  apply call_unit_inv in E. destruct E as [sres [e3 [_ [Hst3 Hr0]]]].
  inversion Hp3; subst s' st'. subst st3 r0.
  exists ((EvVerifyWrite d None :: mid) ++ [EvFacadeSet id; EvSaveIdentity id d sres]).
  split.
  { unfold after. simpl. rewrite T. subst st1. unfold after. simpl.
    rewrite <- !app_assoc. reflexivity. }
  split; [ unfold after; simpl; rewrite Hch; subst st1; reflexivity | ].
  right. exists id, (EvVerifyWrite d None :: mid), sres.
  split; [ reflexivity | ]. split; [ reflexivity | ].
  split; [ constructor; [ exact I | exact Fmid ] | ].
  subst r. destruct sres; reflexivity.
Qed.

(** X12.  What a renewal cycle can and cannot change.  On a service
    that has a facade, [renew] never panics.  Of the service it changes
    nothing but the identity held by the facade: configuration, client,
    readiness gate and the flags of the facade stay, and no channel is
    made or closed, so a cycle never signals readiness by itself.  A
    cycle that fails before publishing leaves the facade as it was; a
    cycle that returns no error ends with a successful save of the very
    identity the facade then holds. *)
Theorem renew_changes_only_the_identity
    (s : Service) (f : Facade) (d : destination_Destination)
    (st : St Env) (r : result unit) (s' : Service) (st' : St Env)
    (new : list Event) :
  s_facade s = Some f ->
  renew X d (s, st) = (r, (s', st')) ->
  trace st' = trace st ++ new ->
  r <> Panic /\
  s_cfg s' = s_cfg s /\ s_client s' = s_client s /\
  s_initialized s' = s_initialized s /\
  s_initializedOnce s' = s_initializedOnce s /\
  chans st' = chans st /\ closes new = 0%nat /\
  (exists id, s_facade s' = Some (Facade_Set f id)) /\
  ((forall id, ~ In (EvFacadeSet id) new) -> s' = s) /\
  (r = Ok tt ->
   exists id pre,
     new = pre ++ [EvFacadeSet id; EvSaveIdentity id d None] /\
     option_map Facade_Get (s_facade s') = Some id).
Proof.
  intros Hf E T.
  destruct (renew_cases _ _ _ _ _ _ _ Hf E) as [new' [T' [Hch H]]].
  rewrite T in T'. apply app_inv_head in T'. subst new'.
  assert (Hcl : forall tr, Forall preparing_event tr -> closes tr = 0%nat).
  { intros tr HF. induction HF as [ | ev tr Hev HF IH ]; [ reflexivity | ].
    destruct ev; simpl in *; auto; contradiction. }
  destruct H as [[e [Hr [Hs F]]] | [id [pre [sres [Hs [Hnew [F Hr]]]]]]].
  - subst r s'. split; [ discriminate | ].
    repeat (split; [ reflexivity || exact Hch || (apply Hcl; exact F) | ]).
    split; [ exists (Facade_Get f); rewrite Hf; destruct f; reflexivity | ].
    split; [ auto | intros; discriminate ].
  - subst s' new. split; [ destruct sres; subst r; discriminate | ].
    repeat (split; [ reflexivity || exact Hch | ]).
    split; [ rewrite closes_app, (Hcl _ F); reflexivity | ].
    split; [ exists id; reflexivity | ].
    split.
    + intros Hno. exfalso. apply (Hno id). apply in_or_app. right. left.
      reflexivity.
    + intros Hok. destruct sres; [ subst r; discriminate | ].
      exists id, pre. split; reflexivity.
Qed.

End RenewFrame.

(** ** How [Initialize] ends *)

Section InitializeCases.

Context {Env : Type}.
Variable X : External Env.

Lemma gate_inv_frame ch ready (s s' : Service) (st st' : St Env) :
  s_initialized s' = s_initialized s ->
  s_initializedOnce s' = s_initializedOnce s ->
  chans st' = chans st ->
  gate_inv ch ready s st -> gate_inv ch ready s' st'.
Proof.
  intros Hi Ho Hc. unfold gate_inv. rewrite Hi, Ho, Hc. auto.
Qed.

Lemma unblockWaiters_frame ch ready (s : Service) (st : St Env) :
  gate_inv ch ready s st ->
  exists s' st' g,
    unblockWaiters (s, st) = (Ok tt, (s', st')) /\
    s_cfg s' = s_cfg s /\ s_client s' = s_client s /\
    s_facade s' = s_facade s /\
    s_initialized s' = Some ch /\ s_initializedOnce s' = true /\
    nth_error (chans st') ch = Some true /\
    env st' = env st /\
    trace st' = trace st ++ g /\
    Forall gate_event g /\
    closes g = (if ready then 0 else 1)%nat /\
    g = match s_initialized s with
        | None => [EvMakeChan ch]
        | Some _ => []
        end ++ (if ready then [] else [EvCloseChan ch]).
Proof.
  intros [[Hi [Ho [Hr Hc]]] | [Hi [Ho Hn]]].
  - subst ready ch.
    exists (set_done (set_initialized (List.length (chans st)) s)).
    eexists. exists [EvMakeChan (List.length (chans st));
                     EvCloseChan (List.length (chans st))].
    unfold unblockWaiters, ensureInitialized.
    unfold bind at 1. rewrite self_bind, Hi.
    unfold bind, run, make_chan, update, ret, self, close_chan. simpl.
    rewrite Ho. simpl.
    rewrite nth_error_app2, Nat.sub_diag by auto. simpl.
    split; [ reflexivity | ]. simpl.
    repeat split; auto.
    + eapply nth_error_set_closed.
      rewrite nth_error_app2, Nat.sub_diag by auto. reflexivity.
    + rewrite <- app_assoc. reflexivity.
    + repeat constructor.
  - destruct ready.
    + exists s, st, []. unfold unblockWaiters, ensureInitialized.
      unfold bind at 1. rewrite self_bind, Hi. unfold ret.
      rewrite self_bind, Ho. split; [ reflexivity | ].
      rewrite app_nil_r. repeat split; auto.
    + exists (set_done s). eexists. exists [EvCloseChan ch].
      unfold unblockWaiters, ensureInitialized.
      unfold bind at 1. rewrite self_bind, Hi. unfold ret.
      rewrite self_bind, Ho.
      unfold bind, run, update, close_chan. simpl. rewrite Hi, Hn.
      split; [ reflexivity | ]. simpl.
      repeat split; auto.
      * eapply nth_error_set_closed; eauto.
      * repeat constructor.
Qed.

Lemma Initialize_fallback_cases (old : Identity) (s : Service) (st : St Env)
    r s' st' :
  Initialize_fallback X old (s, st) = (r, (s', st')) ->
  let f := identity_NewFacade (FIPS (s_cfg s))
             (Insecure (Connection (s_cfg s))) old in
  chans st' = chans st /\
  ((exists e ce, r = Err e /\ s' = s /\
                 trace st' = trace st ++ [EvBuild f (inr ce)]) \/
   (exists c, r = Ok tt /\ s' = set_facade_client f c s /\
              trace st' = trace st ++ [EvBuild f (inl c); EvAssignFacade f])).
Proof.
  intros E f. unfold Initialize_fallback in E. rewrite self_bind in E.
  fold f in E.
  unfold bind at 1 in E.
  destruct (wrapping "" (run (call_err (Builder_Build X f) (EvBuild f))) (s, st))
    as [r1 p1] eqn:E1.
  apply wrapped_run_inv in E1. destruct E1 as [r0 [st1 [E1 [Hp1 Hr1]]]].
  apply call_err_inv in E1. destruct E1 as [res [e1 [_ [Hst1 Hr0]]]].
  subst p1 r1 r0 st1.
  destruct res as [c | ce].
  - unfold bind, update, run, emit in E. simpl in E.
    inversion E; subst. simpl. split; [ reflexivity | ].
    right. exists c. rewrite <- app_assoc. auto.
  - inversion E; subst. simpl. split; [ reflexivity | ].
    left. eauto.
Qed.

Lemma Initialize_publish_cases ch ready (id : Identity) (s : Service)
    (st : St Env) r s' st' :
  gate_inv ch ready s st ->
  Initialize_publish X id (s, st) = (r, (s', st')) ->
  let d := Destination (s_cfg s) in
  let f := identity_NewFacade (FIPS (s_cfg s))
             (Insecure (Connection (s_cfg s))) id in
  (exists e new, r = Err (trace_Wrap e "") /\ s' = s /\
     chans st' = chans st /\
     trace st' = trace st ++ new /\
     (new = [EvSaveIdentity id d (Some e)] \/
      new = [EvSaveIdentity id d None; EvBuild f (inr e)])) \/
  (exists c g,
     r = Ok tt /\
     trace st' = trace st ++ [EvSaveIdentity id d None; EvBuild f (inl c);
                              EvAssignFacade f] ++ g ++ [EvReport Healthy] /\
     Forall gate_event g /\
     closes g = (if ready then 0 else 1)%nat /\
     s_cfg s' = s_cfg s /\ s_facade s' = Some f /\ s_client s' = Some c /\
     s_initialized s' = Some ch /\ s_initializedOnce s' = true /\
     nth_error (chans st') ch = Some true).
Proof.
  intros Hinv E d f. unfold Initialize_publish in E. rewrite self_bind in E.
  fold d f in E.
  unfold bind at 1 in E.
  match type of E with
  | context [ wrapping ?msg (run ?m) (s, st) ] =>
      destruct (wrapping msg (run m) (s, st)) as [r1 p1] eqn:E1
  end.
  apply wrapped_run_inv in E1. destruct E1 as [r0 [st1 [E1 [Hp1 Hr1]]]].
  apply call_unit_inv in E1. destruct E1 as [sres [e1 [_ [Hst1 Hr0]]]].
  subst p1 r1 r0.
  destruct sres as [e | ].
  { inversion E; subst. left. exists e. eexists.
    split; [ reflexivity | ]. split; [ reflexivity | ].
    split; [ reflexivity | ]. split; [ reflexivity | ].
    left. reflexivity. }
  unfold bind at 1 in E.
  match type of E with
  | context [ wrapping ?msg (run ?m) (s, st1) ] =>
      destruct (wrapping msg (run m) (s, st1)) as [r2 p2] eqn:E2
  end.
  apply wrapped_run_inv in E2. destruct E2 as [r0 [st2 [E2 [Hp2 Hr2]]]].
  apply call_err_inv in E2. destruct E2 as [res [e2 [_ [Hst2 Hr0]]]].
  subst p2 r2 r0.
  destruct res as [c | ce].
  2: { inversion E; subst. left. exists ce. eexists.
       split; [ reflexivity | ]. split; [ reflexivity | ].
       split; [ reflexivity | ].
       split; [ simpl; rewrite <- app_assoc; reflexivity | ].
       right. reflexivity. }
  unfold bind at 1 in E. unfold update at 1 in E. cbv beta iota in E.
  simpl fst in E. simpl snd in E.
  unfold bind at 1 in E. unfold run at 1, emit at 1 in E.
  simpl fst in E. simpl snd in E. cbv beta iota in E.
  match type of E with
  | context [ bind unblockWaiters _ (?s3, ?st3) ] =>
      assert (Hinv3 : gate_inv ch ready s3 st3)
  end.
  { eapply gate_inv_frame; [ | | | exact Hinv ]; subst; reflexivity. }
  destruct (unblockWaiters_frame _ _ _ _ Hinv3)
    as [s4 [st4 [g [Eu [Hc4 [Hcl4 [Hf4 [Hi4 [Ho4 [Hn4 [He4 [T4 [Fg [Hg _]]]]]]]]]]]]]].
  erewrite bind_ok in E by exact Eu.
  unfold run, emit in E. simpl in E. inversion E; subst s' st' r.
  right. exists c, g. simpl.
  split; [ reflexivity | ].
  split.
  { rewrite T4. simpl. subst st2 st1. unfold after. simpl.
    rewrite <- !app_assoc. simpl. reflexivity. }
  repeat split; auto.
Qed.

Lemma preparing_unpublished ev : preparing_event ev -> unpublished_event ev.
Proof. destruct ev; simpl; auto. Qed.

Lemma load_event_preparing ev : load_event ev -> preparing_event ev.
Proof. destruct ev; simpl; auto. Qed.

Lemma join_event_preparing okp ev : join_event okp ev -> preparing_event ev.
Proof. destruct ev; simpl; auto. Qed.

Lemma renewal_event_preparing cfg old ev :
  renewal_event cfg old ev -> preparing_event ev.
Proof. destruct ev; simpl; auto. Qed.

Lemma Initialize_cases ch ready (s : Service) (st : St Env) r s' st' :
  gate_inv ch ready s st ->
  Initialize X (s, st) = (r, (s', st')) ->
  exists new,
    trace st' = trace st ++ new /\
    (init_failed s st new r s' st' \/
     init_fell_back s st new r s' st' \/
     init_published ch ready s st new r s' st').
Proof.
  intros Hinv E.
  destruct (loadIdentityFromStore_shape X (s_cfg s) (Destination (s_cfg s)) st)
    as [li [valid [st1 [L [El [TL [FL HL]]]]]]].
  destruct (tame_loadIdentityFromStore X _ _ _ _ _ El) as [_ Hch1].
  assert (PL : Forall preparing_event L)
    by (eapply Forall_impl; [ apply load_event_preparing | exact FL ]).
  unfold Initialize in E. rewrite self_bind in E.
  erewrite bind_ok in E by (apply run_eq; exact El). cbv beta iota in E.
  destruct (negb valid && negb (Onboarding_HasToken X (Onboarding (s_cfg s)))).
  { unfold fail in E. inversion E; subst. exists L.
    split; [ exact TL | ]. left.
    split; [ eauto | ]. split; [ reflexivity | ]. split; [ exact Hch1 | ].
    eapply Forall_impl; [ apply preparing_unpublished | exact PL ]. }
  assert (Hinv1 : forall st2 : St Env,
             chans st2 = chans st1 -> gate_inv ch ready s st2).
  { intros st2 Hc. eapply gate_inv_frame; [ | | | exact Hinv ];
      try reflexivity. rewrite Hc. exact Hch1. }
  assert (Hpub : forall A id (st2 : St Env),
             trace st2 = trace st1 ++ A -> Forall preparing_event A ->
             chans st2 = chans st1 ->
             Initialize_publish X id (s, st2) = (r, (s', st')) ->
             exists new,
               trace st' = trace st ++ new /\
               (init_failed s st new r s' st' \/
                init_fell_back s st new r s' st' \/
                init_published ch ready s st new r s' st')).
  { intros A id st2 TA PA Hc2 Ep.
    destruct (Initialize_publish_cases ch ready id s st2 r s' st'
                (Hinv1 _ Hc2) Ep)
      as [[e [T [Hr [Hs [Hc [TT HT]]]]]] |
          [c [g [Hr [TT [Fg [Hg H]]]]]]].
    - exists (L ++ A ++ T).
      split; [ rewrite TT, TA, TL, <- !app_assoc; reflexivity | ].
      left. split; [ eauto | ]. split; [ exact Hs | ].
      split; [ rewrite Hc, Hc2; exact Hch1 | ].
      apply Forall_app. split;
        [ eapply Forall_impl; [ apply preparing_unpublished | exact PL ] | ].
      apply Forall_app. split;
        [ eapply Forall_impl; [ apply preparing_unpublished | exact PA ] | ].
      destruct HT as [HT | HT]; subst T; repeat constructor.
    - exists ((L ++ A) ++
              [EvSaveIdentity id (Destination (s_cfg s)) None;
               EvBuild (identity_NewFacade (FIPS (s_cfg s))
                          (Insecure (Connection (s_cfg s))) id) (inl c);
               EvAssignFacade (identity_NewFacade (FIPS (s_cfg s))
                          (Insecure (Connection (s_cfg s))) id)]
              ++ g ++ [EvReport Healthy]).
      split; [ rewrite TT, TA, TL, <- !app_assoc; reflexivity | ].
      right. right. exists id, c, (L ++ A), g. cbv zeta.
      split; [ exact Hr | ]. split; [ reflexivity | ].
      split; [ apply Forall_app; split; assumption | ].
      split; [ exact Fg | ]. split; [ exact Hg | exact H ]. }
  destruct li as [old | ].
  - set (attempt := if valid
                    then renewIdentity X (s_cfg s) old
                    else botIdentityFromToken X (s_cfg s) None) in E.
    destruct (attempt st1) as [ra st2] eqn:Ea.
    assert (HA : exists A, trace st2 = trace st1 ++ A /\
                           Forall preparing_event A /\
                           ra <> Panic /\ chans st2 = chans st1).
    { subst attempt. destruct valid.
      - destruct (renewIdentity_emits X _ _ _ _ _ Ea) as [[A [TA FA]] _].
        destruct (tame_renewIdentity X _ _ _ _ _ Ea) as [Hnp Hc].
        exists A. split; [ exact TA | ].
        split; [ | split; assumption ].
        eapply Forall_impl; [ apply renewal_event_preparing | exact FA ].
      - destruct (botIdentityFromToken_emits X _ _ _ _ _ Ea) as [[A [TA FA]] _].
        destruct (tame_botIdentityFromToken X _ _ _ _ _ Ea) as [Hnp Hc].
        exists A. split; [ exact TA | ].
        split; [ | split; assumption ].
        eapply Forall_impl; [ apply join_event_preparing | exact FA ]. }
    destruct HA as [A [TA [PA [Hnp Hc2]]]].
    destruct ra as [newIdentity | err | ]; [ | | exfalso; apply Hnp; reflexivity ].
    + erewrite bind_ok in E by (apply catch_ok, run_eq; exact Ea).
      cbv beta iota in E. eapply Hpub; eauto.
    + erewrite bind_ok in E by (apply catch_err, run_eq; exact Ea).
      cbv beta iota in E.
      destruct (Initialize_fallback_cases old s st2 r s' st' E)
        as [Hc [[e [ce [Hr [Hs TT]]]] | [c [Hr [Hs TT]]]]].
      * eexists. split; [ rewrite TT, TA, TL, <- !app_assoc; reflexivity | ].
        left. split; [ eauto | ]. split; [ exact Hs | ].
        split; [ rewrite Hc, Hc2; exact Hch1 | ].
        apply Forall_app. split;
          [ eapply Forall_impl; [ apply preparing_unpublished | exact PL ] | ].
        apply Forall_app. split;
          [ eapply Forall_impl; [ apply preparing_unpublished | exact PA ] | ].
        repeat constructor.
      * exists ((L ++ A) ++
                [EvBuild (identity_NewFacade (FIPS (s_cfg s))
                            (Insecure (Connection (s_cfg s))) old) (inl c);
                 EvAssignFacade (identity_NewFacade (FIPS (s_cfg s))
                            (Insecure (Connection (s_cfg s))) old)]).
        split; [ rewrite TT, TA, TL, <- !app_assoc; reflexivity | ].
        right. left. exists old, c, (L ++ A). cbv zeta.
        split; [ exact Hr | ]. split; [ reflexivity | ].
        split; [ apply Forall_app; split; assumption | ].
        split; [ apply in_or_app; left; apply HL; reflexivity | ].
        split; [ exact Hs | rewrite Hc, Hc2; exact Hch1 ].
  - destruct (botIdentityFromToken X (s_cfg s) None st1) as [ra st2] eqn:Ea.
    destruct (botIdentityFromToken_emits X _ _ _ _ _ Ea) as [[A [TA FA]] _].
    unfold trace_of, Traced_St in TA.
    destruct (tame_botIdentityFromToken X _ _ _ _ _ Ea) as [Hnp Hc2].
    assert (PA : Forall preparing_event A)
      by (eapply Forall_impl; [ apply join_event_preparing | exact FA ]).
    destruct ra as [newIdentity | err | ]; [ | | exfalso; apply Hnp; reflexivity ].
    + erewrite bind_ok in E by (apply wrapping_ok, run_eq; exact Ea).
      eapply Hpub; eauto.
    + erewrite bind_err in E by (apply wrapping_err, run_eq; exact Ea).
      inversion E; subst. exists (L ++ A).
      split; [ rewrite TA, TL, <- !app_assoc; reflexivity | ].
      left. split; [ eauto | ]. split; [ reflexivity | ].
      split; [ rewrite Hc2; exact Hch1 | ].
      apply Forall_app. split;
        (eapply Forall_impl; [ apply preparing_unpublished | eassumption ]).
Qed.

End InitializeCases.

Section ServiceTheorems.

Context {Env : Type}.
Variable X : External Env.

Lemma IsReady_spec ch ready (s : Service) (st : St Env) :
  gate_inv ch ready s st ->
  exists s' st', IsReady (s, st) = (Ok ready, (s', st')).
Proof.
  intros Hinv.
  destruct (ensureInitialized_spec _ _ _ _ Hinv)
    as [s1 [st1 [E [Hi [Ho [Hn Hc]]]]]].
  exists s1, st1. unfold IsReady, Ready.
  erewrite bind_ok by exact E.
  unfold run, chan_closed. simpl. rewrite Hn. reflexivity.
Qed.




(** X15.  [Initialize] never panics and ends in one of three ways.  It
    fails, and the service is exactly as before: nothing was assigned
    to it, no channel was made or closed and no health was reported.
    Or it falls back: it returns no error with facade and client built
    around the identity it had loaded, without saving anything and
    without touching the gate.  Or it publishes: the fresh identity is
    saved without error, then the client is built and assigned with
    the facade, then the gate is opened (closing the channel if it was
    not closed yet), and reporting health is the last thing it does. *)
Theorem Initialize_ends_in_one_of_three_ways
    (ch : nat) (ready : bool) (s : Service) (st : St Env)
    (r : result unit) (s' : Service) (st' : St Env) (new : list Event) :
  gate_inv ch ready s st ->
  Initialize X (s, st) = (r, (s', st')) ->
  trace st' = trace st ++ new ->
  init_failed s st new r s' st' \/
  init_fell_back s st new r s' st' \/
  init_published ch ready s st new r s' st'.
Proof.
  intros Hinv E T.
  destruct (Initialize_cases X _ _ _ _ _ _ _ Hinv E) as [new' [T' H]].
  rewrite T in T'. apply app_inv_head in T'. subst new'. exact H.
Qed.

Lemma unpublished_no_report new :
  Forall unpublished_event new -> ~ In (EvReport Healthy) new.
Proof.
  intros F Hin. rewrite Forall_forall in F. exact (F _ Hin).
Qed.

Lemma preparing_no_report new :
  Forall preparing_event new -> ~ In (EvReport Healthy) new.
Proof.
  intros F Hin. rewrite Forall_forall in F. exact (F _ Hin).
Qed.

(** X16.  On a service whose gate is not ready, [Initialize] makes the
    service ready exactly when it has published a fresh identity:
    [IsReady] afterwards answers true if and only if health was
    reported, and then the call returned no error.  After a fall-back
    onto the old identity, and after a failure, [IsReady] still answers
    false. *)
Theorem Initialize_makes_ready_iff_it_publishes
    (ch : nat) (s : Service) (st : St Env)
    (r : result unit) (s' : Service) (st' : St Env) (new : list Event) :
  gate_inv ch false s st ->
  Initialize X (s, st) = (r, (s', st')) ->
  trace st' = trace st ++ new ->
  exists b,
    fst (IsReady (s', st')) = Ok b /\
    (b = true <-> In (EvReport Healthy) new) /\
    (b = true -> r = Ok tt /\ closes new = 1%nat) /\
    (b = false -> closes new = 0%nat).
Proof.
  intros Hinv E T.
  destruct (Initialize_cases X _ _ _ _ _ _ _ Hinv E) as [new' [T' H]].
  rewrite T in T'. apply app_inv_head in T'. subst new'.
  assert (Hcl : forall tr, Forall unpublished_event tr -> closes tr = 0%nat).
  { intros tr HF. induction HF as [ | ev tr Hev HF IH ]; [ reflexivity | ].
    destruct ev; simpl in *; auto; contradiction. }
  assert (Hclp : forall tr, Forall preparing_event tr -> closes tr = 0%nat).
  { intros tr HF. apply Hcl. eapply Forall_impl; [ | exact HF ].
    apply preparing_unpublished. }
  destruct H as [[_ [Hs [Hc F]]] | [H | H]].
  - subst s'.
    assert (Hinv' : gate_inv ch false s st')
      by (eapply gate_inv_frame; [ | | | exact Hinv ]; auto).
    destruct (IsReady_spec _ _ _ _ Hinv') as [s2 [st2 Ei]].
    exists false. rewrite Ei. split; [ reflexivity | ].
    split; [ split; [ discriminate | ] | ].
    + intros Hin. exfalso. exact (unpublished_no_report _ F Hin).
    + split; [ discriminate | intros _; apply Hcl; exact F ].
  - destruct H as [old [c [pre [Hr [Hnew [F [_ [Hs Hc]]]]]]]].
    assert (Hinv' : gate_inv ch false s' st')
      by (eapply gate_inv_frame; [ | | | exact Hinv ]; subst s'; auto).
    destruct (IsReady_spec _ _ _ _ Hinv') as [s2 [st2 Ei]].
    exists false. rewrite Ei. split; [ reflexivity | ].
    split; [ split; [ discriminate | ] | ].
    + intros Hin. exfalso. rewrite Hnew in Hin. apply in_app_or in Hin.
      destruct Hin as [Hin | [Hin | [Hin | []]]]; try discriminate.
      exact (preparing_no_report _ F Hin).
    + split; [ discriminate | ]. intros _. rewrite Hnew, closes_app, (Hclp _ F).
      reflexivity.
  - destruct H as [id [c [pre [g [Hr [Hnew [F [Fg [Hg [_ [_ [_ [Hi [Ho Hn]]]]]]]]]]]]]].
    assert (Hinv' : gate_inv ch true s' st') by (right; auto).
    destruct (IsReady_spec _ _ _ _ Hinv') as [s2 [st2 Ei]].
    exists true. rewrite Ei. split; [ reflexivity | ].
    split; [ split; [ intros _ | reflexivity ] | ].
    + rewrite Hnew. apply in_or_app. right. apply in_or_app. right.
      apply in_or_app. right. left. reflexivity.
    + split; [ | discriminate ]. intros _. split; [ exact Hr | ].
      rewrite Hnew, !closes_app, (Hclp _ F), Hg. reflexivity.
Qed.

(** X17.  Once [Initialize] has returned no error, the service can be
    used: [GetClient] returns a client, [GetIdentity] does not panic,
    and a renewal cycle on any destination does not panic either,
    leaves client, configuration and gate alone, and leaves in the
    facade an identity that [GetIdentity] returns from then on. *)
Theorem renew_after_Initialize
    (ch : nat) (ready : bool) (s : Service) (st : St Env)
    (s1 : Service) (st1 : St Env)
    (d : destination_Destination)
    (r : result unit) (s2 : Service) (st2 : St Env) :
  gate_inv ch ready s st ->
  Initialize X (s, st) = (Ok tt, (s1, st1)) ->
  renew X d (s1, st1) = (r, (s2, st2)) ->
  (exists c, GetClient (s1, st1) = (Ok (Some c), (s1, st1)) /\
             GetClient (s2, st2) = (Ok (Some c), (s2, st2))) /\
  (exists id, GetIdentity (s1, st1) = (Ok id, (s1, st1))) /\
  r <> Panic /\
  (exists id, GetIdentity (s2, st2) = (Ok id, (s2, st2)) /\
              (r = Ok tt ->
               exists pre, trace st2 = pre ++ [EvSaveIdentity id d None])) /\
  s_cfg s2 = s_cfg s /\
  fst (IsReady (s2, st2)) = fst (IsReady (s1, st1)).
Proof.
  intros Hinv E Er.
  destruct (Initialize_cases X _ _ _ _ _ _ _ Hinv E) as [new [T H]].
  assert (H1 : exists f c ready1,
             s_facade s1 = Some f /\ s_client s1 = Some c /\
             s_cfg s1 = s_cfg s /\ gate_inv ch ready1 s1 st1).
  { destruct H as [[[e He] _] | [H | H]]; [ discriminate | | ].
    - destruct H as [old [c [pre [_ [_ [_ [_ [Hs Hc]]]]]]]].
      eexists. exists c, ready. subst s1. simpl.
      repeat split; try reflexivity.
      eapply gate_inv_frame; [ | | | exact Hinv ]; auto.
    - destruct H as [id [c [pre [g [_ [_ [_ [_ [_ [Hcfg [Hf [Hcl [Hi [Ho Hn]]]]]]]]]]]]]].
      eexists. exists c, true. repeat split; eauto. right. auto. }
  destruct H1 as [f [c [ready1 [Hf [Hc [Hcfg Hinv1]]]]]].
  destruct (renew_cases X _ _ _ _ _ _ _ Hf Er) as [new2 [T2 [Hch2 H2]]].
  assert (Hfr : s_cfg s2 = s_cfg s1 /\ s_client s2 = s_client s1 /\
                s_initialized s2 = s_initialized s1 /\
                s_initializedOnce s2 = s_initializedOnce s1 /\
                exists f2, s_facade s2 = Some f2).
  { destruct H2 as [[e [_ [Hs _]]] | [id [pre [sres [Hs _]]]]]; subst s2;
      simpl; repeat split; eauto. }
  destruct Hfr as [Hcfg2 [Hc2 [Hi2 [Ho2 [f2 Hf2]]]]].
  split.
  { exists c. unfold GetClient. rewrite !self_bind, Hc2, Hc. split; reflexivity. }
  split.
  { exists (Facade_Get f). unfold GetIdentity. rewrite self_bind, Hf. reflexivity. }
  split.
  { destruct H2 as [[e [Hr _]] | [id [pre [sres [_ [_ [_ Hr]]]]]]];
      subst r; [ | destruct sres ]; discriminate. }
  split.
  { exists (Facade_Get f2). unfold GetIdentity. rewrite self_bind, Hf2.
    split; [ reflexivity | ]. intros Hok.
    destruct H2 as [[e [Hr _]] | [id [pre [sres [Hs [Hnew [_ Hr]]]]]]];
      [ subst r; discriminate | ].
    destruct sres; [ subst r; discriminate | ].
    subst s2. simpl in Hf2. inversion Hf2; subst f2. simpl.
    exists (trace st1 ++ pre ++ [EvFacadeSet id]).
    rewrite T2, Hnew, <- !app_assoc. reflexivity. }
  split; [ rewrite Hcfg2; exact Hcfg | ].
  assert (Hinv2 : gate_inv ch ready1 s2 st2)
    by (eapply gate_inv_frame; [ | | | exact Hinv1 ]; auto).
  destruct (IsReady_spec _ _ _ _ Hinv1) as [sa [sta Ea]].
  destruct (IsReady_spec _ _ _ _ Hinv2) as [sb [stb Eb]].
  rewrite Ea, Eb. reflexivity.
Qed.

End ServiceTheorems.

(** ** The start of [Run] *)

Section RunStartupTheorems.

Context {Env : Type}.
Variable X : External Env.
Variable retryutils_NewRetryV2 : option error.
Variable retry_After : Env -> bool * Env.

Lemma ensureInitialized_frame ch ready (s : Service) (st : St Env) :
  gate_inv ch ready s st ->
  exists s' st' g,
    ensureInitialized (s, st) = (Ok ch, (s', st')) /\
    s_cfg s' = s_cfg s /\ s_client s' = s_client s /\
    s_facade s' = s_facade s /\
    s_initialized s' = Some ch /\ s_initializedOnce s' = ready /\
    nth_error (chans st') ch = Some ready /\
    trace st' = trace st ++ g /\
    Forall retrying_event g /\
    closes g = 0%nat /\
    (ready = true -> s' = s /\ st' = st /\ g = []).
Proof.
  intros [[Hi [Ho [Hr Hc]]] | [Hi [Ho Hn]]].
  - subst ready ch.
    exists (set_initialized (List.length (chans st)) s).
    eexists. exists [EvMakeChan (List.length (chans st))].
    unfold ensureInitialized. rewrite self_bind, Hi.
    unfold bind, run, make_chan, update, ret. simpl.
    split; [ reflexivity | ]. simpl.
    repeat split; auto; try discriminate.
    + rewrite nth_error_app2, Nat.sub_diag by auto. reflexivity.
    + repeat constructor.
  - exists s, st, []. unfold ensureInitialized. rewrite self_bind, Hi.
    rewrite app_nil_r. repeat split; auto.
Qed.

Lemma preparing_retrying ev : preparing_event ev -> retrying_event ev.
Proof. destruct ev; simpl; auto; contradiction. Qed.

Lemma closes_retrying tr : Forall retrying_event tr -> closes tr = 0%nat.
Proof.
  intros HF. induction HF as [ | ev tr Hev HF IH ]; [ reflexivity | ].
  destruct ev; simpl in *; auto; contradiction.
Qed.

Lemma Run_retry_cases (ch : nat) (d : destination_Destination) (fuel : nat) :
  forall (s : Service) (st : St Env) f r s' st',
    s_facade s = Some f ->
    s_initialized s = Some ch -> s_initializedOnce s = false ->
    nth_error (chans st) ch = Some false ->
    Run_retry X retry_After fuel d (s, st) = (r, (s', st')) ->
    exists new,
      trace st' = trace st ++ new /\
      s_cfg s' = s_cfg s /\ s_client s' = s_client s /\
      s_initialized s' = Some ch /\
      ((r = Ok RenewalLoop /\ s_initializedOnce s' = true /\
        nth_error (chans st') ch = Some true /\
        exists id pre,
          new = pre ++ [EvFacadeSet id; EvSaveIdentity id d None;
                        EvCloseChan ch] /\
          Forall retrying_event pre /\
          option_map Facade_Get (s_facade s') = Some id) \/
       ((r = Ok Returned \/ r = Ok StillRetrying) /\
        s_initializedOnce s' = false /\ chans st' = chans st /\
        Forall retrying_event new)).
Proof.
  induction fuel as [ | fuel IH ]; intros s st f r s' st' Hf Hi Ho Hn E.
  - simpl in E. unfold ret in E. inversion E; subst.
    exists []. rewrite app_nil_r. repeat split; auto.
  - simpl in E. unfold bind at 1 in E. unfold run at 1, wait_retry at 1 in E.
    simpl fst in E. simpl snd in E.
    destruct (retry_After (env st)) as [fired e0] eqn:Ew.
    cbv beta iota in E.
    destruct fired.
    2: { unfold ret in E. inversion E; subst. exists []. simpl.
         rewrite app_nil_r. repeat split; auto. }
    set (st0 := {| env := e0; chans := chans st; trace := trace st |}) in E.
    destruct (renew X d (s, st0)) as [rr [s1 st1]] eqn:Er.
    destruct (renew_cases X _ _ _ _ _ _ _ Hf Er) as [new1 [T1 [Hch1 H1]]].
    simpl in T1, Hch1.
    destruct H1 as [[e [Hr [Hs F1]]] | [id [pre [sres [Hs [Hnew [F1 Hr]]]]]]].
    + (* the cycle failed before publishing *)
      subst rr s1.
      erewrite bind_ok in E by (apply catch_err; exact Er).
      cbv beta iota in E.
      assert (Hn1 : nth_error (chans st1) ch = Some false)
        by (rewrite Hch1; exact Hn).
      destruct (IH _ _ _ _ _ _ Hf Hi Ho Hn1 E)
        as [new2 [T2 [Hcfg [Hcl [Hi2 H2]]]]].
      assert (R1 : Forall retrying_event new1)
        by (eapply Forall_impl; [ apply preparing_retrying | exact F1 ]).
      exists (new1 ++ new2).
      split; [ rewrite T2, T1, <- app_assoc; reflexivity | ].
      repeat (split; [ assumption | ]).
      destruct H2 as [[Hr [Ho2 [Hn2 [id [pre [Hnew [Fp Hid]]]]]]] |
                      [Hr [Ho2 [Hc2 F2]]]].
      * left. repeat (split; [ assumption | ]).
        exists id, (new1 ++ pre).
        split; [ rewrite Hnew, <- app_assoc; reflexivity | ].
        split; [ apply Forall_app; split; assumption | exact Hid ].
      * right. split; [ exact Hr | ]. split; [ exact Ho2 | ].
        split; [ rewrite Hc2; exact Hch1 | ].
        apply Forall_app; split; assumption.
    + destruct sres as [e | ].
      * (* the cycle published but could not save *)
        subst rr s1.
        erewrite bind_ok in E by (apply catch_err; exact Er).
        cbv beta iota in E.
        assert (Hn1 : nth_error (chans st1) ch = Some false)
          by (rewrite Hch1; exact Hn).
        destruct (IH (set_facade (Facade_Set f id) s) st1 _ _ _ _
                    eq_refl Hi Ho Hn1 E)
          as [new2 [T2 [Hcfg [Hcl [Hi2 H2]]]]].
        simpl in Hcfg, Hcl.
        assert (R1 : Forall retrying_event new1).
        { subst new1. apply Forall_app. split.
          - eapply Forall_impl; [ apply preparing_retrying | exact F1 ].
          - repeat constructor. }
        exists (new1 ++ new2).
        split; [ rewrite T2, T1, <- app_assoc; reflexivity | ].
        repeat (split; [ assumption | ]).
        destruct H2 as [[Hr [Ho2 [Hn2 [id2 [pre2 [Hnew2 [Fp Hid]]]]]]] |
                        [Hr [Ho2 [Hc2 F2]]]].
        -- left. repeat (split; [ assumption | ]).
           exists id2, (new1 ++ pre2).
           split; [ rewrite Hnew2, <- app_assoc; reflexivity | ].
           split; [ apply Forall_app; split; assumption | exact Hid ].
        -- right. split; [ exact Hr | ]. split; [ exact Ho2 | ].
           split; [ rewrite Hc2; exact Hch1 | ].
           apply Forall_app; split; assumption.
      * (* the cycle succeeded *)
        subst rr s1.
        erewrite bind_ok in E by (apply catch_ok; exact Er).
        cbv beta iota in E.
        assert (Hinv1 : gate_inv ch false
                          (set_facade (Facade_Set f id) s) st1).
        { right. simpl. rewrite Hch1. auto. }
        destruct (unblockWaiters_frame _ _ _ _ Hinv1)
          as [s4 [st4 [g [Eu [Hc4 [Hcl4 [Hf4 [Hi4 [Ho4 [Hn4 [_ [T4 [Fg [Hg Hgs]]]]]]]]]]]]]].
        erewrite bind_ok in E by exact Eu.
        unfold ret in E. inversion E; subst r s' st'. clear E.
        simpl in Hgs. rewrite Hi in Hgs. simpl in Hgs.
        subst g.
        exists (new1 ++ [EvCloseChan ch]).
        split; [ rewrite T4, T1, <- app_assoc; reflexivity | ].
        simpl in Hc4, Hcl4, Hf4.
        repeat (split; [ assumption | ]).
        left. split; [ reflexivity | ]. split; [ exact Ho4 | ].
        split; [ exact Hn4 | ].
        exists id, pre.
        split; [ rewrite Hnew, <- app_assoc; reflexivity | ].
        split; [ eapply Forall_impl; [ apply preparing_retrying | exact F1 ] | ].
        rewrite Hf4. reflexivity.
Qed.

(** X18.  The start of [Run], on a service that has a facade.  It
    never panics and changes neither configuration nor client.  When
    the service is ready it goes straight on to the renewal loop and
    does nothing.  When it is not, it goes on to the renewal loop only
    after a renewal cycle has returned no error, and only then does it
    open the gate: the trace ends with the successful save of the
    identity the facade holds and the closing of the channel, no
    earlier cycle had saved without error, and [IsReady] answers true
    from then on.  However else it is left (cancelled while waiting, no
    retry to be had, or still retrying) the gate stays shut. *)
Theorem Run_waits_for_a_successful_renewal
    (ch : nat) (ready : bool) (fuel : nat)
    (s : Service) (f : Facade) (st : St Env)
    (r : result RunStartup) (s' : Service) (st' : St Env)
    (new : list Event) :
  gate_inv ch ready s st ->
  s_facade s = Some f ->
  Run_startup X retryutils_NewRetryV2 retry_After fuel (s, st)
  = (r, (s', st')) ->
  trace st' = trace st ++ new ->
  r <> Panic /\
  s_cfg s' = s_cfg s /\ s_client s' = s_client s /\
  (ready = true -> r = Ok RenewalLoop /\ s' = s /\ st' = st) /\
  (r = Ok RenewalLoop ->
   fst (IsReady (s', st')) = Ok true /\
   (ready = false ->
    exists id pre,
      new = pre ++ [EvFacadeSet id;
                    EvSaveIdentity id (Destination (s_cfg s)) None;
                    EvCloseChan ch] /\
      Forall retrying_event pre /\
      option_map Facade_Get (s_facade s') = Some id)) /\
  (r <> Ok RenewalLoop ->
   ready = false /\ closes new = 0%nat /\
   fst (IsReady (s', st')) = Ok false).
Proof.
  intros Hinv Hf E T.
  destruct (ensureInitialized_frame _ _ _ _ Hinv)
    as [s1 [st1 [g [Ee [Hc1 [Hcl1 [Hf1 [Hi1 [Ho1 [Hn1 [T1 [Fg [Hg Hsame]]]]]]]]]]]]].
  assert (Ei : IsReady (s, st) = (Ok ready, (s1, st1))).
  { unfold IsReady, Ready. erewrite bind_ok by exact Ee.
    unfold run, chan_closed. simpl. rewrite Hn1. reflexivity. }
  unfold Run_startup in E. rewrite self_bind in E.
  erewrite bind_ok in E by exact Ei.
  destruct ready.
  { (* already ready *)
    destruct (Hsame eq_refl) as [Hs1 [Hst1 Hg0]]. subst s1 st1 g.
    unfold ret in E. inversion E; subst r s' st'.
    split; [ discriminate | ]. split; [ reflexivity | ].
    split; [ reflexivity | ]. split; [ auto | ].
    split.
    - intros _. rewrite Ei. split; [ reflexivity | discriminate ].
    - intros Hne. exfalso. apply Hne. reflexivity. }
  assert (Hinv1 : gate_inv ch false s1 st1) by (right; auto).
  destruct retryutils_NewRetryV2 as [err | ].
  { unfold fail in E. inversion E; subst r s' st'.
    rewrite T1 in T. apply app_inv_head in T. subst new.
    split; [ discriminate | ]. split; [ exact Hc1 | ].
    split; [ exact Hcl1 | ]. split; [ discriminate | ].
    split; [ discriminate | ]. intros _.
    split; [ reflexivity | ]. split; [ exact Hg | ].
    destruct (IsReady_spec _ _ _ _ Hinv1) as [sa [sta Ea]].
    rewrite Ea. reflexivity. }
  rewrite <- Hf1 in Hf.
  destruct (Run_retry_cases ch (Destination (s_cfg s)) fuel
              s1 st1 f r s' st' Hf Hi1 Ho1 Hn1 E)
    as [new2 [T2 [Hcfg [Hcl [Hi2 H2]]]]].
  assert (Hnew : new = g ++ new2).
  { rewrite T1, <- app_assoc in T2. rewrite T in T2.
    apply app_inv_head in T2. exact T2. }
  destruct H2 as [[Hr [Ho2 [Hn2 [id [pre [Hnew2 [Fp Hid]]]]]]] |
                  [Hr [Ho2 [Hc2 F2]]]].
  - subst r. split; [ discriminate | ].
    split; [ rewrite Hcfg; exact Hc1 | ].
    split; [ rewrite Hcl; exact Hcl1 | ].
    split; [ discriminate | ].
    split.
    + intros _.
      assert (Hinv2 : gate_inv ch true s' st') by (right; auto).
      destruct (IsReady_spec _ _ _ _ Hinv2) as [sa [sta Ea]].
      rewrite Ea. split; [ reflexivity | ]. intros _.
      exists id, (g ++ pre).
      split; [ rewrite Hnew, Hnew2, <- app_assoc; reflexivity | ].
      split; [ apply Forall_app; split; assumption | exact Hid ].
    + intros Hne. exfalso. apply Hne. reflexivity.
  - split; [ destruct Hr; subst r; discriminate | ].
    split; [ rewrite Hcfg; exact Hc1 | ].
    split; [ rewrite Hcl; exact Hcl1 | ].
    split; [ discriminate | ].
    split; [ intros Hr'; destruct Hr; subst r; discriminate | ].
    intros _. split; [ reflexivity | ].
    split.
    + rewrite Hnew, closes_app, Hg, (closes_retrying _ F2). reflexivity.
    + assert (Hinv2 : gate_inv ch false s' st').
      { right. rewrite Hc2. auto. }
      destruct (IsReady_spec _ _ _ _ Hinv2) as [sa [sta Ea]].
      rewrite Ea. reflexivity.
Qed.

End RunStartupTheorems.

(** ** Closing the service *)

Section CloseTheorems.

Context {Env : Type}.
Variable X : External Env.
Variable Client_Close_error : Client -> Env -> option error.

(** X19.  [Close] after [Initialize], on a service that had no client.
    It never panics and leaves the service as it is.  If [Initialize]
    had failed there is no client and [Close] does nothing at all.  If
    [Initialize] had returned no error, [Close] makes exactly one call:
    it closes the client that [Initialize] built around the facade it
    assigned, and returns that call's error, wrapped. *)
Theorem Close_closes_the_client_of_Initialize
    (ch : nat) (ready : bool) (s : Service) (st : St Env)
    (r1 : result unit) (s1 : Service) (st1 : St Env) (new : list Event)
    (r : result unit) (s2 : Service) (st2 : St Env) :
  gate_inv ch ready s st ->
  s_client s = None ->
  Initialize X (s, st) = (r1, (s1, st1)) ->
  trace st1 = trace st ++ new ->
  Close X Client_Close_error (s1, st1) = (r, (s2, st2)) ->
  s2 = s1 /\ chans st2 = chans st1 /\
  (r1 <> Ok tt -> r = Ok tt /\ st2 = st1) /\
  (r1 = Ok tt ->
   exists f c pre post,
     s_facade s1 = Some f /\
     new = pre ++ EvBuild f (inl c) :: EvAssignFacade f :: post /\
     trace st2 = trace st1 ++ [EvClose c] /\
     env st2 = Client_Close X c (env st1) /\
     r = match Client_Close_error c (env st1) with
         | None => Ok tt
         | Some e => Err (trace_Wrap e "")
         end).
Proof.
  intros Hinv Hnc E T Ec.
  destruct (Initialize_cases X _ _ _ _ _ _ _ Hinv E) as [new' [T' H]].
  rewrite T in T'. apply app_inv_head in T'. subst new'.
  unfold Close, GetClient, bind, self, ret in Ec.
  cbv beta iota in Ec. cbn [fst] in Ec.
  destruct H as [[[e He] [Hs _]] | [H | H]].
  - subst s1 r1. rewrite Hnc in Ec.
    inversion Ec; subst. repeat split; auto. discriminate.
  - destruct H as [old [c [pre [Hr [Hnew [_ [_ [Hs _]]]]]]]].
    subst s1. simpl s_client in Ec.
    apply wrapped_run_inv in Ec. destruct Ec as [r0 [st' [Ec [Hp Hr0]]]].
    apply call_unit_inv in Ec. destruct Ec as [res [e' [Hc [Hst Hres]]]].
    inversion Hp; subst s2 st2. inversion Hc; subst res e'. subst st'.
    split; [ reflexivity | ]. split; [ reflexivity | ].
    split; [ intros Hne; exfalso; apply Hne; exact Hr | ]. intros _.
    eexists. exists c, pre, []. simpl.
    split; [ reflexivity | ]. split; [ exact Hnew | ].
    split; [ reflexivity | ]. split; [ reflexivity | ].
    subst r r0. destruct (Client_Close_error c (env st1)); reflexivity.
  - destruct H as [id [c [pre [g [Hr [Hnew [_ [_ [_ [_ [Hf [Hcl _]]]]]]]]]]]].
    rewrite Hcl in Ec.
    apply wrapped_run_inv in Ec. destruct Ec as [r0 [st' [Ec [Hp Hr0]]]].
    apply call_unit_inv in Ec. destruct Ec as [res [e' [Hc [Hst Hres]]]].
    inversion Hp; subst s2 st2. inversion Hc; subst res e'. subst st'.
    split; [ reflexivity | ]. split; [ reflexivity | ].
    split; [ intros Hne; exfalso; apply Hne; exact Hr | ]. intros _.
    eexists. exists c, (pre ++ [EvSaveIdentity id (Destination (s_cfg s)) None]),
      (g ++ [EvReport Healthy]).
    split; [ exact Hf | ].
    split; [ rewrite Hnew, <- !app_assoc; reflexivity | ].
    split; [ reflexivity | ]. split; [ reflexivity | ].
    subst r r0. destruct (Client_Close_error c (env st1)); reflexivity.
Qed.

End CloseTheorems.

(** * Encrypting session recordings: the proofs *)

Section RecordingEncryptionTheorems.

Import RecordingEncryption.

Context {Env : Type}.
Variable ParseRecordingRecipient : bytes -> Recipient + error.
Variable GetSessionRecordingConfig :
  Env -> (SessionRecordingConfig + error) * Env.
Variable age_Encrypt :
  WriteCloser -> list Recipient -> Env -> (WriteCloser + error) * Env.
Variable WriteCloser_Write :
  WriteCloser -> bytes -> Env -> (Z * option error) * Env.
Variable WriteCloser_Close : WriteCloser -> Env -> option error * Env.

Lemma parseRecipients_ok keys : forall acc rs,
  parseRecipients ParseRecordingRecipient keys acc = inl rs ->
  exists parsed,
    rs = acc ++ parsed /\
    map ParseRecordingRecipient keys = map inl parsed.
Proof.
  induction keys as [ | key keys IH ]; intros acc rs E; simpl in E.
  - inversion E; subst. exists []. rewrite app_nil_r. auto.
  - destruct (ParseRecordingRecipient key) as [r | err] eqn:Ep;
      [ | discriminate ].
    destruct (IH _ _ E) as [parsed [Hrs Hmap]].
    exists (r :: parsed). rewrite Hrs, <- app_assoc. simpl.
    rewrite Ep, Hmap. auto.
Qed.

Lemma parseRecipients_err keys : forall acc err,
  parseRecipients ParseRecordingRecipient keys acc = inr err ->
  exists good bad rest e,
    keys = good ++ bad :: rest /\
    Forall (fun k => exists r, ParseRecordingRecipient k = inl r) good /\
    ParseRecordingRecipient bad = inr e /\
    err = trace_Wrap e "".
Proof.
  induction keys as [ | key keys IH ]; intros acc err E; simpl in E.
  - discriminate.
  - destruct (ParseRecordingRecipient key) as [r | e] eqn:Ep.
    + destruct (IH _ _ E) as [good [bad [rest [e [Hk [Hg [Hb He]]]]]]].
      exists (key :: good), bad, rest, e. subst keys.
      repeat split; auto. constructor; eauto.
    + inversion E; subst. exists [], key, keys, e. repeat split; auto.
Qed.

(** X20.  The writer [EncryptionWrapper.WithEncryption] returns: the
    configuration enables encryption, every key of it was parsed, the
    recipients are the parsed keys, as many and in the order of the
    configuration, and the writer wraps the stream it was given without
    having set up anything yet. *)
Theorem WithEncryption_recipients_are_the_parsed_keys
    (config : SessionRecordingConfig) (writer : WriteCloser)
    (a : ageWriter) :
  EncryptionWrapper_WithEncryption ParseRecordingRecipient config writer
  = inl a ->
  GetEncrypted config = true /\
  map ParseRecordingRecipient (GetEncryptionKeys config)
  = map inl (aw_recipients a) /\
  List.length (aw_recipients a) = List.length (GetEncryptionKeys config) /\
  aw_w a = writer /\ aw_initialized a = false.
Proof.
  unfold EncryptionWrapper_WithEncryption. intros E.
  destruct (GetEncrypted config); [ | discriminate ]. simpl in E.
  destruct (parseRecipients ParseRecordingRecipient
              (GetEncryptionKeys config) []) as [rs | err] eqn:Ep;
    [ | discriminate ].
  inversion E; subst a; clear E. simpl.
  destruct (parseRecipients_ok _ _ _ Ep) as [parsed [Hrs Hmap]].
  simpl in Hrs. subst parsed.
  split; [ reflexivity | ]. split; [ exact Hmap | ].
  split; [ | auto ].
  apply (f_equal (@List.length _)) in Hmap. rewrite !length_map in Hmap.
  symmetry. exact Hmap.
Qed.

(** X21.  The errors of [EncryptionWrapper.WithEncryption].  Either the
    configuration does not enable encryption, which is reported as
    [ErrEncryptionDisabled] whatever the keys are; or it does, and the
    error is that of the first key, in the order of the configuration,
    that could not be parsed.  Both are wrapped once. *)
Theorem WithEncryption_errors
    (config : SessionRecordingConfig) (writer : WriteCloser) (err : error) :
  EncryptionWrapper_WithEncryption ParseRecordingRecipient config writer
  = inr err ->
  (GetEncrypted config = false /\
   err = trace_Wrap ErrEncryptionDisabled "") \/
  (GetEncrypted config = true /\
   exists good bad rest e,
     GetEncryptionKeys config = good ++ bad :: rest /\
     Forall (fun k => exists r, ParseRecordingRecipient k = inl r) good /\
     ParseRecordingRecipient bad = inr e /\
     err = trace_Wrap e "").
Proof.
  unfold EncryptionWrapper_WithEncryption. intros E.
  destruct (GetEncrypted config); simpl in E.
  - right. split; [ reflexivity | ].
    destruct (parseRecipients ParseRecordingRecipient
                (GetEncryptionKeys config) []) as [rs | err'] eqn:Ep;
      [ discriminate | ].
    inversion E; subst err'. eapply parseRecipients_err; eauto.
  - left. inversion E. auto.
Qed.

Lemma encrypt_calls_app tr1 tr2 :
  encrypt_calls (tr1 ++ tr2) = (encrypt_calls tr1 + encrypt_calls tr2)%nat.
Proof.
  induction tr1 as [ | ev tr1 IH ]; simpl; [ reflexivity | ].
  destruct ev; simpl; rewrite IH; reflexivity.
Qed.

Lemma writer_step_lazily raw rs cur op (a : ageWriter)
    (st : IOSt (Env := Env)) :
  writer_at raw rs cur a ->
  exists cur' es a' st',
    writer_step age_Encrypt WriteCloser_Write WriteCloser_Close op (a, st)
    = (a', st') /\
    io_trace st' = io_trace st ++ es /\
    writer_at raw rs cur' a' /\
    (forall tr, lazily_encrypted raw rs cur' tr ->
                lazily_encrypted raw rs cur (es ++ tr)) /\
    (encrypt_calls es <= write_ops [op])%nat /\
    (cur <> None -> cur' = cur /\ encrypt_calls es = 0%nat) /\
    (write_ops [op] = 0%nat -> a' = a).
Proof.
  intros [Hrs Hcur].
  destruct op as [data | ]; unfold writer_step; cbn [fst snd].
  - unfold ageWriter_Write.
    destruct cur as [c | ]; destruct Hcur as [Hi Hw]; rewrite Hi;
      cbn [negb].
    + destruct (WriteCloser_Write (aw_w a) data (io_env st)) as [r e] eqn:Ew.
      exists (Some c), [EvWrite (aw_w a) data (fst r) (snd r)]. do 2 eexists.
      split; [ reflexivity | ]. split; [ reflexivity | ].
      split; [ split; auto | ]. simpl.
      repeat split; auto; try discriminate.
    + destruct (age_Encrypt (aw_w a) (aw_recipients a) (io_env st))
        as [[w | err] e] eqn:Ee.
      * cbn [aw_w io_env io_after].
        destruct (WriteCloser_Write w data e) as [r e2] eqn:Ew.
        exists (Some w),
          [EvEncrypt (aw_w a) (aw_recipients a) (inl w);
           EvWrite w data (fst r) (snd r)].
        do 2 eexists.
        split; [ reflexivity | ].
        split; [ simpl; rewrite <- app_assoc; reflexivity | ].
        split; [ split; auto | ]. simpl.
        repeat split; auto; try discriminate;
          exfalso; auto.
      * exists None, [EvEncrypt (aw_w a) (aw_recipients a) (inr err)].
        do 2 eexists.
        split; [ reflexivity | ]. split; [ reflexivity | ].
        split; [ split; auto | ]. simpl.
        repeat split; auto; try discriminate;
          exfalso; auto.
  - unfold ageWriter_Close.
    destruct (WriteCloser_Close (aw_w a) (io_env st)) as [r e] eqn:Ec.
    exists cur, [EvCloseWriter (aw_w a) r]. do 2 eexists.
    split; [ reflexivity | ]. split; [ reflexivity | ].
    split; [ split; auto | ]. simpl.
    destruct cur as [c | ]; destruct Hcur as [Hi Hw]; repeat split; auto.
Qed.

Lemma writer_run_lazily raw rs ops :
  forall cur (a : ageWriter) (st : IOSt (Env := Env)),
    writer_at raw rs cur a ->
    exists new,
      io_trace (snd (writer_run age_Encrypt WriteCloser_Write
                       WriteCloser_Close ops (a, st)))
      = io_trace st ++ new /\
      lazily_encrypted raw rs cur new /\
      (encrypt_calls new <= write_ops ops)%nat /\
      (cur <> None -> encrypt_calls new = 0%nat) /\
      (write_ops ops = 0%nat ->
       fst (writer_run age_Encrypt WriteCloser_Write
              WriteCloser_Close ops (a, st)) = a).
Proof.
  induction ops as [ | op ops IH ]; intros cur a st Hat.
  - exists []. simpl. rewrite app_nil_r. repeat split; auto.
  - destruct (writer_step_lazily raw rs cur op a st Hat)
      as [cur' [es [a' [st' [Es [T [Hat' [HL [Hn [Hz Hsame]]]]]]]]]].
    destruct (IH cur' a' st' Hat') as [new [T2 [L2 [Hn2 [Hz2 Hsame2]]]]].
    exists (es ++ new).
    unfold writer_run in *. simpl fold_left. rewrite Es.
    split; [ rewrite T2, T, <- app_assoc; reflexivity | ].
    split; [ apply HL; exact L2 | ].
    rewrite encrypt_calls_app.
    assert (Hw : write_ops (op :: ops)
                 = (write_ops [op] + write_ops ops)%nat)
      by (destruct op; reflexivity).
    split; [ rewrite Hw; apply Nat.add_le_mono; assumption | ].
    split.
    + intros Hne. destruct (Hz Hne) as [Hc He]. rewrite He.
      apply Hz2. rewrite Hc. exact Hne.
    + rewrite Hw. intros H0. apply Nat.eq_add_0 in H0.
      destruct H0 as [H1 H2].
      rewrite (Hsame2 H2). apply Hsame. exact H1.
Qed.

Lemma EncryptedIO_WithEncryption_inv (writer : WriteCloser)
    (st0 : IOSt (Env := Env)) a st :
  EncryptedIO_WithEncryption ParseRecordingRecipient
    GetSessionRecordingConfig writer st0 = (inl a, st) ->
  exists src e,
    GetSessionRecordingConfig (io_env st0) = (inl src, e) /\
    st = io_after st0 e (EvGetConfig (inl src)) /\
    EncryptionWrapper_WithEncryption ParseRecordingRecipient src writer
    = inl a.
Proof.
  unfold EncryptedIO_WithEncryption. intros E.
  destruct (GetSessionRecordingConfig (io_env st0)) as [[src | err] e];
    [ | discriminate ].
  destruct (EncryptionWrapper_WithEncryption ParseRecordingRecipient
              src writer) as [w | err] eqn:Ew; [ | discriminate ].
  inversion E; subst. eauto.
Qed.

(** X22.  The writer sets up encryption on its first write and not
    before.  Take the writer [EncryptedIO.WithEncryption] returns for a
    stream and use it in any way, writing and closing.  Making the
    writer fetched the configuration, once, and touched no stream.
    From then on encryption is only ever set up on that stream and for
    the parsed keys of the fetched configuration; it is tried at most
    once per write, and never again once it has succeeded; every write
    goes to the encrypting stream, none to the stream itself; a close
    before the first successful write closes the stream itself.  With
    no write at all, encryption is never set up and the writer stays
    as made. *)
Theorem ageWriter_sets_up_encryption_on_first_write
    (writer : WriteCloser) (st0 : IOSt (Env := Env))
    (a : ageWriter) (st : IOSt (Env := Env)) (ops : list WriterOp)
    (a' : ageWriter) (st' : IOSt (Env := Env)) (new : list IOEvent) :
  EncryptedIO_WithEncryption ParseRecordingRecipient
    GetSessionRecordingConfig writer st0 = (inl a, st) ->
  writer_run age_Encrypt WriteCloser_Write WriteCloser_Close ops (a, st)
  = (a', st') ->
  io_trace st' = io_trace st0 ++ new ->
  exists src rest,
    new = EvGetConfig (inl src) :: rest /\
    fst (GetSessionRecordingConfig (io_env st0)) = inl src /\
    map ParseRecordingRecipient (GetEncryptionKeys src)
    = map inl (aw_recipients a) /\
    lazily_encrypted writer (aw_recipients a) None rest /\
    (encrypt_calls rest <= write_ops ops)%nat /\
    (write_ops ops = 0%nat -> encrypt_calls rest = 0%nat /\ a' = a).
Proof.
  intros Eio Er T.
  destruct (EncryptedIO_WithEncryption_inv _ _ _ _ Eio)
    as [src [e [Eg [Hst Ew]]]].
  assert (Ha : aw_w a = writer /\ aw_initialized a = false /\
               map ParseRecordingRecipient (GetEncryptionKeys src)
               = map inl (aw_recipients a)).
  { unfold EncryptionWrapper_WithEncryption in Ew.
    destruct (GetEncrypted src); [ | discriminate ]. simpl in Ew.
    destruct (parseRecipients ParseRecordingRecipient
                (GetEncryptionKeys src) []) as [rs | err] eqn:Ep;
      [ | discriminate ].
    inversion Ew; subst a; clear Ew. simpl.
    destruct (parseRecipients_ok _ _ _ Ep) as [parsed [Hrs Hmap]].
    simpl in Hrs. subst parsed. auto. }
  destruct Ha as [Hw [Hi Hmap]].
  destruct (writer_run_lazily writer (aw_recipients a) ops None a st)
    as [rest [T' [L [Hn [_ Hsame]]]]]; [ split; auto | ].
  rewrite Er in T', Hsame. simpl in T', Hsame.
  exists src, rest.
  split.
  { rewrite Hst in T'. simpl in T'. rewrite <- app_assoc in T'.
    rewrite T in T'. apply app_inv_head in T'. exact T'. }
  split; [ rewrite Eg; reflexivity | ].
  split; [ exact Hmap | ]. split; [ exact L | ]. split; [ exact Hn | ].
  intros H0. split; [ | apply Hsame; exact H0 ].
  rewrite H0 in Hn. apply Nat.le_0_r. exact Hn.
Qed.

End RecordingEncryptionTheorems.

(** ** The further theorems at work on the concrete world *)

Module MoreChecks.

Import TestWorld.
Import Variations.
Local Open Scope string_scope.
Local Open Scope list_scope.

(** X7 at work: the store holds an identity made with "tok-A", the
    configuration names "tok-B" but the token cannot be read. *)
Lemma unreadable_token_keeps_stored_identity_witness :
  exists valid st',
    loadIdentityFromStore world_token_unreadable cfgB "memory"
      (start (test_env 150 (Some idA)))
    = (Ok (Some idA, valid), st').
Proof.
  apply (unreadable_token_keeps_stored_identity world_token_unreadable cfgB
           "memory" (start (test_env 150 (Some idA))) idA
           (test_env 150 (Some idA)) eq_refl).
  right. exists err_token_file, (test_env 150 (Some idA)). reflexivity.
Defined.

(** X8 at work: a first join on an empty store. *)
Lemma joined_identity_is_kept_on_reload_witness :
  exists tok e1,
    Onboarding_Token world (Onboarding cfgA) (env (start (test_env 150 None)))
      = (inl tok, e1) /\
    TokenHashBytes (joined 0) = sha256_hex world tok /\
    forall d (st1 : St Env) e2 e3,
      identity_LoadIdentity world d (env st1) = (inl (joined 0), e2) ->
      Onboarding_Token world (Onboarding cfgA) e2 = (inl tok, e3) ->
      exists valid st2,
        loadIdentityFromStore world cfgA d st1
        = (Ok (Some (joined 0), valid), st2).
Proof.
  apply (joined_identity_is_kept_on_reload world cfgA None
           (start (test_env 150 None)) (joined 0)
           (snd (botIdentityFromToken world cfgA None
                   (start (test_env 150 None))))).
  - intros p certs id' H. inversion H. reflexivity.
  - reflexivity.
Defined.

(** X2 at work: an auth address and FIPS; the clock says 150, the TTL is
    60. *)
Lemma registration_request_is_well_formed_witness :
  let new :=
    trace (snd (botIdentityFromToken world cfgAuthAddr None
                  (start (test_env 150 None)))) in
  exists p res,
    In (EvRegister p res) new /\
    AuthServers p
      = [{| Addr := "auth.example.com:3025"; AddrNetwork := "tcp" |}] /\
    ProxyServer p = None /\
    RP_Expires p = Some 210 /\
    RP_CipherSuites p = FIPSCipherSuites /\
    exists tok now,
      nth_error new 0 = Some (EvToken (inl tok)) /\
      nth_error new 1 = Some (EvNow now) /\
      requestFor cfgAuthAddr None tok now p /\
      addressedPer world cfgAuthAddr p.
Proof.
  cbv zeta. eexists. eexists.
  split; [ vm_compute; right; right; left; reflexivity | ].
  repeat (split; [ reflexivity | ]).
  eapply (registration_request_is_well_formed world cfgAuthAddr None
            (start (test_env 150 None)) _ _ _ _ _ eq_refl eq_refl).
  vm_compute. right. right. left. reflexivity.
Defined.

(** X3 at work: the Azure method, in a configuration that also holds a
    Terraform Cloud tag and a GitLab variable name. *)
Lemma only_the_configured_method_is_parameterised_witness :
  let new :=
    trace (snd (botIdentityFromToken world cfgAuthAddr None
                  (start (test_env 150 None)))) in
  exists p res,
    In (EvRegister p res) new /\
    AzureParams_ClientID p = "azure-client" /\
    TerraformCloudAudienceTag p = "" /\
    GitlabParams_EnvVarName p = "" /\
    methodParamsPer cfgAuthAddr p.
Proof.
  cbv zeta. eexists. eexists.
  split; [ vm_compute; right; right; left; reflexivity | ].
  repeat (split; [ reflexivity | ]).
  eapply (only_the_configured_method_is_parameterised world cfgAuthAddr None
            (start (test_env 150 None)) _ _ _ _ _ eq_refl eq_refl).
  vm_compute. right. right. left. reflexivity.
Defined.

(** X4 at work: a token that cannot be read. *)
Lemma at_most_one_registration_witness :
  registrations
    (trace (snd (botIdentityFromToken world_token_unreadable cfgA None
                   (start (test_env 150 None))))) = 0%nat /\
  exists e,
    fst (botIdentityFromToken world_token_unreadable cfgA None
           (start (test_env 150 None))) = Err e.
Proof.
  destruct (at_most_one_registration world_token_unreadable cfgA None
              (start (test_env 150 None)) _ _ _ eq_refl eq_refl)
    as [_ [Hnone Hzero]].
  assert (H0 : registrations
                 (trace (snd (botIdentityFromToken world_token_unreadable cfgA
                                None (start (test_env 150 None))))) = 0%nat).
  { apply Hzero. left.
    exists err_token_file, (test_env 150 None). reflexivity. }
  split; [ exact H0 | exact (Hnone H0) ].
Defined.

(** X5 at work: the bound keypair method with a state on disk. *)
Lemma bound_keypair_state_is_stored_after_registration_witness :
  exists pre b,
    trace (snd (botIdentityFromToken world_keypair cfgKeypair None
                  (start (test_env 150 None))))
    = pre ++ [EvStoreClientState b None].
Proof.
  destruct (bound_keypair_state_is_stored_after_registration world_keypair
              cfgKeypair None (start (test_env 150 None)) _ _ _
              eq_refl eq_refl)
    as [_ [_ Hok]].
  exact (Hok eq_refl _ eq_refl).
Defined.

(** X9 at work: a renewable identity, with the auth server up. *)
Lemma renewIdentity_closes_its_client_witness :
  let run := renewIdentity world cfgToken idRenewable
               (start (test_env 150 (Some idRenewable))) in
  let facade := identity_NewFacade false false idRenewable in
  (exists e,
     trace (snd run) = [EvBuild facade (inr e)] /\
     fst run = Err (trace_Wrap e "creating auth client")) \/
  (exists c mid,
     trace (snd run) = EvBuild facade (inl c) :: mid ++ [EvClose c] /\
     Forall between_build_and_close mid).
Proof.
  exact (renewIdentity_closes_its_client world cfgToken idRenewable
           (start (test_env 150 (Some idRenewable))) _ _ _ eq_refl eq_refl).
Defined.

(** X10 at work: the same renewal sends no registration. *)
Lemma renewal_paths_do_not_mix_witness :
  let new := trace (snd (renewIdentity world cfgToken idRenewable
                           (start (test_env 150 (Some idRenewable))))) in
  Forall no_join_call new /\ registrations new = 0%nat.
Proof.
  exact (proj1 (renewal_paths_do_not_mix world cfgToken idRenewable
                  (start (test_env 150 (Some idRenewable))) _ _ _
                  eq_refl eq_refl) eq_refl).
Defined.

(** X11 at work: a renewal through the client 7, at 150 with a TTL of
    60. *)
Lemma renewal_request_content_witness :
  let new := trace (snd (botIdentityFromAuth world (Some idRenewable)
                           (Some 7%nat) 60 (start (test_env 150 None)))) in
  exists req res,
    In (EvGenerateUserCerts 7%nat req res) new /\
    Username req = "bot-test" /\
    Expires req = 210 /\
    exists id key now sshk,
      Some idRenewable = Some id /\ Some 7%nat = Some 7%nat /\
      new = [EvGenerateKey (CurrentSuiteFromAuthPreference 7%nat) HostIdentity
               (inl key);
             EvNow now;
             EvGenerateUserCerts 7%nat req res] /\
      Username req = Subject_CommonName (X509Cert id) /\
      Expires req = time_Add now 60 /\
      ssh_NewPublicKey world (Signer_Public world key) = inl sshk /\
      SSHPublicKey req = ssh_MarshalAuthorizedKey world sshk /\
      keys_MarshalPublicKey world (Signer_Public world key)
      = inl (TLSPublicKey req).
Proof.
  cbv zeta. eexists. eexists.
  split; [ vm_compute; right; right; left; reflexivity | ].
  split; [ reflexivity | ]. split; [ reflexivity | ].
  eapply (proj2 (renewal_request_content world (Some idRenewable)
                   (Some 7%nat) 60 (start (test_env 150 None)) _ _ _
                   eq_refl eq_refl)).
  vm_compute. right. right. left. reflexivity.
Defined.


(** X12 at work: a renewal cycle on a running service. *)
Lemma renew_changes_only_the_identity_witness :
  let run := renew world "memory"
               (running_service cfgToken idRenewable,
                start (test_env 150 (Some idRenewable))) in
  fst run = Ok tt /\
  s_client (fst (snd run)) = Some 7%nat /\
  closes (trace (snd (snd run))) = 0%nat /\
  option_map Facade_Get (s_facade (fst (snd run))) = Some (renewed 0).
Proof.
  cbv zeta.
  edestruct (renew_changes_only_the_identity world
               (running_service cfgToken idRenewable)
               (identity_NewFacade false false idRenewable) "memory"
               (start (test_env 150 (Some idRenewable))))
    as [_ [_ [Hc [_ [_ [_ [Hcl _]]]]]]];
    [ reflexivity | vm_compute; reflexivity | reflexivity | ].
  split; [ vm_compute; reflexivity | ].
  split; [ vm_compute; reflexivity | ].
  split; [ exact Hcl | vm_compute; reflexivity ].
Defined.

(** X15 at work: a first start on an empty store publishes. *)
Lemma Initialize_ends_in_one_of_three_ways_witness :
  let s := fresh_service cfgA in
  let st := start (test_env 150 None) in
  let run := Initialize world (s, st) in
  init_failed s st (trace (snd (snd run))) (fst run)
    (fst (snd run)) (snd (snd run)) \/
  init_fell_back s st (trace (snd (snd run))) (fst run)
    (fst (snd run)) (snd (snd run)) \/
  init_published 0 false s st (trace (snd (snd run))) (fst run)
    (fst (snd run)) (snd (snd run)).
Proof.
  cbv zeta.
  edestruct (Initialize_ends_in_one_of_three_ways world 0 false
               (fresh_service cfgA) (start (test_env 150 None)))
    as [H | [H | H]];
    [ exact (or_introl (conj eq_refl (conj eq_refl (conj eq_refl eq_refl))))
    | vm_compute; reflexivity | reflexivity | | | ].
  - left. vm_compute. exact H.
  - right. left. vm_compute. exact H.
  - right. right. vm_compute. exact H.
Defined.

(** X16 at work: the auth server is down and the store holds an
    identity; [Initialize] falls back and the service is not ready. *)
Lemma Initialize_makes_ready_iff_it_publishes_witness :
  let run := Initialize world
               (fresh_service cfgA,
                start (auth_down (test_env 150 (Some idA)))) in
  exists b,
    fst (IsReady (snd run)) = Ok b /\
    (b = true <-> In (EvReport Healthy) (trace (snd (snd run)))) /\
    (b = true ->
     fst run = Ok tt /\ closes (trace (snd (snd run))) = 1%nat) /\
    (b = false -> closes (trace (snd (snd run))) = 0%nat).
Proof.
  cbv zeta.
  edestruct (Initialize_makes_ready_iff_it_publishes world 0
               (fresh_service cfgA)
               (start (auth_down (test_env 150 (Some idA)))))
    as [b [Hb [Hiff [Ht Hf]]]];
    [ exact (or_introl (conj eq_refl (conj eq_refl (conj eq_refl eq_refl))))
    | vm_compute; reflexivity | reflexivity | ].
  exists b. split; [ vm_compute; vm_compute in Hb; exact Hb | ].
  split; [ vm_compute; vm_compute in Hiff; exact Hiff | ].
  split; [ intros Hbt; vm_compute; vm_compute in Ht; exact (Ht Hbt)
         | intros Hbf; vm_compute; vm_compute in Hf; exact (Hf Hbf) ].
Defined.

(** X17 at work: a first start, then one renewal cycle. *)
Lemma renew_after_Initialize_witness :
  let p1 := snd (Initialize world
                   (fresh_service cfgToken, start (test_env 150 None))) in
  let run := renew world "memory" p1 in
  fst run <> Panic /\ s_cfg (fst (snd run)) = cfgToken /\
  fst (IsReady (snd run)) = fst (IsReady p1).
Proof.
  cbv zeta.
  edestruct (fun s1 st1 =>
               renew_after_Initialize world 0 false
                 (fresh_service cfgToken) (start (test_env 150 None))
                 s1 st1 "memory")
    as [_ [_ [Hnp [_ [Hc Hr]]]]];
    [ exact (or_introl (conj eq_refl (conj eq_refl (conj eq_refl eq_refl))))
    | vm_compute; reflexivity | vm_compute; reflexivity | ].
  split; [ vm_compute; discriminate | ].
  split; [ vm_compute; reflexivity | ].
  vm_compute. vm_compute in Hr. exact Hr.
Defined.

(** X18 at work: the service fell back at start-up; the auth server
    answers from the third attempt on. *)
Lemma Run_waits_for_a_successful_renewal_witness :
  let run := Run_startup world None auth_comes_back 5
               (waiting_service cfgToken idRenewable,
                waiting (auth_down (test_env 150 (Some idRenewable)))) in
  fst run = Ok RenewalLoop /\
  fst (IsReady (snd run)) = Ok true /\
  exists id pre,
    trace (snd (snd run))
    = pre ++ [EvFacadeSet id; EvSaveIdentity id "memory" None;
              EvCloseChan 0] /\
    Forall retrying_event pre /\
    option_map Facade_Get (s_facade (fst (snd run))) = Some id.
Proof.
  cbv zeta.
  edestruct (Run_waits_for_a_successful_renewal world None auth_comes_back
               0 false 5 (waiting_service cfgToken idRenewable)
               (identity_NewFacade false false idRenewable)
               (waiting (auth_down (test_env 150 (Some idRenewable)))))
    as [_ [_ [_ [_ [Hloop _]]]]];
    [ exact (or_intror (conj eq_refl (conj eq_refl eq_refl)))
    | reflexivity | vm_compute; reflexivity | reflexivity | ].
  destruct (Hloop eq_refl) as [Hready Hlast].
  split; [ vm_compute; reflexivity | ].
  split; [ vm_compute; reflexivity | ].
  destruct (Hlast eq_refl) as [id [pre [Hnew [Hpre Hid]]]].
  exists id, pre. vm_compute. vm_compute in Hnew, Hid.
  split; [ exact Hnew | ]. split; [ exact Hpre | exact Hid ].
Defined.

(** X19 at work: a first start, then [Close]. *)
Lemma Close_closes_the_client_of_Initialize_witness :
  let p1 := snd (Initialize world
                   (fresh_service cfgA, start (test_env 150 None))) in
  let run := Close world (fun _ _ => None) p1 in
  exists f c pre post,
    s_facade (fst p1) = Some f /\
    trace (snd p1) = pre ++ EvBuild f (inl c) :: EvAssignFacade f :: post /\
    trace (snd (snd run)) = trace (snd p1) ++ [EvClose c] /\
    env (snd (snd run)) = Client_Close world c (env (snd p1)) /\
    fst run = Ok tt.
Proof.
  cbv zeta.
  edestruct (Close_closes_the_client_of_Initialize world (fun _ _ => None)
               0 false (fresh_service cfgA) (start (test_env 150 None)))
    as [_ [_ [_ Hok]]];
    [ exact (or_introl (conj eq_refl (conj eq_refl (conj eq_refl eq_refl))))
    | reflexivity | vm_compute; reflexivity | reflexivity
    | vm_compute; reflexivity | ].
  destruct (Hok eq_refl) as [f [c [pre [post [Hf [Hnew [Ht [He Hr]]]]]]]].
  exists f, c, pre, post. vm_compute. vm_compute in Hf, Hnew, Ht, He.
  split; [ exact Hf | ]. split; [ exact Hnew | ].
  split; [ exact Ht | ]. split; [ exact He | reflexivity ].
Defined.

End MoreChecks.

(** ** The recording writer at work *)

Module RecordingChecks.

Import RecordingEncryption.
Import RecordingWorld.

(** X20 at work: two keys. *)
Lemma WithEncryption_recipients_are_the_parsed_keys_witness :
  exists a,
    EncryptionWrapper_WithEncryption parse (encrypted [keyA; keyB]) 5%nat
    = inl a /\
    GetEncrypted (encrypted [keyA; keyB]) = true /\
    map parse [keyA; keyB] = map inl (aw_recipients a) /\
    List.length (aw_recipients a) = 2%nat /\
    aw_w a = 5%nat /\ aw_initialized a = false.
Proof.
  eexists. split; [ reflexivity | ].
  exact (WithEncryption_recipients_are_the_parsed_keys parse
           (encrypted [keyA; keyB]) 5%nat _ eq_refl).
Defined.

(** X21 at work: the second of three keys is empty. *)
Lemma WithEncryption_errors_witness :
  exists good bad rest e,
    [keyA; []; keyB] = good ++ bad :: rest /\
    Forall (fun k => exists r, parse k = inl r) good /\
    parse bad = inr e /\
    trace_Wrap err_bad_key "" = trace_Wrap e "".
Proof.
  destruct (WithEncryption_errors parse (encrypted [keyA; []; keyB]) 5%nat
              (trace_Wrap err_bad_key "") eq_refl) as [[H _] | [_ H]].
  - discriminate H.
  - exact H.
Defined.

(** X22 at work: a close, two writes and a close. *)
Lemma ageWriter_sets_up_encryption_on_first_write_witness :
  let made := EncryptedIO_WithEncryption parse (get_config [keyA; keyB])
                5%nat begin in
  let a := {| aw_w := 5%nat; aw_recipients := [keyA; keyB];
              aw_initialized := false |} in
  let ops := [OpClose; OpWrite [Byte.x01]; OpWrite [Byte.x02]; OpClose] in
  fst made = inl a /\
  io_trace (snd (writer_run encrypt write close ops (a, snd made)))
  = [EvGetConfig (inl (encrypted [keyA; keyB]));
     EvCloseWriter 5%nat None;
     EvEncrypt 5%nat [keyA; keyB] (inl 1%nat);
     EvWrite 1%nat [Byte.x01] 1 None;
     EvWrite 1%nat [Byte.x02] 1 None;
     EvCloseWriter 1%nat None] /\
  exists src rest,
    io_trace (snd (writer_run encrypt write close ops (a, snd made)))
    = EvGetConfig (inl src) :: rest /\
    lazily_encrypted 5%nat [keyA; keyB] None rest /\
    (encrypt_calls rest <= 2)%nat.
Proof.
  cbv zeta. split; [ reflexivity | ]. split; [ reflexivity | ].
  destruct (ageWriter_sets_up_encryption_on_first_write parse
              (get_config [keyA; keyB]) encrypt write close
              5%nat begin _ _
              [OpClose; OpWrite [Byte.x01]; OpWrite [Byte.x02]; OpClose]
              _ _ _ eq_refl eq_refl eq_refl)
    as [src [rest [Hnew [_ [_ [Hl [Hn _]]]]]]].
  exists src, rest. split; [ exact Hnew | ]. split; [ exact Hl | exact Hn ].
Defined.

End RecordingChecks.
